(** * integra-status: health-check engine and history analytics

    A shallow embedding of the logic of [lib/health.js],
    [lib/health-config.js], [lib/history.js], of the handler of
    [api/health.js] and of the traversal and card helpers of
    [public/app.js], followed by the properties the specification states
    about them and by further properties of the code.

    Conventions of the embedding:
    - a JavaScript object whose key order is observable (it is iterated
      with [Object.keys] or serialised) is an insertion-ordered association
      list, [Js.jsobj]; an object that is only read and written by key
      (the dependency graph, the visited table, [currentStatus]) is a
      [gmap]; a [Set] is a [gset];
    - a property that an object would inherit from [Object.prototype] (an
      endpoint id such as "constructor") is not modelled: a key is present
      only if it was written;
    - integer-valued numbers (epoch milliseconds, counters, status codes)
      are [Z] or [nat]; a number produced by a division is an exact rational
      [Q].  The uptime percentage is also evaluated in binary64, and the
      two readings are shown to agree for every store within its capacity;
      for the block age the binary64 rounding of the division by 1000 is
      not modelled;
    - an [async] function is a function into [Js.outcome]: the promise is
      fulfilled with a value or rejected with an error object;
    - the network, the clock and the built-ins that are not re-implemented
      ([JSON.parse], [parseInt], [Date] parsing) are fields of [Health.Env]. *)

From Stdlib Require Import ZArith QArith Qround Lia Uint63 PrimFloat.
From stdpp Require Import gmap strings list fin_maps relations pretty sorting.

Local Open Scope Z_scope.
Local Set Warnings "-register-all,-clear-no-such-hyp".

(* ===================================================================== *)
(** * Part I: the embedding                                               *)
(* ===================================================================== *)

Module Js.

(** ** Insertion-ordered objects

    [o[k]], [o[k] = v] and [Object.keys(o)].  Assigning to an existing key
    keeps its position; a new key goes last.  (Keys that look like array
    indices would be listed first by [Object.keys]; endpoint ids are not
    of that form.) *)
Definition jsobj (V : Type) : Type := list (string * V).

Fixpoint obj_get {V} (k : string) (o : jsobj V) : option V :=
  match o with
  | [] => None
  | (k', v) :: o' => if decide (k' = k) then Some v else obj_get k o'
  end.

Fixpoint obj_set {V} (k : string) (v : V) (o : jsobj V) : jsobj V :=
  match o with
  | [] => [(k, v)]
  | (k', v') :: o' =>
      if decide (k' = k) then (k, v) :: o' else (k', v') :: obj_set k v o'
  end.

Definition obj_keys {V} (o : jsobj V) : list string := o.*1.

(** ** Error objects and settled promises *)
Record JsError := mkJsError {
  err_name : string;
  err_message : string;
  err_code : option string;
}.

Definition Error (msg : string) : JsError := mkJsError "Error" msg None.

(** [String(err)], that is [Error.prototype.toString]. *)
Definition String_of_error (e : JsError) : string :=
  if decide (err_name e = "") then err_message e
  else if decide (err_message e = "") then err_name e
  else err_name e +:+ ": " +:+ err_message e.

Inductive outcome (A : Type) : Type :=
| Returned (a : A)
| Thrown (e : JsError).
Arguments Returned {A} a.
Arguments Thrown {A} e.

#[global] Instance outcome_ret : MRet outcome := λ A a, Returned a.
#[global] Instance outcome_bind : MBind outcome := λ A B f m,
  match m with
  | Returned a => f a
  | Thrown e => Thrown e
  end.

(** [try { body } catch (_) { handler }] *)
Definition try_catch {A} (body : outcome A) (handler : JsError → outcome A)
  : outcome A :=
  match body with
  | Returned a => Returned a
  | Thrown e => handler e
  end.

(** ** Values read from a JSON body or stored in a [details] bag *)
Inductive jsval : Type :=
| VUndefined
| VNull
| VNaN
| VBool (b : bool)
| VNum (q : Q)
| VStr (s : string)
| VArr (l : list jsval)
| VObj (l : list (string * jsval)).

(** Truthiness, as tested by [if (v)], [v ? a : b] and [v || d]. *)
Definition truthy (v : jsval) : bool :=
  match v with
  | VUndefined | VNull | VNaN => false
  | VBool b => b
  | VNum q => negb (Qeq_bool q 0)
  | VStr s => negb (bool_decide (s = ""))
  | VArr _ | VObj _ => true
  end.

(** [v.k] for a key that no prototype defines: a [TypeError] on
    [null]/[undefined], the own property of an object, [undefined]
    otherwise. *)
Definition member (v : jsval) (k : string) : outcome jsval :=
  match v with
  | VUndefined | VNull =>
      Thrown (mkJsError "TypeError"
                ("Cannot read properties of null or undefined (reading '"
                 +:+ k +:+ "')") None)
  | VObj l => Returned (default VUndefined (obj_get k l))
  | _ => Returned VUndefined
  end.

(** [v?.k] *)
Definition opt_member (v : jsval) (k : string) : jsval :=
  match v with
  | VObj l => default VUndefined (obj_get k l)
  | _ => VUndefined
  end.

(** [Math.round]: the nearest integer, a tie going up. *)
Definition Math_round (q : Q) : Z := Qfloor (q + (1 # 2)).

(** ** The same arithmetic in binary64

    A non-negative integer below 2^53 as a double, and [Math.round] on
    doubles between 0 and 2^51: adding and subtracting 2^52 rounds to an
    integer, which is the floor or one more; the fraction that is left
    decides. *)
Definition toFloat (z : Z) : float := PrimFloat.of_uint63 (Uint63.of_Z z).

Definition Math_floor64 (x : float) : float :=
  let r := (x + 4503599627370496 - 4503599627370496)%float in
  if (x <? r)%float then (r - 1)%float else r.

Definition Math_round64 (x : float) : float :=
  let f := Math_floor64 x in
  if (0.5 <=? x - f)%float then (f + 1)%float else f.

(** A truthy string option, as in [if (opts.category)]. *)
Definition truthy_str (o : option string) : bool :=
  match o with
  | Some s => negb (bool_decide (s = ""))
  | None => false
  end.

End Js.

(* --------------------------------------------------------------------- *)
(** ** lib/history.js                                                      *)
(* --------------------------------------------------------------------- *)

Module History.
Import Js.

(** The fields of a check result that [recordSnapshot] reads.  [status]
    is the string the engine wrote; [responseTimeMs] is [None] when the
    field is missing (or any other non-number, all of them falsy). *)
Record result := mkResult {
  id : string;
  status : string;
  responseTimeMs : option Z;
}.

Record epEntry := mkEp { s : Z; ms : Z }.
Record snapshot := mkSnapshot { t : Z; ep : jsobj epEntry }.
Record history := mkHistory { snapshots : list snapshot }.

Definition MAX_SNAPSHOTS : nat := 120.

(** [arr.slice(-n)] for [n > 0]: the last [n] elements, or all of them. *)
Definition slice_last {A} (n : nat) (arr : list A) : list A :=
  drop (length arr - n) arr.

Definition statusCode (st : string) : Z :=
  if decide (st = "UP") then 1 else if decide (st = "DEGRADED") then 2 else 0.

(** [r.responseTimeMs || 0] *)
Definition msOrZero (o : option Z) : Z :=
  match o with
  | Some z => if decide (z = 0) then 0 else z
  | None => 0
  end.

Definition encode (results : list result) : jsobj epEntry :=
  foldl (λ endpoints r,
           obj_set (id r)
             (mkEp (statusCode (status r)) (msOrZero (responseTimeMs r)))
             endpoints)
        [] results.

(** [recordSnapshot(history, results)], with [now] the value of
    [Date.now()]. *)
Definition recordSnapshot (now : Z) (h : history) (results : list result)
  : history :=
  let pushed := snapshots h ++ [mkSnapshot now (encode results)] in
  if decide (MAX_SNAPSHOTS < length pushed)%nat
  then mkHistory (slice_last MAX_SNAPSHOTS pushed)
  else mkHistory pushed.

(** One point of a sparkline; [None] is [null]. *)
Definition point (id : string) (snap : snapshot) : option Z :=
  match obj_get id (ep snap) with
  | Some e => Some (if decide (s e = 0) then -1 else ms e)
  | None => None
  end.

Definition getSparklines (h : history) : jsobj (list (option Z)) :=
  match last (snapshots h) with
  | None => []
  | Some latest =>
      foldl (λ sparklines id,
               obj_set id
                 (foldl (λ points snap, points ++ [point id snap])
                        [] (snapshots h))
                 sparklines)
            [] (obj_keys (ep latest))
  end.

(** The inner loop of [getUptimes]: the counters [(total, up)]. *)
Definition tally (id : string) (snaps : list snapshot) : nat * nat :=
  foldl (λ '(total, up) snap,
           match obj_get id (ep snap) with
           | Some e =>
               (S total, if decide (s e = 1) then S up else up)
           | None => (total, up)
           end)
        (0, 0)%nat snaps.

(** [total > 0 ? Math.round((up / total) * 10000) / 100 : 100] *)
Definition uptimeValue (total up : nat) : Q :=
  if decide (0 < total)%nat
  then inject_Z
         (Math_round ((inject_Z (Z.of_nat up) / inject_Z (Z.of_nat total))
                      * 10000))
       / 100
  else 100.

(** The same expression evaluated in binary64, as JavaScript does. *)
Definition uptimeValue64 (total up : nat) : float :=
  if decide (0 < total)%nat
  then (Math_round64 (toFloat (Z.of_nat up) / toFloat (Z.of_nat total) * 10000)
        / 100)%float
  else 100%float.

Definition getUptimes (h : history) : jsobj Q :=
  match last (snapshots h) with
  | None => []
  | Some latest =>
      foldl (λ uptimes id,
               let '(total, up) := tally id (snapshots h) in
               obj_set id (uptimeValue total up) uptimes)
            [] (obj_keys (ep latest))
  end.

Record incident := mkIncident {
  inc_id : string;
  fromStatus : string;
  toStatus : string;
  at_ : Z;
}.

(** [STATUS_NAMES[code] || 'UNKNOWN'] *)
Definition statusName (code : Z) : string :=
  if decide (code = 0) then "DOWN"
  else if decide (code = 1) then "UP"
  else if decide (code = 2) then "DEGRADED"
  else "UNKNOWN".

(** The body of the inner [for] of the transition scan, for one key of
    one snapshot: the state is [(currentStatus, incidents)]. *)
Definition scanKey (snap : snapshot)
  (st : gmap string Z * list incident) (id : string)
  : gmap string Z * list incident :=
  let '(currentStatus, incidents) := st in
  match obj_get id (ep snap) with
  | None => st
  | Some e =>
      let curr := s e in
      let incidents' :=
        match currentStatus !! id with
        | Some prev =>
            if decide (prev ≠ curr)
            then incidents ++
                 [mkIncident id (statusName prev) (statusName curr) (t snap)]
            else incidents
        | None => incidents
        end in
      (<[id := curr]> currentStatus, incidents')
  end.

Definition scanSnapshot (st : gmap string Z * list incident)
  (snap : snapshot) : gmap string Z * list incident :=
  foldl (scanKey snap) st (obj_keys (ep snap)).

(** [currentStatus] after the initialisation from the first snapshot. *)
Definition seed (first : snapshot) : gmap string Z :=
  foldl (λ currentStatus id,
           match obj_get id (ep first) with
           | Some e => <[id := s e]> currentStatus
           | None => currentStatus
           end)
        ∅ (obj_keys (ep first)).

(** [incidents.sort((a, b) => b.at - a.at)].  [Array.prototype.sort] is
    stable, so its result is the one of any stable sort; insertion from
    the right is one. *)
Fixpoint insertByAt (x : incident) (l : list incident) : list incident :=
  match l with
  | [] => [x]
  | y :: l' =>
      if decide (0 < at_ y - at_ x) then y :: insertByAt x l'
      else x :: y :: l'
  end.

Definition sortNewestFirst (l : list incident) : list incident :=
  foldr insertByAt [] l.

Definition getIncidents (h : history) : list incident :=
  match snapshots h with
  | first :: (_ :: _) as rest =>
      sortNewestFirst (foldl scanSnapshot (seed first, []) rest).2
  | _ => []
  end.

End History.

(* --------------------------------------------------------------------- *)
(** ** lib/health-config.js                                                *)
(* --------------------------------------------------------------------- *)

(** A [while] loop: [step] runs the body once, or answers [None] when the
    loop condition is false.  The result is [None] when [fuel] iterations
    were not enough. *)
Fixpoint while {S : Type} (step : S → option S) (fuel : nat) (st : S)
  : option S :=
  match step st with
  | None => Some st
  | Some st' =>
      match fuel with
      | O => None
      | S fuel' => while step fuel' st'
      end
  end.

(** A [for] loop whose body may throw. *)
Fixpoint forEach {S A : Type} (body : S → A → Js.outcome S) (st : S)
  (l : list A) : Js.outcome S :=
  match l with
  | [] => Js.Returned st
  | a :: l' => st' ← body st a; forEach body st' l'
  end.

Module Graph.
Record node := mkNode {
  dependsOn : list string;
  requiredBy : list string;
}.
End Graph.

Module HealthConfig.
Import Js.

Definition CHAIN_HALT_THRESHOLD_SECONDS : Z := 60.

(** An endpoint descriptor.  The fields that only the probes that are
    kept abstract read ([expectedChainId], [expectedField], [peerIp],
    [publicRpc], [healthUrl]) and the descriptive ones are left out.
    An optional field is an [option]. *)
Record endpoint := mkEndpoint {
  id : string;
  name : string;
  category : string;
  environment : option string;
  url : string;
  checkType : string;
  timeout : Z;
  enabled : bool;
  dependsOn : option (list string);
  impacts : option (list string);
}.

Record filterOpts := mkOpts {
  enabledOnly : option bool;
  optCategory : option string;
  optEnvironment : option string;
}.

Section Registry.
Variable ENDPOINTS : list endpoint.

Definition getEndpoints (opts : filterOpts) : list endpoint :=
  let eps := ENDPOINTS in
  let eps :=
    match enabledOnly opts with
    | Some false => eps
    | _ => filter (λ e, enabled e = true) eps
    end in
  let eps :=
    if truthy_str (optCategory opts)
    then filter (λ e, Some (category e) = optCategory opts) eps
    else eps in
  let eps :=
    if truthy_str (optEnvironment opts)
    then filter (λ e, environment e = optEnvironment opts) eps
    else eps in
  eps.

Definition getEndpoint (i : string) : option endpoint :=
  head (filter (λ e, id e = i) ENDPOINTS).

Definition emptyNode : Graph.node := Graph.mkNode [] [].

(** [if (!graph[i]) graph[i] = { dependsOn: [], requiredBy: [] }] *)
Definition ensure (i : string) (graph : gmap string Graph.node)
  : gmap string Graph.node :=
  match graph !! i with
  | Some _ => graph
  | None => <[i := emptyNode]> graph
  end.

Definition undefinedNode (prop : string) : JsError :=
  mkJsError "TypeError"
    ("Cannot read properties of undefined (reading '" +:+ prop +:+ "')")
    None.

(** [graph[i].dependsOn.push(x)] *)
Definition pushDependsOn (i x : string) (graph : gmap string Graph.node)
  : outcome (gmap string Graph.node) :=
  match graph !! i with
  | Some n =>
      Returned (<[i := Graph.mkNode (Graph.dependsOn n ++ [x])
                                    (Graph.requiredBy n)]> graph)
  | None => Thrown (undefinedNode "dependsOn")
  end.

(** [graph[i].requiredBy.push(x)] *)
Definition pushRequiredBy (i x : string) (graph : gmap string Graph.node)
  : outcome (gmap string Graph.node) :=
  match graph !! i with
  | Some n =>
      Returned (<[i := Graph.mkNode (Graph.dependsOn n)
                                    (Graph.requiredBy n ++ [x])]> graph)
  | None => Thrown (undefinedNode "requiredBy")
  end.

(** [if (graph[i].dependsOn.indexOf(x) === -1) graph[i].dependsOn.push(x)] *)
Definition addDependsOn (i x : string) (graph : gmap string Graph.node)
  : outcome (gmap string Graph.node) :=
  match graph !! i with
  | Some n =>
      if decide (x ∈ Graph.dependsOn n) then Returned graph
      else pushDependsOn i x graph
  | None => Thrown (undefinedNode "dependsOn")
  end.

Definition addRequiredBy (i x : string) (graph : gmap string Graph.node)
  : outcome (gmap string Graph.node) :=
  match graph !! i with
  | Some n =>
      if decide (x ∈ Graph.requiredBy n) then Returned graph
      else pushRequiredBy i x graph
  | None => Thrown (undefinedNode "requiredBy")
  end.

(** The three passes of [getDependencyGraph] over a registry. *)
Definition initNodes (eps : list endpoint) (graph : gmap string Graph.node)
  : gmap string Graph.node :=
  foldl (λ graph ep, ensure (id ep) graph) graph eps.

Definition dependsOnEdge (ep2 : endpoint) (graph : gmap string Graph.node)
  (depId : string) : outcome (gmap string Graph.node) :=
  graph ← pushDependsOn (id ep2) depId graph;
  pushRequiredBy depId (id ep2) (ensure depId graph).

Definition dependsOnEdges (eps : list endpoint)
  (graph : gmap string Graph.node) : outcome (gmap string Graph.node) :=
  forEach (λ graph ep2,
             forEach (dependsOnEdge ep2) graph (default [] (dependsOn ep2)))
          graph eps.

Definition impactsEdge (ep3 : endpoint) (graph : gmap string Graph.node)
  (impId : string) : outcome (gmap string Graph.node) :=
  graph ← addRequiredBy (id ep3) impId (ensure (id ep3) graph);
  addDependsOn impId (id ep3) (ensure impId graph).

Definition impactsEdges (eps : list endpoint)
  (graph : gmap string Graph.node) : outcome (gmap string Graph.node) :=
  forEach (λ graph ep3,
             forEach (impactsEdge ep3) graph (default [] (impacts ep3)))
          graph eps.

Definition getDependencyGraph : outcome (gmap string Graph.node) :=
  graph ← dependsOnEdges ENDPOINTS (initNodes ENDPOINTS ∅);
  impactsEdges ENDPOINTS graph.

(** The state of the traversal of [getImpactedServices]. *)
Record bfs := mkBfs {
  queue : list string;
  visited : gset string;
  impacted : list string;
}.

Definition visit (st : bfs) (dep : string) : bfs :=
  if decide (dep ∈ visited st) then st
  else mkBfs (queue st ++ [dep]) ({[dep]} ∪ visited st)
             (impacted st ++ [dep]).

(** One turn of [while (queue.length > 0) { ... }]. *)
Definition bfsStep (graph : gmap string Graph.node) (st : bfs)
  : option bfs :=
  match queue st with
  | [] => None
  | current :: rest =>
      let st := mkBfs rest (visited st) (impacted st) in
      match graph !! current with
      | None => Some st
      | Some node => Some (foldl visit st (Graph.requiredBy node))
      end
  end.

(** [getImpactedServices(downId)]; [None] is "not finished within
    [fuel] turns of the loop". *)
Definition getImpactedServices (fuel : nat) (downId : string)
  : option (outcome (list string)) :=
  match getDependencyGraph with
  | Thrown e => Some (Thrown e)
  | Returned graph =>
      st ← while (bfsStep graph) fuel (mkBfs [downId] {[downId]} []);
      Some (Returned (impacted st))
  end.
End Registry.

End HealthConfig.

(* --------------------------------------------------------------------- *)
(** ** public/app.js: blast radius                                         *)
(* --------------------------------------------------------------------- *)

Module App.

Record bfs := mkBfs {
  queue : list string;
  visited : gset string;
  count : nat;
}.

Definition visit (st : bfs) (dep : string) : bfs :=
  if decide (dep ∈ visited st) then st
  else mkBfs (queue st ++ [dep]) ({[dep]} ∪ visited st) (S (count st)).

Definition bfsStep (graph : gmap string Graph.node) (st : bfs) : option bfs :=
  match queue st with
  | [] => None
  | current :: rest =>
      let st := mkBfs rest (visited st) (count st) in
      match graph !! current with
      | None => Some st
      | Some node => Some (foldl visit st (Graph.requiredBy node))
      end
  end.

(** [getBlastRadius(endpointId, graph)]; [None] is "not finished within
    [fuel] turns of the loop". *)
Definition getBlastRadius (fuel : nat) (endpointId : string)
  (graph : gmap string Graph.node) : option nat :=
  count <$> while (bfsStep graph) fuel (mkBfs [endpointId] {[endpointId]} 0%nat).

End App.

(* --------------------------------------------------------------------- *)
(** ** lib/health.js                                                       *)
(* --------------------------------------------------------------------- *)

Module Health.
Import Js.
Abbreviation endpoint := HealthConfig.endpoint.

(** What [httpRequest] resolves with (the headers are never read). *)
Record httpResponse := mkResponse {
  statusCode : Z;
  body : string;
}.

(** A check result.  [timestamp] and the descriptive fields copied from
    the descriptor are left out. *)
Record checkResult := mkCheckResult {
  id : string;
  name : string;
  url : string;
  category : string;
  environment : string;
  status : string;
  responseTimeMs : Z;
  details : jsobj jsval;
  error : option string;
  dependsOn : list string;
  impacts : list string;
}.

(** The places where a probe reads the clock. *)
Inductive callSite := AtStart | AtBlockAge | AtResult.

(** The surroundings of the engine: the network's answer to a request,
    the clock reading of a probe at a call site, the built-ins, and the
    check functions that are not modelled further. *)
Record Env := mkEnv {
  httpRequest : string → Z → outcome httpResponse;
  Date_now : string → callSite → Z;
  JSON_parse : string → outcome jsval;
  parseInt10 : jsval → option Z;
  Date_getTime : jsval → option Z;
  checkEvmRpc : endpoint → outcome checkResult;
  checkHttpJson : endpoint → outcome checkResult;
  checkHttpGet : endpoint → outcome checkResult;
  checkWebsocket : endpoint → outcome checkResult;
  checkApiHealth : endpoint → outcome checkResult;
  checkHttpReachable : endpoint → outcome checkResult;
  checkDeepHealth : endpoint → outcome checkResult;
  checkGraphql : endpoint → outcome checkResult;
  checkCosmosPeer : endpoint → outcome checkResult;
}.

(** [s || d] on strings. *)
Definition strOr (s d : string) : string :=
  if decide (s = "") then d else s.

Definition result (ep : endpoint) (status : string) (responseTimeMs : Z)
  (details : jsobj jsval) (error : option string) : checkResult :=
  {| id := HealthConfig.id ep;
     name := HealthConfig.name ep;
     url := HealthConfig.url ep;
     category := HealthConfig.category ep;
     environment := strOr (default "" (HealthConfig.environment ep)) "prod";
     status := status;
     responseTimeMs := responseTimeMs;
     details := details;
     error := if truthy_str error then error else None;
     dependsOn := default [] (HealthConfig.dependsOn ep);
     impacts := default [] (HealthConfig.impacts ep) |}.

(** A number that may be [NaN]. *)
Definition numOrNaN (o : option Z) : jsval :=
  match o with
  | Some z => VNum (inject_Z z)
  | None => VNaN
  end.

(** [(Date.now() - new Date(time).getTime()) / 1000]; [None] is [NaN]. *)
Definition blockAgeOf (now : Z) (parsed : option Z) : option Q :=
  tb ← parsed; Some (inject_Z (now - tb) / 1000)%Q.

(** [blockAge > config.CHAIN_HALT_THRESHOLD_SECONDS] *)
Definition exceedsHalt (blockAge : option Q) : bool :=
  match blockAge with
  | Some q =>
      if Qlt_le_dec (inject_Z HealthConfig.CHAIN_HALT_THRESHOLD_SECONDS) q
      then true else false
  | None => false
  end.

Definition haltMessage (blockAge : option Q) : string :=
  "Possible chain halt — last block "
  +:+ match blockAge with
      | Some q => pretty (Math_round q)
      | None => "NaN"
      end
  +:+ "s ago".

(** [x.length] *)
Definition lengthOf (v : jsval) : jsval :=
  match v with
  | VArr l => VNum (inject_Z (Z.of_nat (length l)))
  | VStr s => VNum (inject_Z (Z.of_nat (String.length s)))
  | _ => opt_member v "length"
  end.

Section Engine.
Variable E : Env.
Variable ENDPOINTS : list endpoint.

Definition elapsed (ep : endpoint) (start : Z) : Z :=
  Date_now E (HealthConfig.id ep) AtResult - start.

Definition httpError (res : httpResponse) : JsError :=
  Error ("HTTP " +:+ pretty (statusCode res)).

(** The [try { ... } catch (_) {}] of [checkCosmosRpc]: the peer count,
    when [/net_info] answers. *)
Definition withPeerCount (ep : endpoint) (details : jsobj jsval)
  : jsobj jsval :=
  let attempt : outcome (jsobj jsval) :=
    netRes ← httpRequest E (HealthConfig.url ep +:+ "/net_info")
               (HealthConfig.timeout ep);
    if decide (statusCode netRes = 200) then
      netData ← JSON_parse E (body netRes);
      res ← member netData "result";
      peers ← (if truthy res then member res "peers"
               else member netData "peers");
      let peerCount :=
        match peers with
        | VArr l => VNum (inject_Z (Z.of_nat (length l)))
        | _ =>
            match parseInt10 E (opt_member res "n_peers") with
            | Some z => if decide (z = 0) then VNull else VNum (inject_Z z)
            | None => VNull
            end
        end in
      mret (obj_set "peerCount" peerCount details)
    else mret details in
  match attempt with
  | Returned d => d
  | Thrown _ => details
  end.

(** [statusData.result ? statusData.result.sync_info
                          : statusData.sync_info] *)
Definition syncInfoOf (statusData : jsval) : outcome jsval :=
  res ← member statusData "result";
  if truthy res then member res "sync_info"
  else member statusData "sync_info".

Definition checkCosmosRpc (ep : endpoint) : outcome checkResult :=
  let start := Date_now E (HealthConfig.id ep) AtStart in
  statusRes ← httpRequest E (HealthConfig.url ep +:+ "/status")
                (HealthConfig.timeout ep);
  if decide (statusCode statusRes ≠ 200) then Thrown (httpError statusRes)
  else
    statusData ← JSON_parse E (body statusRes);
    syncInfo ← syncInfoOf statusData;
    let finish details :=
      mret (result ep "UP" (elapsed ep start)
              (withPeerCount ep details) None) in
    if truthy syncInfo then
      let details := obj_set "blockHeight"
        (numOrNaN (parseInt10 E (opt_member syncInfo "latest_block_height")))
        [] in
      let details := obj_set "latestBlockTime"
        (opt_member syncInfo "latest_block_time") details in
      let details := obj_set "catchingUp"
        (opt_member syncInfo "catching_up") details in
      let blockAge :=
        blockAgeOf (Date_now E (HealthConfig.id ep) AtBlockAge)
          (Date_getTime E (opt_member syncInfo "latest_block_time")) in
      let details := obj_set "blockAgeSec"
        (numOrNaN (Math_round <$> blockAge)) details in
      if exceedsHalt blockAge then
        mret (result ep "DEGRADED" (elapsed ep start) details
                (Some (haltMessage blockAge)))
      else if truthy (opt_member syncInfo "catching_up") then
        mret (result ep "DEGRADED" (elapsed ep start) details
                (Some "Node is catching up"))
      else finish details
    else finish [].

(** The [try { ... } catch (_) {}] of [checkCosmosRest]. *)
Definition withBondedValidators (ep : endpoint) (details : jsobj jsval)
  : jsobj jsval :=
  let attempt : outcome (jsobj jsval) :=
    valRes ← httpRequest E
               (HealthConfig.url ep +:+
                "/cosmos/staking/v1beta1/validators?status=BOND_STATUS_BONDED&pagination.limit=100")
               (HealthConfig.timeout ep);
    if decide (statusCode valRes = 200) then
      valData ← JSON_parse E (body valRes);
      validators ← member valData "validators";
      mret (obj_set "bondedValidators"
              (if truthy validators then lengthOf validators else VNull)
              details)
    else mret details in
  match attempt with
  | Returned d => d
  | Thrown _ => details
  end.

(** [blockData.block?.header || blockData.sdk_block?.header] *)
Definition headerOf (blockData : jsval) : outcome jsval :=
  block ← member blockData "block";
  if truthy (opt_member block "header")
  then mret (opt_member block "header")
  else sdk ← member blockData "sdk_block";
       mret (opt_member sdk "header").

Definition checkCosmosRest (ep : endpoint) : outcome checkResult :=
  let start := Date_now E (HealthConfig.id ep) AtStart in
  blockRes ← httpRequest E
               (HealthConfig.url ep +:+
                "/cosmos/base/tendermint/v1beta1/blocks/latest")
               (HealthConfig.timeout ep);
  if decide (statusCode blockRes ≠ 200) then Thrown (httpError blockRes)
  else
    blockData ← JSON_parse E (body blockRes);
    header ← headerOf blockData;
    let finish details :=
      mret (result ep "UP" (elapsed ep start)
              (withBondedValidators ep details) None) in
    if truthy header then
      let details := obj_set "blockHeight"
        (numOrNaN (parseInt10 E (opt_member header "height"))) [] in
      let details := obj_set "latestBlockTime"
        (opt_member header "time") details in
      let details := obj_set "chainId"
        (opt_member header "chain_id") details in
      let blockAge :=
        blockAgeOf (Date_now E (HealthConfig.id ep) AtBlockAge)
          (Date_getTime E (opt_member header "time")) in
      let details := obj_set "blockAgeSec"
        (numOrNaN (Math_round <$> blockAge)) details in
      if exceedsHalt blockAge then
        mret (result ep "DEGRADED" (elapsed ep start) details
                (Some (haltMessage blockAge)))
      else finish details
    else finish [].

(** The table from check type to check function; [None] is a key the
    table does not have. *)
Definition CHECK_FNS (checkType : string)
  : option (endpoint → outcome checkResult) :=
  if decide (checkType = "evm-rpc") then Some (checkEvmRpc E)
  else if decide (checkType = "cosmos-rpc") then Some checkCosmosRpc
  else if decide (checkType = "cosmos-rest") then Some checkCosmosRest
  else if decide (checkType = "http-json") then Some (checkHttpJson E)
  else if decide (checkType = "http-get") then Some (checkHttpGet E)
  else if decide (checkType = "websocket") then Some (checkWebsocket E)
  else if decide (checkType = "api-health") then Some (checkApiHealth E)
  else if decide (checkType = "http-reachable")
       then Some (checkHttpReachable E)
  else if decide (checkType = "deep-health") then Some (checkDeepHealth E)
  else if decide (checkType = "graphql") then Some (checkGraphql E)
  else if decide (checkType = "cosmos-peer-check")
       then Some (checkCosmosPeer E)
  else None.

Definition isFirewall (err : JsError) : bool :=
  bool_decide (err_code err = Some "ECONNREFUSED")
  || bool_decide (err_code err = Some "ECONNRESET")
  || bool_decide (err_code err = Some "EHOSTUNREACH").

Definition firewalled (ep : endpoint) (err : JsError) : bool :=
  bool_decide (HealthConfig.category ep = "validators") && isFirewall err.

Definition runCheck (ep : endpoint) : outcome checkResult :=
  match CHECK_FNS (HealthConfig.checkType ep) with
  | None =>
      mret (result ep "DOWN" 0 []
              (Some ("Unknown check type: " +:+ HealthConfig.checkType ep)))
  | Some fn =>
      try_catch (fn ep) (λ err,
        let status := if firewalled ep err then "DEGRADED" else "DOWN" in
        let errMsg :=
          if firewalled ep err then "Unreachable (likely firewalled)"
          else strOr (err_message err) (String_of_error err) in
        mret (result ep status 0 [] (Some errMsg)))
  end.

(** [Object.assign({ enabledOnly: true }, opts || {})] *)
Definition withEnabledOnly (opts : option HealthConfig.filterOpts)
  : HealthConfig.filterOpts :=
  match opts with
  | Some o =>
      HealthConfig.mkOpts
        (Some (default true (HealthConfig.enabledOnly o)))
        (HealthConfig.optCategory o) (HealthConfig.optEnvironment o)
  | None => HealthConfig.mkOpts (Some true) None None
  end.

(** What the [map] after [Promise.allSettled] makes of one settled
    promise and its endpoint. *)
Definition settle (ep : endpoint) (r : outcome checkResult) : checkResult :=
  match r with
  | Returned value => value
  | Thrown reason =>
      result ep "DOWN" 0 []
        (Some (strOr (err_message reason) "Check failed"))
  end.

Definition checkAll (opts : option HealthConfig.filterOpts)
  : outcome (list checkResult) :=
  let endpoints :=
    HealthConfig.getEndpoints ENDPOINTS (withEnabledOnly opts) in
  let results := runCheck <$> endpoints in
  mret (zip_with settle endpoints results).
End Engine.

(** The view of a result that the history store reads. *)
Definition toHistory (r : checkResult) : History.result :=
  History.mkResult (id r) (status r) (Some (responseTimeMs r)).

End Health.

(* --------------------------------------------------------------------- *)
(** ** lib/health.js: the plain HTTP probes                                *)
(* --------------------------------------------------------------------- *)

Module Probes.
Import Js Health.

Section Probes.
Variable E : Env.

(** [{ statusCode: res.statusCode }] *)
Definition statusDetails (res : httpResponse) : jsobj jsval :=
  [("statusCode", VNum (inject_Z (statusCode res)))].

Definition checkHttpGet (ep : endpoint) : outcome checkResult :=
  let start := Date_now E (HealthConfig.id ep) AtStart in
  res ← httpRequest E (HealthConfig.url ep) (HealthConfig.timeout ep);
  if decide (200 ≤ statusCode res ∧ statusCode res < 400)
  then mret (result ep "UP" (elapsed E ep start) (statusDetails res) None)
  else Thrown (httpError res).

(** The [try { ... } catch (_) {}] of [checkApiHealth]: what the body
    says about status and version, when it is JSON. *)
Definition withHealthInfo (res : httpResponse) (details : jsobj jsval)
  : jsobj jsval :=
  let attempt : outcome (jsobj jsval) :=
    data ← JSON_parse E (body res);
    status ← member data "status";
    let details :=
      if truthy status then obj_set "healthStatus" status details
      else details in
    version ← member data "version";
    mret (if truthy version then obj_set "version" version details
          else details) in
  match attempt with
  | Returned d => d
  | Thrown _ => details
  end.

Definition checkApiHealth (ep : endpoint) : outcome checkResult :=
  let start := Date_now E (HealthConfig.id ep) AtStart in
  res ← httpRequest E (HealthConfig.url ep) (HealthConfig.timeout ep);
  let details := statusDetails res in
  if decide (200 ≤ statusCode res ∧ statusCode res < 400)
  then mret (result ep "UP" (elapsed E ep start)
               (withHealthInfo res details) None)
  else Thrown (httpError res).

Definition checkHttpReachable (ep : endpoint) : outcome checkResult :=
  let start := Date_now E (HealthConfig.id ep) AtStart in
  res ← httpRequest E (HealthConfig.url ep) (HealthConfig.timeout ep);
  let details := statusDetails res in
  if decide (statusCode res < 500)
  then mret (result ep "UP" (elapsed E ep start) details None)
  else Thrown (httpError res).

(** The surroundings in which the three check functions above are the
    ones the table holds; the other six stay as [E] has them. *)
Definition withProbes : Env :=
  mkEnv (httpRequest E) (Date_now E) (JSON_parse E) (parseInt10 E)
    (Date_getTime E)
    (checkEvmRpc E) (checkHttpJson E) checkHttpGet (checkWebsocket E)
    checkApiHealth checkHttpReachable (checkDeepHealth E) (checkGraphql E)
    (checkCosmosPeer E).
End Probes.

End Probes.

(* --------------------------------------------------------------------- *)
(** ** lib/health-config.js: the app groups                                *)
(* --------------------------------------------------------------------- *)

Module Groups.
Import Js.

(** An app group; the icon and the description are left out. *)
Record appGroup := mkGroup {
  id : string;
  name : string;
  endpoints : list string;
}.

(** The [claimed] table after the first loop: the ids that the groups
    other than 'external' list. *)
Definition claimed (groups : list appGroup) : gset string :=
  foldl (λ claimed g,
           if decide (id g = "external") then claimed
           else foldl (λ claimed e, {[e]} ∪ claimed) claimed (endpoints g))
        ∅ groups.

(** [extGroup.endpoints.push(x)], for [extGroup] the first group whose id
    is 'external'. *)
Fixpoint pushExternal (x : string) (groups : list appGroup)
  : outcome (list appGroup) :=
  match groups with
  | [] => Thrown (HealthConfig.undefinedNode "endpoints")
  | g :: groups' =>
      if decide (id g = "external")
      then Returned (mkGroup (id g) (name g) (endpoints g ++ [x]) :: groups')
      else groups' ← pushExternal x groups'; mret (g :: groups')
  end.

(** The function that runs when the module is loaded: [APP_GROUPS]
    afterwards. *)
Definition fillExternal (ENDPOINTS : list HealthConfig.endpoint)
  (APP_GROUPS : list appGroup) : outcome (list appGroup) :=
  let claimed := claimed APP_GROUPS in
  forEach (λ groups ep,
             if decide (HealthConfig.category ep = "external"
                        ∧ HealthConfig.id ep ∉ claimed)
             then pushExternal (HealthConfig.id ep) groups
             else mret groups)
          APP_GROUPS ENDPOINTS.

End Groups.

(* --------------------------------------------------------------------- *)
(** ** api/health.js                                                       *)
(* --------------------------------------------------------------------- *)

Module Api.
Import Js.

(** [{ id: id, name: ep ? ep.name : id }] *)
Record impactEntry := mkImpact {
  imp_id : string;
  imp_name : string;
}.

Record historyView := mkHistoryView {
  sparklines : jsobj (list (option Z));
  uptimes : jsobj Q;
  incidents : list History.incident;
  dataPoints : nat;
  spanMinutes : Z;
}.

(** The answer of the handler; the time stamp and the two constants
    [ENVIRONMENTS] and [APP_GROUPS] are left out. *)
Record summary := mkSummary {
  total : nat;
  up : nat;
  degraded : nat;
  down : nat;
  dependencyGraph : gmap string Graph.node;
  impactMap : jsobj (list impactEntry);
  results : list Health.checkResult;
  history : historyView;
}.

(** The options the handler makes of the [env] and [category] query
    parameters; [None] is a parameter that is not given. *)
Definition queryOpts (env cat : option string) : HealthConfig.filterOpts :=
  HealthConfig.mkOpts None
    (if truthy_str cat then cat else None)
    (if truthy_str env then env else None).

(** [results.filter(r => r.status === st).length] *)
Definition countStatus (st : string) (results : list Health.checkResult)
  : nat :=
  length (filter (λ r, Health.status r = st) results).

(** [hist.snapshots.length > 1
       ? Math.round((last.t - first.t) / 60000) : 0] *)
Definition span (snaps : list History.snapshot) : Z :=
  match head snaps, last snaps with
  | Some first, Some latest =>
      if decide (1 < length snaps)%nat
      then Math_round (inject_Z (History.t latest - History.t first) / 60000)
      else 0
  | _, _ => 0
  end.

Definition view (hist : History.history) : historyView :=
  mkHistoryView (History.getSparklines hist) (History.getUptimes hist)
    (History.getIncidents hist) (length (History.snapshots hist))
    (span (History.snapshots hist)).

Section Handler.
Variable E : Health.Env.
Variable ENDPOINTS : list HealthConfig.endpoint.
(** The number of turns each traversal may take. *)
Variable fuel : nat.

Definition named (i : string) : impactEntry :=
  mkImpact i
    match HealthConfig.getEndpoint ENDPOINTS i with
    | Some ep => HealthConfig.name ep
    | None => i
    end.

(** The body of the loop that builds the impact map; [None] is a
    traversal that did not finish. *)
Definition impactStep (impactMap : jsobj (list impactEntry))
  (r : Health.checkResult) : option (outcome (jsobj (list impactEntry))) :=
  if decide (Health.status r = "DOWN" ∨ Health.status r = "DEGRADED") then
    match HealthConfig.getImpactedServices ENDPOINTS fuel (Health.id r) with
    | None => None
    | Some (Thrown e) => Some (Thrown e)
    | Some (Returned []) => Some (Returned impactMap)
    | Some (Returned impacted) =>
        Some (Returned (obj_set (Health.id r) (named <$> impacted) impactMap))
    end
  else Some (Returned impactMap).

Fixpoint impactLoop (impactMap : jsobj (list impactEntry))
  (results : list Health.checkResult)
  : option (outcome (jsobj (list impactEntry))) :=
  match results with
  | [] => Some (Returned impactMap)
  | r :: results' =>
      match impactStep impactMap r with
      | None => None
      | Some (Thrown e) => Some (Thrown e)
      | Some (Returned impactMap') => impactLoop impactMap' results'
      end
  end.

(** The handler, from the query parameters, the clock reading of
    [recordSnapshot] and the stored history that [loadHistory] returned,
    to the summary it answers with and the history it saves.  A thrown
    error is the 500 answer. *)
Definition handler (env cat : option string) (now : Z)
  (stored : History.history) : option (outcome (summary * History.history)) :=
  match Health.checkAll E ENDPOINTS (Some (queryOpts env cat)) with
  | Thrown e => Some (Thrown e)
  | Returned results =>
      match impactLoop [] results with
      | None => None
      | Some (Thrown e) => Some (Thrown e)
      | Some (Returned impactMap) =>
          let hist :=
            History.recordSnapshot now stored (Health.toHistory <$> results) in
          match HealthConfig.getDependencyGraph ENDPOINTS with
          | Thrown e => Some (Thrown e)
          | Returned graph =>
              Some (Returned
                      (mkSummary (length results) (countStatus "UP" results)
                         (countStatus "DEGRADED" results)
                         (countStatus "DOWN" results)
                         graph impactMap results (view hist),
                       hist))
          end
      end
  end.
End Handler.

End Api.

(* --------------------------------------------------------------------- *)
(** ** public/app.js: cascade tree and app cards                           *)
(* --------------------------------------------------------------------- *)

Module Dashboard.
Import Js.

(** The state of [buildCascadeTree] between two turns of its loop. *)
Record cascade := mkCascade {
  levels : list (list string);
  visited : gset string;
  currentLevel : list string;
}.

(** The body of the inner [for]; the state is [(visited, nextLevel)]. *)
Definition visit (st : gset string * list string) (dep : string)
  : gset string * list string :=
  if decide (dep ∈ st.1) then st else ({[dep]} ∪ st.1, st.2 ++ [dep]).

(** The body of [for (const id of currentLevel)]. *)
Definition expand (graph : gmap string Graph.node)
  (st : gset string * list string) (id : string)
  : gset string * list string :=
  match graph !! id with
  | None => st
  | Some node => foldl visit st (Graph.requiredBy node)
  end.

(** One turn of [while (currentLevel.length > 0) { ... }]. *)
Definition cascadeStep (graph : gmap string Graph.node) (st : cascade)
  : option cascade :=
  match currentLevel st with
  | [] => None
  | _ :: _ =>
      let '(visited, nextLevel) :=
        foldl (expand graph) (visited st, []) (currentLevel st) in
      Some (mkCascade
              match nextLevel with
              | [] => levels st
              | _ :: _ => levels st ++ [nextLevel]
              end
              visited nextLevel)
  end.

(** [buildCascadeTree(startId, graph)]; [None] is "not finished within
    [fuel] turns of the loop". *)
Definition buildCascadeTree (fuel : nat) (startId : string)
  (graph : gmap string Graph.node) : option (list (list string)) :=
  levels <$> while (cascadeStep graph) fuel
               (mkCascade [] {[startId]} [startId]).

Definition computeWorstStatus (endpoints : list Health.checkResult)
  : string :=
  let '(hasDown, hasDegraded) :=
    foldl (λ '(hasDown, hasDegraded) ep,
             if decide (Health.status ep = "DOWN") then (true, hasDegraded)
             else if decide (Health.status ep = "DEGRADED")
                  then (hasDown, true)
                  else (hasDown, hasDegraded))
          (false, false) endpoints in
  if hasDown then "down" else if hasDegraded then "degraded" else "up".

(** What the sparkline [s] contributes at position [i] of a combined
    sparkline of length [maxLen]: the value at the index aligned to the
    right, unless it is out of range, [null] or negative. *)
Definition sample (maxLen i : nat) (s : list (option Z)) : option Z :=
  let idx := Z.of_nat i - (Z.of_nat maxLen - Z.of_nat (length s)) in
  if decide (0 ≤ idx ∧ idx < Z.of_nat (length s)) then
    match s !! Z.to_nat idx with
    | Some (Some v) => if decide (0 ≤ v) then Some v else None
    | _ => None
    end
  else None.

(** The body of [for (let i = 0; i < maxLen; i++)]: the point pushed.
    The mean is an exact rational. *)
Definition combinedAt (maxLen : nat) (epSparklines : list (list (option Z)))
  (i : nat) : option Z :=
  let '(sum, count) :=
    foldl (λ '(sum, count) s,
             match sample maxLen i s with
             | Some v => (sum + v, S count)
             | None => (sum, count)
             end)
          (0, 0%nat) epSparklines in
  if decide (0 < count)%nat
  then Some (Math_round (inject_Z sum / inject_Z (Z.of_nat count)))
  else None.

(** [computeGroupSparkline(endpoints, sparklines)]; [None] is [null], as
    an argument and as the result. *)
Definition computeGroupSparkline (endpoints : list Health.checkResult)
  (sparklines : option (jsobj (list (option Z))))
  : option (list (option Z)) :=
  match sparklines with
  | None => None
  | Some sparklines =>
      let epSparklines :=
        filter (λ s, (0 < length s)%nat)
          (omap (λ ep, obj_get (Health.id ep) sparklines) endpoints) in
      match epSparklines with
      | [] => None
      | _ :: _ =>
          let maxLen := max_list (length <$> epSparklines) in
          Some (combinedAt maxLen epSparklines <$> seq 0 maxLen)
      end
  end.

End Dashboard.

(* ===================================================================== *)
(** * Part II: vocabulary of the statements                               *)
(* ===================================================================== *)

Module Spec.
Import Js.

(** Check cycles appended one after the other: each cycle is the clock
    reading and the results of that cycle. *)
Definition appendAll (h : History.history)
  (cycles : list (Z * list History.result)) : History.history :=
  foldl (λ h c, History.recordSnapshot c.1 h c.2) h cycles.

(** The snapshot that a cycle contributes. *)
Definition snapshotOf (c : Z * list History.result) : History.snapshot :=
  History.mkSnapshot c.1 (History.encode c.2).

(** Is the endpoint present in the snapshot, and is it UP there? *)
Definition present (id : string) (snap : History.snapshot) : bool :=
  match obj_get id (History.ep snap) with
  | Some _ => true
  | None => false
  end.

Definition isUp (id : string) (snap : History.snapshot) : bool :=
  match obj_get id (History.ep snap) with
  | Some e => bool_decide (History.s e = 1)
  | None => false
  end.

Definition countPresent (id : string) (snaps : list History.snapshot) : nat :=
  length (filter (λ snap, present id snap = true) snaps).

Definition countUp (id : string) (snaps : list History.snapshot) : nat :=
  length (filter (λ snap, isUp id snap = true) snaps).

(** The observations of one endpoint, oldest first: the time of each
    snapshot that has the endpoint, and its status code there. *)
Definition observations (id : string) (snaps : list History.snapshot)
  : list (Z * Z) :=
  omap (λ snap, (λ e, (History.t snap, History.s e))
                <$> obj_get id (History.ep snap)) snaps.

(** The incident between two adjacent observations, if the status
    changed; [prev = None] is "no earlier observation". *)
Definition transition (id : string) (prev : option Z) (curr at_ : Z)
  : list History.incident :=
  match prev with
  | Some p =>
      if decide (p ≠ curr)
      then [History.mkIncident id (History.statusName p)
              (History.statusName curr) at_]
      else []
  | None => []
  end.

Fixpoint transitions (id : string) (prev : option Z) (obs : list (Z * Z))
  : list History.incident :=
  match obs with
  | [] => []
  | (at_, curr) :: obs' =>
      transition id prev curr at_ ++ transitions id (Some curr) obs'
  end.

(** One incident per pair of adjacent observations of the endpoint whose
    statuses differ, oldest first. *)
Definition expectedIncidents (id : string) (snaps : list History.snapshot)
  : list History.incident :=
  transitions id None (observations id snaps).

(** Newest first. *)
Definition newerFirst (a b : History.incident) : Prop :=
  History.at_ b ≤ History.at_ a.

(** The incidents of one endpoint. *)
Definition about (id : string) (l : list History.incident)
  : list History.incident :=
  filter (λ r, History.inc_id r = id) l.

(** The two adjacency lists of an id in a graph; an id without a node
    has none. *)
Definition depsOf (graph : gmap string Graph.node) (i : string)
  : list string :=
  default [] (Graph.dependsOn <$> graph !! i).

Definition reqsOf (graph : gmap string Graph.node) (i : string)
  : list string :=
  default [] (Graph.requiredBy <$> graph !! i).

(** The relations a registry declares, as pairs in declaration order:
    [(a, b)] for "a depends on b", and [(x, y)] for "x impacts y". *)
Definition depPairs (eps : list HealthConfig.endpoint)
  : list (string * string) :=
  eps ≫= λ ep, (λ d, (HealthConfig.id ep, d))
               <$> default [] (HealthConfig.dependsOn ep).

Definition impPairs (eps : list HealthConfig.endpoint)
  : list (string * string) :=
  eps ≫= λ ep, (λ y, (HealthConfig.id ep, y))
               <$> default [] (HealthConfig.impacts ep).

(** How often [x] occurs in [l]. *)
Definition occurrences (x : string) (l : list string) : nat :=
  length (filter (λ y, y = x) l).

(** [l] extended by those of [ys] it does not have yet. *)
Definition addUnique (l ys : list string) : list string :=
  foldl (λ l y, if decide (y ∈ l) then l else l ++ [y]) l ys.

(** How often a registry declares the pair [p]. *)
Definition declared (p : string * string) (pairs : list (string * string))
  : nat :=
  length (filter (λ q, q = p) pairs).

(** [graph'] is [graph] after the dependsOn pass over [pairs]: every
    target has a node, and each pair [(a, b)] was appended, in order, to
    [graph[a].dependsOn] and to [graph[b].requiredBy]. *)
Definition dependsOnAdded (pairs : list (string * string))
  (graph graph' : gmap string Graph.node) : Prop :=
  dom graph' = list_to_set pairs.*2 ∪ dom graph
  ∧ (∀ a, depsOf graph' a =
          depsOf graph a ++ (filter (λ p, p.1 = a) pairs).*2)
  ∧ (∀ a, reqsOf graph' a =
          reqsOf graph a ++ (filter (λ p, p.2 = a) pairs).*1).

(** [graph'] is [graph] after the impacts pass over [pairs]: both ends
    have a node, and each pair [(x, y)] was added to
    [graph[x].requiredBy] and to [graph[y].dependsOn] unless present. *)
Definition impactsAdded (pairs : list (string * string))
  (graph graph' : gmap string Graph.node) : Prop :=
  dom graph' = list_to_set pairs.*1 ∪ list_to_set pairs.*2 ∪ dom graph
  ∧ (∀ a, depsOf graph' a =
          addUnique (depsOf graph a) (filter (λ p, p.2 = a) pairs).*1)
  ∧ (∀ a, reqsOf graph' a =
          addUnique (reqsOf graph a) (filter (λ p, p.1 = a) pairs).*2).

(** The edge that the traversals follow: [b] is in [graph[a].requiredBy]. *)
Definition requiredByEdge (graph : gmap string Graph.node) (a b : string)
  : Prop :=
  b ∈ reqsOf graph a.

(** Every id that some [requiredBy] list of the graph mentions. *)
Definition targets (graph : gmap string Graph.node) : gset string :=
  list_to_set (map_to_list graph ≫= λ kn, Graph.requiredBy kn.2).

(** A number of loop turns that is enough for a traversal of [graph]. *)
Definition enoughFuel (graph : gmap string Graph.node) : nat :=
  2 * size (targets graph) + 1.

(** What holds of the traversal state before and after every turn of
    the loop. *)
Definition bfsInv (graph : gmap string Graph.node) (start : string)
  (st : HealthConfig.bfs) : Prop :=
  start ∈ HealthConfig.visited st
  ∧ (∀ x, x ∈ HealthConfig.visited st → rtc (requiredByEdge graph) start x)
  ∧ (∀ x, x ∈ HealthConfig.queue st → x ∈ HealthConfig.visited st)
  ∧ (∀ x y, x ∈ HealthConfig.visited st → x ∉ HealthConfig.queue st →
            requiredByEdge graph x y → y ∈ HealthConfig.visited st)
  ∧ NoDup (HealthConfig.impacted st)
  ∧ (∀ x, x ∈ HealthConfig.impacted st ↔
          x ∈ HealthConfig.visited st ∧ x ≠ start)
  ∧ HealthConfig.visited st ⊆ {[start]} ∪ targets graph.

(** The quantity that every turn of the loop decreases. *)
Definition bfsMeasure (graph : gmap string Graph.node) (start : string)
  (st : HealthConfig.bfs) : nat :=
  2 * (size ({[start]} ∪ targets graph) - size (HealthConfig.visited st))
  + length (HealthConfig.queue st).

(** The state of [getBlastRadius] that goes with a state of
    [getImpactedServices]: it counts what the other collects. *)
Definition counting (st : HealthConfig.bfs) : App.bfs :=
  App.mkBfs (HealthConfig.queue st) (HealthConfig.visited st)
            (length (HealthConfig.impacted st)).

(** Entries of the registry of [lib/health-config.js]. *)
Definition validator1 : HealthConfig.endpoint :=
  HealthConfig.mkEndpoint "validator-1" "Validator 1" "validators"
    (Some "prod") "http://165.227.118.77:26657" "cosmos-peer-check" 10000
    true (Some []) (Some []).

Definition dashboardApiProd : HealthConfig.endpoint :=
  HealthConfig.mkEndpoint "dashboard-api-prod" "Dashboard API" "apis"
    (Some "prod") "https://dashboard-apis.integralayer.com" "deep-health"
    10000 true (Some ["absinthe-api"]) (Some ["dashboard-prod"]).

Definition mainnetCosmosRpc : HealthConfig.endpoint :=
  HealthConfig.mkEndpoint "mainnet-cosmos-rpc" "Mainnet Cosmos RPC"
    "blockchain" (Some "prod") "https://rpc.integralayer.com" "cosmos-rpc"
    10000 true (Some []) (Some ["explorer-mainnet"]).

Definition mainnetCosmosRest : HealthConfig.endpoint :=
  HealthConfig.mkEndpoint "mainnet-cosmos-rest" "Mainnet REST/LCD"
    "blockchain" (Some "prod") "https://api.integralayer.com" "cosmos-rest"
    10000 true (Some []) (Some ["explorer-mainnet"]).

Definition mainnetEvmWs : HealthConfig.endpoint :=
  HealthConfig.mkEndpoint "mainnet-evm-ws" "Mainnet EVM WebSocket"
    "blockchain" (Some "prod") "wss://ws.integralayer.com" "websocket"
    10000 false (Some []) (Some []).

(** Surroundings in which every request and every probe fails with
    [err]. *)
Definition failing (err : JsError) : Health.Env :=
  let probe := λ _ : HealthConfig.endpoint, Thrown err in
  Health.mkEnv (λ _ _, Thrown err) (λ _ _, 0) (λ _, Thrown err)
    (λ _, None) (λ _, None)
    probe probe probe probe probe probe probe probe probe.

(** A body that has both the [/status] shape and the latest-block
    shape. *)
Definition nodeBody : jsval :=
  VObj [("result",
         VObj [("sync_info",
                VObj [("latest_block_height", VStr "4100200");
                      ("latest_block_time", VStr "2026-01-05T10:00:00Z");
                      ("catching_up", VBool false)])]);
        ("block",
         VObj [("header",
                VObj [("height", VStr "4100200");
                      ("time", VStr "2026-01-05T10:00:00Z");
                      ("chain_id", VStr "integra-1")])])].

(** Surroundings in which every node answers 200 with [nodeBody], the
    block time parses to [blockTime] and the clock reads [now]. *)
Definition answering (now blockTime : Z) : Health.Env :=
  let probe := λ _ : HealthConfig.endpoint, Thrown (Error "not used") in
  Health.mkEnv (λ _ _, Returned (Health.mkResponse 200 "{}"))
    (λ _ _, now) (λ _, Returned nodeBody)
    (λ _, None)
    (λ v, match v with VStr _ => Some blockTime | _ => None end)
    probe probe probe probe probe probe probe probe probe.

(** What the two Cosmos probes report when the latest block is [age]
    milliseconds old: the age in seconds, rounded, and a DEGRADED result
    with the chain-halt text when the age is over the threshold. *)
Definition aged (r : Health.checkResult) (age : Z) : Prop :=
  let sec := (age + 500) / 1000 in
  obj_get "blockAgeSec" (Health.details r) = Some (VNum (inject_Z sec))
  ∧ (HealthConfig.CHAIN_HALT_THRESHOLD_SECONDS * 1000 < age →
     Health.status r = "DEGRADED"
     ∧ Health.error r = Some ("Possible chain halt — last block "
                              +:+ pretty sec +:+ "s ago")).

(** Does the binary64 evaluation of the uptime give the double nearest to
    [n / 100], for [n] the integer nearest to [10000 * up / total]? *)
Definition uptimeAgrees (total up : nat) : bool :=
  PrimFloat.Leibniz.eqb (History.uptimeValue64 total up)
    (toFloat ((20000 * Z.of_nat up + Z.of_nat total) / (2 * Z.of_nat total))
     / 100)%float.

(** The entry that [recordSnapshot] writes for a result. *)
Definition entryOf (r : History.result) : History.epEntry :=
  History.mkEp (History.statusCode (History.status r))
               (History.msOrZero (History.responseTimeMs r)).

End Spec.

(** ** Vocabulary of the further properties *)

Module Terms.
Import Js.

(** Reached from [start] along at most [d] [requiredBy] edges. *)
Definition within (graph : gmap string Graph.node) (start : string)
  (d : nat) (x : string) : Prop :=
  bsteps (Spec.requiredByEdge graph) d start x.

(** The shortest chain of [requiredBy] edges from [start] to [x] has
    [d] edges. *)
Definition atDistance (graph : gmap string Graph.node) (start : string)
  (d : nat) (x : string) : Prop :=
  within graph start d x ∧ ∀ d', (d' < d)%nat → ¬ within graph start d' x.

(** What holds of the state of [buildCascadeTree] after [k] turns of its
    loop. *)
Definition cascadeInv (graph : gmap string Graph.node) (start : string)
  (k : nat) (st : Dashboard.cascade) : Prop :=
  (∀ x, x ∈ Dashboard.visited st ↔ within graph start k x)
  ∧ (∀ x, x ∈ Dashboard.currentLevel st → x ∈ Dashboard.visited st)
  ∧ (∀ x y, x ∈ Dashboard.visited st → x ∉ Dashboard.currentLevel st →
            Spec.requiredByEdge graph x y → y ∈ Dashboard.visited st)
  ∧ (∀ j l, Dashboard.levels st !! j = Some l →
            l ≠ []
            ∧ ∀ x, x ∈ l ↔
                   within graph start (S j) x ∧ ¬ within graph start j x)
  ∧ NoDup (concat (Dashboard.levels st))
  ∧ (∀ x, x ∈ Dashboard.visited st ↔
          x = start ∨ x ∈ concat (Dashboard.levels st))
  ∧ (start ∉ concat (Dashboard.levels st))
  ∧ Dashboard.visited st ⊆ {[start]} ∪ Spec.targets graph
  ∧ (Dashboard.currentLevel st ≠ [] → length (Dashboard.levels st) = k)
  ∧ (Dashboard.currentLevel st = [] →
     ∀ x, within graph start (S (length (Dashboard.levels st))) x →
          within graph start (length (Dashboard.levels st)) x).

(** The quantity that every turn of the loop of [buildCascadeTree]
    decreases. *)
Definition cascadeMeasure (graph : gmap string Graph.node) (start : string)
  (st : Dashboard.cascade) : nat :=
  (size ({[start]} ∪ Spec.targets graph) - size (Dashboard.visited st))
  + match Dashboard.currentLevel st with [] => 0 | _ :: _ => 1 end.

(** Snapshots in the order of their times, oldest first; the strict
    reading has no two snapshots of the same time. *)
Definition chronological (snaps : list History.snapshot) : Prop :=
  StronglySorted (λ a b, History.t a ≤ History.t b) snaps.

Definition strictlyChronological (snaps : list History.snapshot) : Prop :=
  StronglySorted (λ a b, History.t a < History.t b) snaps.

(** The point that a result leaves in its sparkline. *)
Definition pointOf (r : History.result) : Z :=
  if decide (History.status r = "UP" ∨ History.status r = "DEGRADED")
  then History.msOrZero (History.responseTimeMs r)
  else -1.

(** The status code of the latest observation among [obs], if any. *)
Definition lastCode (obs : list (Z * Z)) : option Z := snd <$> last obs.

(** What one more cycle adds to the incidents of the endpoint [id]: the
    transition from its latest earlier observation to the entry that
    the cycle records for it, if it records one. *)
Definition newIncident (id : string) (now : Z) (snaps : list History.snapshot)
  (results : list History.result) : list History.incident :=
  match obj_get id (History.encode results) with
  | Some e =>
      Spec.transition id (lastCode (Spec.observations id snaps))
        (History.s e) now
  | None => []
  end.

(** Does the endpoint pass the filters of [opts]?  A filter that is
    missing or the empty string selects everything. *)
Definition selected (opts : HealthConfig.filterOpts)
  (e : HealthConfig.endpoint) : Prop :=
  (HealthConfig.enabledOnly opts ≠ Some false → HealthConfig.enabled e = true)
  ∧ (∀ c, HealthConfig.optCategory opts = Some c → c ≠ "" →
          HealthConfig.category e = c)
  ∧ (∀ v, HealthConfig.optEnvironment opts = Some v → v ≠ "" →
          HealthConfig.environment e = Some v).

(** Is the id listed by a group other than 'external'? *)
Definition claimedBy (groups : list Groups.appGroup) (x : string) : Prop :=
  ∃ g, g ∈ groups ∧ Groups.id g ≠ "external" ∧ x ∈ Groups.endpoints g.

(** The ids of the external endpoints that no other group lists, in
    registry order. *)
Definition unclaimedExternal (ENDPOINTS : list HealthConfig.endpoint)
  (groups : list Groups.appGroup) : list string :=
  HealthConfig.id <$>
    filter (λ ep, HealthConfig.category ep = "external"
                  ∧ HealthConfig.id ep ∉ Groups.claimed groups) ENDPOINTS.

(** The sparklines that [computeGroupSparkline] combines: those of the
    endpoints of the group that exist and are not empty. *)
Definition memberSparkline (endpoints : list Health.checkResult)
  (sparklines : jsobj (list (option Z))) (s : list (option Z)) : Prop :=
  s ≠ [] ∧ ∃ ep, ep ∈ endpoints ∧ obj_get (Health.id ep) sparklines = Some s.

(** The value of [s] at the position that lines up with position [i] of
    a combined sparkline of [len] points, when the ends are aligned. *)
Definition aligned (len : nat) (s : list (option Z)) (i : nat) : option Z :=
  if decide (len - length s ≤ i)%nat
  then mjoin (s !! (i - (len - length s))%nat)
  else None.

(** The sum of a list of integers. *)
Definition total (l : list Z) : Z := foldr Z.add 0 l.

(** The URL of the first request of a probe. *)
Definition firstRequest (ep : HealthConfig.endpoint) : string :=
  if decide (HealthConfig.checkType ep = "cosmos-rpc")
  then HealthConfig.url ep +:+ "/status"
  else if decide (HealthConfig.checkType ep = "cosmos-rest")
       then HealthConfig.url ep
            +:+ "/cosmos/base/tendermint/v1beta1/blocks/latest"
       else HealthConfig.url ep.

(** The status codes that a probe takes for a failure. *)
Definition rejected (checkType : string) (code : Z) : Prop :=
  if decide (checkType = "http-reachable") then 500 ≤ code
  else if decide (checkType = "cosmos-rpc" ∨ checkType = "cosmos-rest")
       then code ≠ 200
       else code < 200 ∨ 400 ≤ code.

(** The check types whose probes are modelled, and the ones the table
    does not have. *)
Definition modelled (checkType : string) : Prop :=
  checkType ∉ ["evm-rpc"; "http-json"; "websocket"; "deep-health";
               "graphql"; "cosmos-peer-check"].

(** The latest block, whose time is the value [time], is older than the
    halt threshold when the probe of [ep] looks at the clock. *)
Definition halted (E : Health.Env) (ep : HealthConfig.endpoint)
  (time : jsval) : Prop :=
  ∃ blockTime, Health.Date_getTime E time = Some blockTime
    ∧ HealthConfig.CHAIN_HALT_THRESHOLD_SECONDS * 1000
      < Health.Date_now E (HealthConfig.id ep) Health.AtBlockAge - blockTime.

(** The time between the two clock readings of a probe. *)
Definition measured (E : Health.Env) (ep : HealthConfig.endpoint) : Z :=
  Health.Date_now E (HealthConfig.id ep) Health.AtResult
  - Health.Date_now E (HealthConfig.id ep) Health.AtStart.

(** Surroundings in which every request is answered with status [code]
    and body [body], which parses to [data]. *)
Definition replying (code : Z) (body : string) (data : jsval) : Health.Env :=
  let probe := λ _ : HealthConfig.endpoint, Thrown (Error "not used") in
  Health.mkEnv (λ _ _, Returned (Health.mkResponse code body))
    (λ _ site, match site with Health.AtStart => 1000 | _ => 1042 end)
    (λ _, Returned data) (λ _, None) (λ _, None)
    probe probe probe probe probe probe probe probe probe.

(** Entries of the registry of [lib/health-config.js]. *)
Definition passportApi : HealthConfig.endpoint :=
  HealthConfig.mkEndpoint "passport-api" "Passport API" "apis" (Some "prod")
    "https://passport-apis.integralayer.com/health/database" "api-health"
    10000 false (Some ["web3auth"; "google-oauth"]) (Some []).

Definition portal : HealthConfig.endpoint :=
  HealthConfig.mkEndpoint "portal" "XP Portal" "frontends" (Some "prod")
    "https://portal.integralayer.com" "http-get" 10000 true
    (Some ["absinthe-api"]) (Some []).

Definition web3auth : HealthConfig.endpoint :=
  HealthConfig.mkEndpoint "web3auth" "Web3Auth" "external" (Some "prod")
    "https://lookup.web3auth.io" "http-reachable" 10000 true (Some [])
    (Some ["passport-api"]).

(** The three shapes of a result: UP without an error text, DEGRADED
    with one, or DOWN with no measurement. *)
Definition wellFormed (r : Health.checkResult) : Prop :=
  Health.status r = "UP" ∧ Health.error r = None
  ∨ Health.status r = "DEGRADED" ∧ is_Some (Health.error r)
  ∨ Health.status r = "DOWN" ∧ Health.responseTimeMs r = 0
    ∧ Health.details r = [].

(** The list that [getImpactedServices] returns for [k] on [graph]. *)
Definition impactedOf (graph : gmap string Graph.node) (k : string)
  : list string :=
  default []
    (HealthConfig.impacted
     <$> while (HealthConfig.bfsStep graph) (Spec.enoughFuel graph)
           (HealthConfig.mkBfs [k] {[k]} [])).

(** Is the result one for which the handler lists impacted services? *)
Definition failing (r : Health.checkResult) : Prop :=
  Health.status r = "DOWN" ∨ Health.status r = "DEGRADED".

(** What one turn of the loop that builds the impact map does, when the
    traversal finishes. *)
Definition impactAdd (ENDPOINTS : list HealthConfig.endpoint)
  (graph : gmap string Graph.node)
  (impactMap : jsobj (list Api.impactEntry)) (r : Health.checkResult)
  : jsobj (list Api.impactEntry) :=
  if decide (failing r ∧ impactedOf graph (Health.id r) ≠ [])
  then obj_set (Health.id r)
         (Api.named ENDPOINTS <$> impactedOf graph (Health.id r)) impactMap
  else impactMap.

(** The registry of the example: a node, the explorer in front of it,
    and a disabled endpoint. *)
Definition explorerMainnet : HealthConfig.endpoint :=
  HealthConfig.mkEndpoint "explorer-mainnet" "Explorer (Mainnet)" "frontends"
    (Some "prod") "https://explorer.integralayer.com" "http-get" 10000 true
    (Some ["mainnet-cosmos-rpc"; "mainnet-cosmos-rest"]) (Some []).

(** Every status code of the snapshots is one that [recordSnapshot]
    writes. *)
Definition wellCoded (snaps : list History.snapshot) : Prop :=
  ∀ snap k e, snap ∈ snaps → obj_get k (History.ep snap) = Some e →
              History.s e ∈ [0; 1; 2].

(** What the registry declares: a failure of [a] affects [b] when [b]
    lists [a] among its [dependsOn], or [a] lists [b] among its
    [impacts]. *)
Definition affects (ENDPOINTS : list HealthConfig.endpoint) (a b : string)
  : Prop :=
  (∃ ep, ep ∈ ENDPOINTS ∧ HealthConfig.id ep = b
         ∧ a ∈ default [] (HealthConfig.dependsOn ep))
  ∨ (∃ ep, ep ∈ ENDPOINTS ∧ HealthConfig.id ep = a
           ∧ b ∈ default [] (HealthConfig.impacts ep)).

(** A number of loop turns that is enough for a traversal of the graph
    of a registry: twice the number of declared relations, and one. *)
Definition registryFuel (ENDPOINTS : list HealthConfig.endpoint) : nat :=
  2 * (length (Spec.depPairs ENDPOINTS) + length (Spec.impPairs ENDPOINTS)) + 1.

End Terms.

(* ===================================================================== *)
(** * Part III: properties                                                *)
(* ===================================================================== *)

(** ** Insertion-ordered objects *)

Section JsObj.
Import Js.
Context {V : Type}.
Implicit Types (o : jsobj V) (k : string) (v : V).

Lemma obj_get_set_eq k v o : obj_get k (obj_set k v o) = Some v.
Proof.
  induction o as [|[k' v'] o IH]; simpl.
  - by rewrite decide_True.
  - destruct (decide (k' = k)) as [->|Hne]; simpl.
    + by rewrite decide_True.
    + by rewrite decide_False.
Qed.

Lemma obj_get_set_ne k k' v o :
  k ≠ k' → obj_get k' (obj_set k v o) = obj_get k' o.
Proof.
  intros Hne. induction o as [|[k0 v0] o IH]; simpl.
  - by rewrite decide_False.
  - destruct (decide (k0 = k)) as [->|Hne0]; simpl.
    + by rewrite !decide_False.
    + destruct (decide (k0 = k')); [done | apply IH].
Qed.

Lemma obj_keys_cons k v o : obj_keys ((k, v) :: o) = k :: obj_keys o.
Proof. done. Qed.

Lemma obj_get_None k o : obj_get k o = None ↔ k ∉ obj_keys o.
Proof.
  induction o as [|[k' v'] o IH]; cbn [obj_get].
  - split; [intros _; apply not_elem_of_nil | done].
  - rewrite obj_keys_cons, not_elem_of_cons.
    destruct (decide (k' = k)) as [->|Hne].
    + split; [done | intros [? _]; done].
    + rewrite IH. naive_solver.
Qed.

Lemma obj_get_is_Some k o : is_Some (obj_get k o) ↔ k ∈ obj_keys o.
Proof.
  rewrite <- not_eq_None_Some, obj_get_None.
  destruct (decide (k ∈ obj_keys o)); naive_solver.
Qed.

Lemma obj_keys_set k v o :
  obj_keys (obj_set k v o) =
  if decide (k ∈ obj_keys o) then obj_keys o else obj_keys o ++ [k].
Proof.
  induction o as [|[k' v'] o IH]; cbn [obj_set].
  - done.
  - rewrite obj_keys_cons.
    destruct (decide (k' = k)) as [->|Hne].
    + rewrite decide_True; [done | left].
    + rewrite obj_keys_cons, IH.
      destruct (decide (k ∈ obj_keys o)) as [Hin|Hnin].
      * rewrite decide_True; [done | by right].
      * rewrite decide_False; [done |].
        rewrite not_elem_of_cons. naive_solver.
Qed.

Lemma obj_keys_set_elem k k' v o :
  k' ∈ obj_keys (obj_set k v o) ↔ k' = k ∨ k' ∈ obj_keys o.
Proof.
  rewrite obj_keys_set. destruct (decide (k ∈ obj_keys o)).
  - naive_solver.
  - rewrite elem_of_app, list_elem_of_singleton. naive_solver.
Qed.

Lemma obj_keys_set_NoDup k v o :
  NoDup (obj_keys o) → NoDup (obj_keys (obj_set k v o)).
Proof.
  intros Hnd. rewrite obj_keys_set. destruct (decide (k ∈ obj_keys o)).
  - done.
  - apply NoDup_app. split; [done |]. split.
    + intros x Hx Hx'. apply list_elem_of_singleton in Hx'. by subst.
    + apply NoDup_singleton.
Qed.

(** An object filled by one assignment per key of a list. *)
Lemma obj_get_fill (f : string → V) (ids : list string) k o :
  obj_get k (foldl (λ acc id, obj_set id (f id) acc) o ids) =
  if decide (k ∈ ids) then Some (f k) else obj_get k o.
Proof.
  revert o. induction ids as [|i ids IH]; intros o; simpl.
  - done.
  - rewrite IH. destruct (decide (k ∈ ids)) as [Hin|Hnin].
    + rewrite decide_True; [done | by right].
    + destruct (decide (i = k)) as [->|Hne].
      * rewrite decide_True; [| left]. apply obj_get_set_eq.
      * rewrite decide_False.
        -- by apply obj_get_set_ne.
        -- rewrite not_elem_of_cons. naive_solver.
Qed.
End JsObj.

Lemma foldl_fun_ext {A B} (f g : A → B → A) (l : list B) (a : A) :
  (∀ a b, f a b = g a b) → foldl f a l = foldl g a l.
Proof.
  intros Hfg. revert a. induction l as [|b l IH]; intros a; simpl; [done |].
  by rewrite Hfg, IH.
Qed.

Lemma foldl_snoc_map {A B} (f : A → B) (l : list A) (acc : list B) :
  foldl (λ points a, points ++ [f a]) acc l = acc ++ (f <$> l).
Proof.
  revert acc. induction l as [|a l IH]; intros acc; simpl.
  - by rewrite app_nil_r.
  - by rewrite IH, <- app_assoc.
Qed.

(** ** The ring buffer of [recordSnapshot] *)

Section RingBuffer.
Import History.

Lemma recordSnapshot_snapshots now h results :
  snapshots (recordSnapshot now h results) =
  slice_last MAX_SNAPSHOTS
    (snapshots h ++ [mkSnapshot now (encode results)]).
Proof.
  unfold recordSnapshot. simpl. case_decide; simpl; [done |].
  unfold slice_last.
  replace (length (snapshots h ++ [mkSnapshot now (encode results)])
           - MAX_SNAPSHOTS)%nat with 0%nat by lia.
  done.
Qed.

Lemma slice_last_length {A} (n : nat) (l : list A) :
  length (slice_last n l) = (length l `min` n)%nat.
Proof. unfold slice_last. rewrite length_drop. lia. Qed.

Lemma slice_last_app {A} (n : nat) (l1 l2 : list A) :
  slice_last n (slice_last n l1 ++ l2) = slice_last n (l1 ++ l2).
Proof.
  unfold slice_last. rewrite !length_app, length_drop, !drop_app.
  rewrite drop_drop, length_drop. f_equal; f_equal; lia.
Qed.

Lemma slice_last_short {A} (n : nat) (l : list A) :
  (length l ≤ n)%nat → slice_last n l = l.
Proof.
  intros Hle. unfold slice_last.
  by replace (length l - n)%nat with 0%nat by lia.
Qed.

Lemma appendAll_snapshots h cycles :
  (length (snapshots h) ≤ MAX_SNAPSHOTS)%nat →
  snapshots (Spec.appendAll h cycles) =
  slice_last MAX_SNAPSHOTS (snapshots h ++ (Spec.snapshotOf <$> cycles)).
Proof.
  revert h. induction cycles as [|c cycles IH]; intros h Hle; simpl.
  - by rewrite app_nil_r, slice_last_short.
  - rewrite IH.
    + rewrite recordSnapshot_snapshots, slice_last_app, <- app_assoc. done.
    + rewrite recordSnapshot_snapshots, slice_last_length. lia.
Qed.
End RingBuffer.

Section Encoding.
Import Js History.

Lemma encode_snoc results r :
  encode (results ++ [r]) = obj_set (id r) (Spec.entryOf r) (encode results).
Proof. unfold encode. by rewrite foldl_app. Qed.

Lemma encode_keys_NoDup results : NoDup (obj_keys (encode results)).
Proof.
  induction results as [|r results IH] using rev_ind.
  - apply NoDup_nil_2.
  - rewrite encode_snoc. by apply obj_keys_set_NoDup.
Qed.

Lemma encode_keys results k :
  k ∈ obj_keys (encode results) ↔ ∃ r, r ∈ results ∧ id r = k.
Proof.
  induction results as [|r results IH] using rev_ind.
  - split; [intros Hin; by apply elem_of_nil in Hin |].
    intros (r & Hin & _). by apply elem_of_nil in Hin.
  - rewrite encode_snoc, obj_keys_set_elem, IH. split.
    + intros [->|(r' & Hin & Hid)].
      * exists r. split; [| done]. apply elem_of_app. right. left.
      * exists r'. split; [| done]. apply elem_of_app. by left.
    + intros (r' & Hin & Hid). apply elem_of_app in Hin as [Hin|Hin].
      * right. by exists r'.
      * apply list_elem_of_singleton in Hin. subst. by left.
Qed.

Lemma encode_get results k :
  obj_get k (encode results) =
  Spec.entryOf <$> last (filter (λ r, id r = k) results).
Proof.
  induction results as [|r results IH] using rev_ind; [done |].
  rewrite encode_snoc, filter_app.
  destruct (decide (id r = k)) as [Heq|Hne].
  - rewrite (filter_cons_True _ r []) by done. rewrite filter_nil.
    rewrite last_snoc. subst k. apply obj_get_set_eq.
  - rewrite (filter_cons_False _ r []) by done. rewrite filter_nil.
    rewrite app_nil_r, obj_get_set_ne by done. apply IH.
Qed.

Lemma recordSnapshot_last now h results :
  last (snapshots (recordSnapshot now h results)) =
  Some (mkSnapshot now (encode results)).
Proof.
  rewrite recordSnapshot_snapshots. unfold slice_last.
  rewrite length_app. simpl. rewrite drop_app_le.
  - apply last_snoc.
  - unfold MAX_SNAPSHOTS. lia.
Qed.
End Encoding.

(** C3. With at most [MAX_SNAPSHOTS] snapshots stored, [recordSnapshot]
    puts the new snapshot last and keeps the longest suffix that fits the
    capacity: the stored sequence is the old one plus the new snapshot,
    with the oldest entries dropped from the front, and it never has more
    than 120 entries.  Appending 121 cycles keeps the last 120 of them,
    so the earliest one kept is the second one appended. *)
Theorem recordSnapshot_ring_buffer (now : Z) (h : History.history)
    (results : list History.result) :
  (length (History.snapshots h) ≤ History.MAX_SNAPSHOTS)%nat →
  let new := History.mkSnapshot now (History.encode results) in
  let stored := History.snapshots (History.recordSnapshot now h results) in
  stored = drop (length (History.snapshots h) + 1 - 120) (History.snapshots h ++ [new])
  ∧ last stored = Some new
  ∧ length stored = (S (length (History.snapshots h)) `min` 120)%nat
  ∧ (length stored ≤ 120)%nat
  ∧ (length (History.snapshots h) = 120%nat →
     stored = drop 1 (History.snapshots h) ++ [new])
  ∧ ∀ cycles : list (Z * list History.result),
      length cycles = 121%nat →
      let kept := History.snapshots (Spec.appendAll h cycles) in
      length kept = 120%nat
      ∧ kept = Spec.snapshotOf <$> drop 1 cycles
      ∧ head kept = Spec.snapshotOf <$> cycles !! 1%nat.
Proof.
  intros Hle new stored.
  assert (Hstored : stored = drop (length (History.snapshots h) + 1 - 120)
                               (History.snapshots h ++ [new])).
  { unfold stored. rewrite recordSnapshot_snapshots.
    unfold History.slice_last. by rewrite length_app. }
  split; [done |]. split; [apply recordSnapshot_last |].
  assert (Hlen : length stored = (S (length (History.snapshots h)) `min` 120)%nat).
  { unfold stored. rewrite recordSnapshot_snapshots, slice_last_length.
    rewrite length_app. simpl. unfold History.MAX_SNAPSHOTS. lia. }
  split; [done |]. split; [lia |]. split.
  - intros Hfull. rewrite Hstored, Hfull. simpl.
    rewrite drop_app_le by lia. done.
  - intros cycles Hcycles kept.
    assert (Hkept : kept = Spec.snapshotOf <$> drop 1 cycles).
    { unfold kept. rewrite appendAll_snapshots by done.
      unfold History.slice_last, History.MAX_SNAPSHOTS.
      rewrite length_app, length_fmap, Hcycles, drop_app, fmap_drop.
      rewrite drop_ge by lia. simpl. f_equal. lia. }
    split; [| split; [done |]].
    + rewrite Hkept, length_fmap, length_drop. lia.
    + rewrite Hkept, head_lookup, list_lookup_fmap, lookup_drop. done.
Qed.

Lemma recordSnapshot_ring_buffer_witness :
  let h := History.mkHistory (replicate 120 (History.mkSnapshot 7 [])) in
  (length (History.snapshots h) ≤ History.MAX_SNAPSHOTS)%nat
  ∧ length (History.snapshots (History.recordSnapshot 9 h [])) = 120%nat.
Proof.
  intros h. assert (Hle : (length (History.snapshots h) ≤ History.MAX_SNAPSHOTS)%nat).
  { vm_compute. lia. }
  split; [exact Hle |].
  rewrite (proj1 (proj2 (proj2 (recordSnapshot_ring_buffer 9 h [] Hle)))).
  reflexivity.
Defined.


(** ** Sparklines and uptimes *)

Section Derived.
Import Js History.

Lemma getSparklines_get h latest id :
  last (snapshots h) = Some latest →
  obj_get id (getSparklines h) =
  if decide (id ∈ obj_keys (ep latest))
  then Some (point id <$> snapshots h) else None.
Proof.
  intros Hlast. unfold getSparklines. rewrite Hlast.
  rewrite (foldl_fun_ext _
             (λ acc i, obj_set i (point i <$> snapshots h) acc)).
  - by rewrite obj_get_fill.
  - intros acc i. by rewrite foldl_snoc_map.
Qed.

Lemma tally_from id snaps total up :
  foldl (λ '(total, up) snap,
           match obj_get id (ep snap) with
           | Some e => (S total, if decide (s e = 1) then S up else up)
           | None => (total, up)
           end) (total, up) snaps =
  ((total + Spec.countPresent id snaps)%nat,
   (up + Spec.countUp id snaps)%nat).
Proof.
  revert total up.
  unfold Spec.countPresent, Spec.countUp, Spec.present, Spec.isUp.
  induction snaps as [|snap snaps IH]; intros total up; simpl.
  - f_equal; lia.
  - rewrite !filter_cons.
    destruct (obj_get id (ep snap)) as [e|] eqn:Hget; rewrite IH.
    + destruct (decide (s e = 1)) as [Hup|Hup].
      * rewrite bool_decide_true by done. simpl. f_equal; lia.
      * rewrite bool_decide_false by done. simpl. f_equal; lia.
    + done.
Qed.

Lemma tally_counts id snaps :
  tally id snaps = (Spec.countPresent id snaps, Spec.countUp id snaps).
Proof. unfold tally. by rewrite tally_from. Qed.

Lemma getUptimes_get h latest id :
  last (snapshots h) = Some latest →
  obj_get id (getUptimes h) =
  if decide (id ∈ obj_keys (ep latest))
  then Some (uptimeValue (Spec.countPresent id (snapshots h))
                         (Spec.countUp id (snapshots h)))
  else None.
Proof.
  intros Hlast. unfold getUptimes. rewrite Hlast.
  rewrite (foldl_fun_ext _
             (λ acc i, obj_set i
                (uptimeValue (Spec.countPresent i (snapshots h))
                             (Spec.countUp i (snapshots h))) acc)).
  - by rewrite obj_get_fill.
  - intros acc i. by rewrite tally_counts.
Qed.

Lemma countUp_le id snaps :
  (Spec.countUp id snaps ≤ Spec.countPresent id snaps)%nat.
Proof.
  unfold Spec.countUp, Spec.countPresent, Spec.present, Spec.isUp.
  induction snaps as [|snap snaps IH]; simpl; [lia |].
  rewrite !filter_cons.
  destruct (obj_get id (ep snap)) as [e|] eqn:Hget.
  - destruct (decide (s e = 1)) as [Hup|Hup].
    + rewrite bool_decide_true by done. simpl. lia.
    + rewrite bool_decide_false by done. simpl. lia.
  - done.
Qed.

Lemma countPresent_last id snaps latest :
  last snaps = Some latest → id ∈ obj_keys (ep latest) →
  (0 < Spec.countPresent id snaps)%nat.
Proof.
  intros Hlast Hin. apply last_Some in Hlast as [snaps' ->].
  unfold Spec.countPresent. rewrite filter_app, length_app.
  rewrite (filter_cons_True _ latest []); [simpl; lia |].
  unfold Spec.present. apply obj_get_is_Some in Hin as [e ->]. done.
Qed.

(** [Math.round] of a quotient of integers, in integer arithmetic. *)
Lemma Math_round_quotient (a : Z) (b : positive) (c : Z) :
  Math_round (inject_Z a / inject_Z (Z.pos b) * inject_Z c) =
  (2 * a * c + Z.pos b) / (2 * Z.pos b).
Proof.
  unfold Math_round, Qfloor, Qdiv, Qmult, Qplus, Qinv, inject_Z. simpl.
  f_equal; lia.
Qed.

Lemma uptimeValue_pos total up :
  (0 < total)%nat →
  uptimeValue total up =
  (inject_Z ((20000 * Z.of_nat up + Z.of_nat total) / (2 * Z.of_nat total))
   / 100)%Q.
Proof.
  intros Hpos. unfold uptimeValue. rewrite decide_True by done.
  destruct total as [|n]; [lia |].
  replace (Z.of_nat (S n)) with (Z.pos (Pos.of_succ_nat n)) by lia.
  change 10000%Q with (inject_Z 10000).
  rewrite Math_round_quotient. do 3 f_equal. lia.
Qed.
End Derived.



(** Binary64 and exact arithmetic give the same uptime for every count
    that a store within its capacity can hold. *)
Lemma uptimeValue64_agrees (total up : nat) :
  (0 < total ≤ History.MAX_SNAPSHOTS)%nat → (up ≤ total)%nat →
  Spec.uptimeAgrees total up = true.
Proof.
  intros Htotal Hup.
  assert (Hall : forallb (λ total,
                    forallb (Spec.uptimeAgrees total) (seq 0 (S total)))
                   (seq 1 History.MAX_SNAPSHOTS) = true)
    by (vm_compute; reflexivity).
  rewrite forallb_forall in Hall.
  specialize (Hall total). rewrite forallb_forall in Hall.
  apply Hall; apply in_seq; lia.
Qed.



(** ** Incidents *)

Section Incidents.
Import Js History.

Lemma insertByAt_perm x l : insertByAt x l ≡ₚ x :: l.
Proof.
  induction l as [|y l IH]; simpl; [done |].
  case_decide; [| done]. rewrite IH. apply Permutation_swap.
Qed.

Lemma sortNewestFirst_perm l : sortNewestFirst l ≡ₚ l.
Proof.
  induction l as [|x l IH]; simpl; [done |].
  by rewrite insertByAt_perm, IH.
Qed.

Lemma insertByAt_sorted x l :
  StronglySorted Spec.newerFirst l →
  StronglySorted Spec.newerFirst (insertByAt x l).
Proof.
  induction 1 as [|y l Hsorted IH Hall]; simpl.
  - repeat constructor.
  - case_decide as Hlt.
    + constructor; [done |].
      rewrite insertByAt_perm. constructor; [| done].
      unfold Spec.newerFirst. lia.
    + constructor; [by constructor |].
      constructor; [unfold Spec.newerFirst; lia |].
      eapply Forall_impl; [exact Hall |].
      unfold Spec.newerFirst. intros z Hz. lia.
Qed.

Lemma sortNewestFirst_sorted l :
  StronglySorted Spec.newerFirst (sortNewestFirst l).
Proof.
  induction l as [|x l IH]; simpl; [constructor |].
  by apply insertByAt_sorted.
Qed.

Lemma about_app id l1 l2 : Spec.about id (l1 ++ l2) = Spec.about id l1 ++ Spec.about id l2.
Proof. apply filter_app. Qed.

Lemma about_transition id k prev curr at' :
  Spec.about id (Spec.transition k prev curr at') =
  if decide (k = id) then Spec.transition k prev curr at' else [].
Proof.
  unfold Spec.about, Spec.transition.
  destruct prev as [p|]; [| by case_decide].
  destruct (decide (p ≠ curr)); [| by case_decide].
  destruct (decide (k = id)) as [->|Hne].
  - by rewrite filter_cons_True.
  - by rewrite filter_cons_False.
Qed.

Lemma scanKey_unfold snap cs incs k :
  scanKey snap (cs, incs) k =
  match obj_get k (ep snap) with
  | None => (cs, incs)
  | Some e =>
      (<[k := s e]> cs, incs ++ Spec.transition k (cs !! k) (s e) (t snap))
  end.
Proof.
  unfold scanKey, Spec.transition.
  destruct (obj_get k (ep snap)) as [e|]; [| done].
  destruct (cs !! k) as [p|]; [| by rewrite app_nil_r].
  case_decide; [done | by rewrite app_nil_r].
Qed.

(** The effect of the keys [ks] of one snapshot on one endpoint. *)
Lemma scanKeys_about snap id ks cs incs :
  let st := foldl (scanKey snap) (cs, incs) ks in
  match obj_get id (ep snap) with
  | Some e =>
      if decide (id ∈ ks)
      then st.1 !! id = Some (s e)
           ∧ Spec.about id st.2 =
             Spec.about id incs ++ Spec.transition id (cs !! id) (s e) (t snap)
      else st.1 !! id = cs !! id ∧ Spec.about id st.2 = Spec.about id incs
  | None => st.1 !! id = cs !! id ∧ Spec.about id st.2 = Spec.about id incs
  end.
Proof.
  revert cs incs. induction ks as [|k ks IH]; intros cs incs.
  - simpl. destruct (obj_get id (ep snap)); done.
  - cbn [foldl]. rewrite scanKey_unfold.
    destruct (decide (k = id)) as [->|Hne].
    + destruct (obj_get id (ep snap)) as [e|] eqn:Hget.
      * specialize (IH (<[id := s e]> cs)
                       (incs ++ Spec.transition id (cs !! id) (s e) (t snap))).
        simpl in IH.
        rewrite decide_True by left.
        rewrite lookup_insert_eq in IH.
        rewrite about_app, about_transition in IH.
        rewrite (decide_True (P := id = id)) in IH by done.
        destruct (decide (id ∈ ks)); [| done].
        destruct IH as [IH1 IH2]. split; [done |].
        rewrite IH2. unfold Spec.transition at 2.
        rewrite decide_False by (intros H; by apply H).
        by rewrite app_nil_r.
      * by specialize (IH cs incs).
    + destruct (obj_get k (ep snap)) as [e'|] eqn:Hget'.
      * specialize (IH (<[k := s e']> cs)
                       (incs ++ Spec.transition k (cs !! k) (s e') (t snap))).
        simpl in IH. rewrite lookup_insert_ne in IH by done.
        rewrite about_app, about_transition in IH.
        rewrite (decide_False (P := k = id)), app_nil_r in IH by done.
        destruct (obj_get id (ep snap)) as [e|]; [| done].
        destruct (decide (id ∈ ks)) as [Hin|Hnin].
        -- rewrite decide_True by (by right). done.
        -- rewrite decide_False; [done |].
           rewrite not_elem_of_cons. naive_solver.
      * specialize (IH cs incs). simpl in IH.
        destruct (obj_get id (ep snap)) as [e|]; [| done].
        destruct (decide (id ∈ ks)) as [Hin|Hnin].
        -- rewrite decide_True by (by right). done.
        -- rewrite decide_False; [done |].
           rewrite not_elem_of_cons. naive_solver.
Qed.

Lemma scanSnapshot_about snap id cs incs :
  let st := scanSnapshot (cs, incs) snap in
  match obj_get id (ep snap) with
  | Some e =>
      st.1 !! id = Some (s e)
      ∧ Spec.about id st.2 =
        Spec.about id incs ++ Spec.transition id (cs !! id) (s e) (t snap)
  | None => st.1 !! id = cs !! id ∧ Spec.about id st.2 = Spec.about id incs
  end.
Proof.
  pose proof (scanKeys_about snap id (obj_keys (ep snap)) cs incs) as H.
  simpl in *. unfold scanSnapshot.
  destruct (obj_get id (ep snap)) as [e|] eqn:Hget; [| done].
  rewrite decide_True in H; [done |].
  apply obj_get_is_Some. by rewrite Hget.
Qed.

Lemma observations_cons id snap snaps :
  Spec.observations id (snap :: snaps) =
  match obj_get id (ep snap) with
  | Some e => (t snap, s e) :: Spec.observations id snaps
  | None => Spec.observations id snaps
  end.
Proof.
  unfold Spec.observations. simpl. by destruct (obj_get id (ep snap)).
Qed.

Lemma scan_about id snaps cs incs :
  Spec.about id (foldl scanSnapshot (cs, incs) snaps).2 =
  Spec.about id incs ++
  Spec.transitions id (cs !! id) (Spec.observations id snaps).
Proof.
  revert cs incs. induction snaps as [|snap snaps IH]; intros cs incs.
  - simpl. by rewrite app_nil_r.
  - cbn [foldl]. pose proof (scanSnapshot_about snap id cs incs) as H.
    destruct (scanSnapshot (cs, incs) snap) as [cs' incs'] eqn:Hst.
    rewrite IH, observations_cons.
    destruct (obj_get id (ep snap)) as [e|]; simpl in *.
    + destruct H as [-> ->]. by rewrite <- app_assoc.
    + destruct H as [-> ->]. done.
Qed.

Lemma seed_lookup first id :
  seed first !! id = s <$> obj_get id (ep first).
Proof.
  unfold seed.
  assert (Hgen : ∀ (ks : list string) (cs : gmap string Z),
    foldl (λ currentStatus i,
             match obj_get i (ep first) with
             | Some e => <[i := s e]> currentStatus
             | None => currentStatus
             end) cs ks !! id =
    if decide (id ∈ ks)
    then match obj_get id (ep first) with
         | Some e => Some (s e)
         | None => cs !! id
         end
    else cs !! id).
  { induction ks as [|k ks IH]; intros cs; [done |]. cbn [foldl].
    rewrite IH. destruct (decide (k = id)) as [->|Hne].
    - rewrite (decide_True (P := id ∈ id :: ks)) by left.
      destruct (obj_get id (ep first)) as [e|].
      + rewrite lookup_insert_eq. by case_decide.
      + by case_decide.
    - destruct (decide (id ∈ ks)) as [Hin|Hnin].
      + rewrite decide_True by (by right).
        destruct (obj_get id (ep first)); [done |].
        destruct (obj_get k (ep first)); [| done].
        by rewrite lookup_insert_ne.
      + rewrite decide_False by (rewrite not_elem_of_cons; naive_solver).
        destruct (obj_get k (ep first)); [| done].
        by rewrite lookup_insert_ne. }
  rewrite Hgen, lookup_empty.
  destruct (obj_get id (ep first)) as [e|] eqn:Hget; simpl.
  - rewrite decide_True; [done |]. apply obj_get_is_Some. by rewrite Hget.
  - by case_decide.
Qed.

Lemma getIncidents_about h id :
  Spec.about id (getIncidents h) ≡ₚ Spec.expectedIncidents id (snapshots h).
Proof.
  unfold getIncidents, Spec.expectedIncidents.
  destruct (snapshots h) as [|first [|second rest]].
  - done.
  - rewrite observations_cons.
    destruct (obj_get id (ep first)); done.
  - assert (Hperm : Spec.about id (sortNewestFirst
               (foldl scanSnapshot (seed first, []) (second :: rest)).2)
             ≡ₚ Spec.about id (foldl scanSnapshot (seed first, [])
                            (second :: rest)).2).
    { unfold Spec.about. by rewrite sortNewestFirst_perm. }
    rewrite Hperm, scan_about, seed_lookup.
    rewrite (observations_cons id first).
    destruct (obj_get id (ep first)) as [e|]; simpl; [done |].
    destruct (Spec.observations id (second :: rest)) as [|[a c] obs]; done.
Qed.
End Incidents.



(** ** The dependency graph *)

Section GraphBuild.
Import Js HealthConfig.
Implicit Types (g : gmap string Graph.node) (i x a : string).

Lemma depsOf_insert g i n a :
  Spec.depsOf (<[i := n]> g) a =
  if decide (a = i) then Graph.dependsOn n else Spec.depsOf g a.
Proof.
  unfold Spec.depsOf. destruct (decide (a = i)) as [->|Hne].
  - by rewrite lookup_insert_eq.
  - by rewrite lookup_insert_ne.
Qed.

Lemma reqsOf_insert g i n a :
  Spec.reqsOf (<[i := n]> g) a =
  if decide (a = i) then Graph.requiredBy n else Spec.reqsOf g a.
Proof.
  unfold Spec.reqsOf. destruct (decide (a = i)) as [->|Hne].
  - by rewrite lookup_insert_eq.
  - by rewrite lookup_insert_ne.
Qed.

Lemma depsOf_ensure g i a : Spec.depsOf (ensure i g) a = Spec.depsOf g a.
Proof.
  unfold ensure. destruct (g !! i) eqn:Hi; [done |].
  rewrite depsOf_insert. case_decide; [subst | done].
  unfold Spec.depsOf. by rewrite Hi.
Qed.

Lemma reqsOf_ensure g i a : Spec.reqsOf (ensure i g) a = Spec.reqsOf g a.
Proof.
  unfold ensure. destruct (g !! i) eqn:Hi; [done |].
  rewrite reqsOf_insert. case_decide; [subst | done].
  unfold Spec.reqsOf. by rewrite Hi.
Qed.

Lemma dom_ensure g i : dom (ensure i g) = {[i]} ∪ dom g.
Proof.
  unfold ensure. destruct (g !! i) eqn:Hi.
  - assert (i ∈ dom g) by (apply elem_of_dom; eauto). set_solver.
  - by rewrite dom_insert_L.
Qed.

Lemma ensure_is_Some g i : is_Some (ensure i g !! i).
Proof.
  unfold ensure. destruct (g !! i) eqn:Hi; [by rewrite Hi |].
  rewrite lookup_insert_eq. eauto.
Qed.

Lemma dom_insert_present g i n :
  is_Some (g !! i) → dom (<[i := n]> g) = dom g.
Proof.
  intros Hi. apply elem_of_dom in Hi. rewrite dom_insert_L. set_solver.
Qed.

Lemma pushDependsOn_spec g i x :
  is_Some (g !! i) →
  ∃ g', pushDependsOn i x g = Returned g'
    ∧ dom g' = dom g
    ∧ (∀ a, Spec.depsOf g' a =
            Spec.depsOf g a ++ if decide (a = i) then [x] else [])
    ∧ (∀ a, Spec.reqsOf g' a = Spec.reqsOf g a).
Proof.
  intros [n Hn]. unfold pushDependsOn. rewrite Hn. eexists.
  split; [done |]. split; [apply dom_insert_present; eauto |]. split.
  - intros a. rewrite depsOf_insert. case_decide; simpl.
    + subst. unfold Spec.depsOf. by rewrite Hn.
    + by rewrite app_nil_r.
  - intros a. rewrite reqsOf_insert. case_decide; simpl; [| done].
    subst. unfold Spec.reqsOf. by rewrite Hn.
Qed.

Lemma pushRequiredBy_spec g i x :
  is_Some (g !! i) →
  ∃ g', pushRequiredBy i x g = Returned g'
    ∧ dom g' = dom g
    ∧ (∀ a, Spec.depsOf g' a = Spec.depsOf g a)
    ∧ (∀ a, Spec.reqsOf g' a =
            Spec.reqsOf g a ++ if decide (a = i) then [x] else []).
Proof.
  intros [n Hn]. unfold pushRequiredBy. rewrite Hn. eexists.
  split; [done |]. split; [apply dom_insert_present; eauto |]. split.
  - intros a. rewrite depsOf_insert. case_decide; simpl; [| done].
    subst. unfold Spec.depsOf. by rewrite Hn.
  - intros a. rewrite reqsOf_insert. case_decide; simpl.
    + subst. unfold Spec.reqsOf. by rewrite Hn.
    + by rewrite app_nil_r.
Qed.

Lemma addDependsOn_spec g i x :
  is_Some (g !! i) →
  ∃ g', addDependsOn i x g = Returned g'
    ∧ dom g' = dom g
    ∧ (∀ a, Spec.depsOf g' a =
            Spec.addUnique (Spec.depsOf g a)
              (if decide (a = i) then [x] else []))
    ∧ (∀ a, Spec.reqsOf g' a = Spec.reqsOf g a).
Proof.
  intros Hi. destruct (pushDependsOn_spec g i x Hi)
    as (g' & Hpush & Hdom & Hdeps & Hreqs).
  destruct Hi as [n Hn]. unfold addDependsOn. rewrite Hn.
  assert (Hn' : Spec.depsOf g i = Graph.dependsOn n).
  { unfold Spec.depsOf. by rewrite Hn. }
  destruct (decide (x ∈ Graph.dependsOn n)) as [Hin|Hnin].
  - exists g. split; [done |]. split; [done |]. split; [| done].
    intros a. case_decide; [| done]. subst. simpl.
    by rewrite Hn', decide_True.
  - exists g'. split; [done |]. split; [done |]. split; [| done].
    intros a. rewrite Hdeps. case_decide; simpl.
    + subst. by rewrite Hn', decide_False.
    + by rewrite app_nil_r.
Qed.

Lemma addRequiredBy_spec g i x :
  is_Some (g !! i) →
  ∃ g', addRequiredBy i x g = Returned g'
    ∧ dom g' = dom g
    ∧ (∀ a, Spec.depsOf g' a = Spec.depsOf g a)
    ∧ (∀ a, Spec.reqsOf g' a =
            Spec.addUnique (Spec.reqsOf g a)
              (if decide (a = i) then [x] else [])).
Proof.
  intros Hi. destruct (pushRequiredBy_spec g i x Hi)
    as (g' & Hpush & Hdom & Hdeps & Hreqs).
  destruct Hi as [n Hn]. unfold addRequiredBy. rewrite Hn.
  assert (Hn' : Spec.reqsOf g i = Graph.requiredBy n).
  { unfold Spec.reqsOf. by rewrite Hn. }
  destruct (decide (x ∈ Graph.requiredBy n)) as [Hin|Hnin].
  - exists g. split; [done |]. split; [done |]. split; [done |].
    intros a. case_decide; [| done]. subst. simpl.
    by rewrite Hn', decide_True.
  - exists g'. split; [done |]. split; [done |]. split; [done |].
    intros a. rewrite Hreqs. case_decide; simpl.
    + subst. by rewrite Hn', decide_False.
    + by rewrite app_nil_r.
Qed.

(** One declared dependency [a depends on d]. *)
Lemma dependsOnEdge_spec ep2 g d :
  is_Some (g !! id ep2) →
  ∃ g', dependsOnEdge ep2 g d = Returned g'
    ∧ dom g' = {[d]} ∪ dom g
    ∧ (∀ a, Spec.depsOf g' a =
            Spec.depsOf g a ++ if decide (a = id ep2) then [d] else [])
    ∧ (∀ a, Spec.reqsOf g' a =
            Spec.reqsOf g a ++ if decide (a = d) then [id ep2] else []).
Proof.
  intros Hi. unfold dependsOnEdge.
  destruct (pushDependsOn_spec g (id ep2) d Hi)
    as (g1 & -> & Hdom1 & Hdeps1 & Hreqs1). simpl.
  destruct (pushRequiredBy_spec (ensure d g1) d (id ep2)
              (ensure_is_Some g1 d))
    as (g2 & -> & Hdom2 & Hdeps2 & Hreqs2).
  exists g2. split; [done |]. split; [| split].
  - by rewrite Hdom2, dom_ensure, Hdom1.
  - intros a. by rewrite Hdeps2, depsOf_ensure, Hdeps1.
  - intros a. by rewrite Hreqs2, reqsOf_ensure, Hreqs1.
Qed.

(** One declared impact [x impacts y]. *)
Lemma impactsEdge_spec ep3 g y :
  ∃ g', impactsEdge ep3 g y = Returned g'
    ∧ dom g' = {[id ep3; y]} ∪ dom g
    ∧ (∀ a, Spec.depsOf g' a =
            Spec.addUnique (Spec.depsOf g a)
              (if decide (a = y) then [id ep3] else []))
    ∧ (∀ a, Spec.reqsOf g' a =
            Spec.addUnique (Spec.reqsOf g a)
              (if decide (a = id ep3) then [y] else [])).
Proof.
  unfold impactsEdge.
  destruct (addRequiredBy_spec (ensure (id ep3) g) (id ep3) y
              (ensure_is_Some g (id ep3)))
    as (g1 & -> & Hdom1 & Hdeps1 & Hreqs1). simpl.
  destruct (addDependsOn_spec (ensure y g1) y (id ep3)
              (ensure_is_Some g1 y))
    as (g2 & -> & Hdom2 & Hdeps2 & Hreqs2).
  exists g2. split; [done |]. split; [| split].
  - rewrite Hdom2, dom_ensure, Hdom1, dom_ensure. set_solver.
  - intros a. by rewrite Hdeps2, depsOf_ensure, Hdeps1, depsOf_ensure.
  - intros a. by rewrite Hreqs2, reqsOf_ensure, Hreqs1, reqsOf_ensure.
Qed.
End GraphBuild.

Section GraphPasses.
Import Js HealthConfig.
Implicit Types (g : gmap string Graph.node) (a b x : string).
Implicit Types (pairs : list (string * string)).

Lemma forEach_app {S A} (body : S → A → outcome S) (st : S) (l1 l2 : list A) :
  forEach body st (l1 ++ l2) =
  st' ← forEach body st l1; forEach body st' l2.
Proof.
  revert st. induction l1 as [|a' l1 IH]; intros st; simpl; [done |].
  destruct (body st a'); simpl; [apply IH | done].
Qed.

Lemma dependsOnAdded_nil g : Spec.dependsOnAdded [] g g.
Proof.
  split; [set_solver |]. split; intros a; simpl; by rewrite app_nil_r.
Qed.

Lemma dependsOnAdded_app pairs1 pairs2 g g1 g2 :
  Spec.dependsOnAdded pairs1 g g1 → Spec.dependsOnAdded pairs2 g1 g2 →
  Spec.dependsOnAdded (pairs1 ++ pairs2) g g2.
Proof.
  intros (Hdom1 & Hdeps1 & Hreqs1) (Hdom2 & Hdeps2 & Hreqs2).
  split; [| split].
  - rewrite Hdom2, Hdom1, fmap_app, list_to_set_app_L. set_solver.
  - intros a. by rewrite Hdeps2, Hdeps1, filter_app, fmap_app, app_assoc.
  - intros a. by rewrite Hreqs2, Hreqs1, filter_app, fmap_app, app_assoc.
Qed.

Lemma dependsOnEdge_added ep2 g d :
  is_Some (g !! id ep2) →
  ∃ g', dependsOnEdge ep2 g d = Returned g'
    ∧ Spec.dependsOnAdded [(id ep2, d)] g g'.
Proof.
  intros Hi. destruct (dependsOnEdge_spec ep2 g d Hi)
    as (g' & Hrun & Hdom & Hdeps & Hreqs).
  exists g'. split; [done |]. split; [| split].
  - rewrite Hdom. simpl. set_solver.
  - intros a. rewrite Hdeps, filter_cons. simpl.
    destruct (decide (id ep2 = a)) as [->|Hne].
    + by rewrite decide_True.
    + by rewrite decide_False.
  - intros a. rewrite Hreqs, filter_cons. simpl.
    destruct (decide (d = a)) as [->|Hne].
    + by rewrite decide_True.
    + by rewrite decide_False.
Qed.

Lemma dependsOn_loop ep2 (ds : list string) g :
  is_Some (g !! id ep2) →
  ∃ g', forEach (dependsOnEdge ep2) g ds = Returned g'
    ∧ Spec.dependsOnAdded ((λ d, (id ep2, d)) <$> ds) g g'.
Proof.
  revert g. induction ds as [|d ds IH]; intros g Hi.
  - exists g. split; [done | apply dependsOnAdded_nil].
  - destruct (dependsOnEdge_added ep2 g d Hi) as (g1 & Hrun1 & Hadd1).
    destruct (IH g1) as (g2 & Hrun2 & Hadd2).
    { apply elem_of_dom. rewrite (proj1 Hadd1).
      apply elem_of_dom in Hi. set_solver. }
    exists g2. split.
    + simpl. rewrite Hrun1. simpl. done.
    + apply (dependsOnAdded_app [(id ep2, d)] _ g g1 g2); done.
Qed.

Lemma dependsOnEdges_added (eps : list endpoint) g :
  (∀ ep, ep ∈ eps → id ep ∈ dom g) →
  ∃ g', dependsOnEdges eps g = Returned g'
    ∧ Spec.dependsOnAdded (Spec.depPairs eps) g g'.
Proof.
  revert g. induction eps as [|ep eps IH]; intros g Hids.
  - exists g. split; [done | apply dependsOnAdded_nil].
  - destruct (dependsOn_loop ep (default [] (dependsOn ep)) g)
      as (g1 & Hrun1 & Hadd1).
    { apply elem_of_dom, Hids. left. }
    destruct (IH g1) as (g2 & Hrun2 & Hadd2).
    { intros ep' Hin. rewrite (proj1 Hadd1).
      apply elem_of_union_r, Hids. by right. }
    exists g2. split.
    + unfold dependsOnEdges in *. simpl. rewrite Hrun1. simpl. done.
    + unfold Spec.depPairs. simpl.
      eapply dependsOnAdded_app; [exact Hadd1 | exact Hadd2].
Qed.

Lemma addUnique_app (l ys1 ys2 : list string) :
  Spec.addUnique l (ys1 ++ ys2) =
  Spec.addUnique (Spec.addUnique l ys1) ys2.
Proof. unfold Spec.addUnique. apply foldl_app. Qed.

Lemma impactsAdded_nil g : Spec.impactsAdded [] g g.
Proof. split; [set_solver |]. split; intros a; done. Qed.

Lemma impactsAdded_app pairs1 pairs2 g g1 g2 :
  Spec.impactsAdded pairs1 g g1 → Spec.impactsAdded pairs2 g1 g2 →
  Spec.impactsAdded (pairs1 ++ pairs2) g g2.
Proof.
  intros (Hdom1 & Hdeps1 & Hreqs1) (Hdom2 & Hdeps2 & Hreqs2).
  split; [| split].
  - rewrite Hdom2, Hdom1, !fmap_app, !list_to_set_app_L. set_solver.
  - intros a. by rewrite Hdeps2, Hdeps1, filter_app, fmap_app, addUnique_app.
  - intros a. by rewrite Hreqs2, Hreqs1, filter_app, fmap_app, addUnique_app.
Qed.

Lemma impactsEdge_added ep3 g y :
  ∃ g', impactsEdge ep3 g y = Returned g'
    ∧ Spec.impactsAdded [(id ep3, y)] g g'.
Proof.
  destruct (impactsEdge_spec ep3 g y) as (g' & Hrun & Hdom & Hdeps & Hreqs).
  exists g'. split; [done |]. split; [| split].
  - rewrite Hdom. simpl. set_solver.
  - intros a. rewrite Hdeps, filter_cons. simpl.
    destruct (decide (y = a)) as [->|Hne].
    + by rewrite decide_True.
    + by rewrite decide_False.
  - intros a. rewrite Hreqs, filter_cons. simpl.
    destruct (decide (id ep3 = a)) as [->|Hne].
    + by rewrite decide_True.
    + by rewrite decide_False.
Qed.

Lemma impacts_loop ep3 (ys : list string) g :
  ∃ g', forEach (impactsEdge ep3) g ys = Returned g'
    ∧ Spec.impactsAdded ((λ y, (id ep3, y)) <$> ys) g g'.
Proof.
  revert g. induction ys as [|y ys IH]; intros g.
  - exists g. split; [done | apply impactsAdded_nil].
  - destruct (impactsEdge_added ep3 g y) as (g1 & Hrun1 & Hadd1).
    destruct (IH g1) as (g2 & Hrun2 & Hadd2).
    exists g2. split.
    + simpl. rewrite Hrun1. simpl. done.
    + apply (impactsAdded_app [(id ep3, y)] _ g g1 g2); done.
Qed.

Lemma impactsEdges_added (eps : list endpoint) g :
  ∃ g', impactsEdges eps g = Returned g'
    ∧ Spec.impactsAdded (Spec.impPairs eps) g g'.
Proof.
  revert g. induction eps as [|ep eps IH]; intros g.
  - exists g. split; [done | apply impactsAdded_nil].
  - destruct (impacts_loop ep (default [] (impacts ep)) g)
      as (g1 & Hrun1 & Hadd1).
    destruct (IH g1) as (g2 & Hrun2 & Hadd2).
    exists g2. split.
    + unfold impactsEdges in *. simpl. rewrite Hrun1. simpl. done.
    + unfold Spec.impPairs. simpl.
      eapply impactsAdded_app; [exact Hadd1 | exact Hadd2].
Qed.

Lemma initNodes_spec (eps : list endpoint) g :
  dom (initNodes eps g) = list_to_set (id <$> eps) ∪ dom g
  ∧ (∀ a, Spec.depsOf (initNodes eps g) a = Spec.depsOf g a)
  ∧ (∀ a, Spec.reqsOf (initNodes eps g) a = Spec.reqsOf g a).
Proof.
  revert g. unfold initNodes.
  induction eps as [|ep eps IH]; intros g; simpl.
  - split; [set_solver | done].
  - destruct (IH (ensure (id ep) g)) as (Hdom & Hdeps & Hreqs).
    split; [| split].
    + rewrite Hdom, dom_ensure. set_solver.
    + intros a. by rewrite Hdeps, depsOf_ensure.
    + intros a. by rewrite Hreqs, reqsOf_ensure.
Qed.

(** The graph that [getDependencyGraph] returns, list by list. *)
Lemma getDependencyGraph_lists (eps : list endpoint) :
  ∃ g, getDependencyGraph eps = Returned g
    ∧ dom g = list_to_set (id <$> eps)
              ∪ list_to_set (Spec.depPairs eps).*2
              ∪ list_to_set (Spec.impPairs eps).*1
              ∪ list_to_set (Spec.impPairs eps).*2
    ∧ (∀ a, Spec.depsOf g a =
            Spec.addUnique (filter (λ p, p.1 = a) (Spec.depPairs eps)).*2
              (filter (λ p, p.2 = a) (Spec.impPairs eps)).*1)
    ∧ (∀ a, Spec.reqsOf g a =
            Spec.addUnique (filter (λ p, p.2 = a) (Spec.depPairs eps)).*1
              (filter (λ p, p.1 = a) (Spec.impPairs eps)).*2).
Proof.
  destruct (initNodes_spec eps ∅) as (Hdom0 & Hdeps0 & Hreqs0).
  destruct (dependsOnEdges_added eps (initNodes eps ∅))
    as (g1 & Hrun1 & Hdom1 & Hdeps1 & Hreqs1).
  { intros ep Hin. rewrite Hdom0. apply elem_of_union_l.
    apply elem_of_list_to_set, list_elem_of_fmap. eauto. }
  destruct (impactsEdges_added eps g1)
    as (g2 & Hrun2 & Hdom2 & Hdeps2 & Hreqs2).
  exists g2. split; [| split; [| split]].
  - unfold getDependencyGraph. rewrite Hrun1. simpl. done.
  - rewrite Hdom2, Hdom1, Hdom0. set_solver.
  - intros a. rewrite Hdeps2, Hdeps1, Hdeps0. done.
  - intros a. rewrite Hreqs2, Hreqs1, Hreqs0. done.
Qed.
End GraphPasses.

Section GraphEdges.
Import Js HealthConfig.
Implicit Types (a b x : string) (pairs : list (string * string)).

Lemma elem_of_depPairs (eps : list endpoint) a b :
  (a, b) ∈ Spec.depPairs eps ↔
  ∃ ep, ep ∈ eps ∧ id ep = a ∧ b ∈ default [] (dependsOn ep).
Proof.
  unfold Spec.depPairs. rewrite list_elem_of_bind. split.
  - intros (ep & Hin & Hep). apply list_elem_of_fmap in Hin as (d & [= -> ->] & Hd).
    eauto.
  - intros (ep & Hep & <- & Hb). exists ep. split; [| done].
    apply list_elem_of_fmap. eauto.
Qed.

Lemma elem_of_impPairs (eps : list endpoint) a b :
  (a, b) ∈ Spec.impPairs eps ↔
  ∃ ep, ep ∈ eps ∧ id ep = a ∧ b ∈ default [] (impacts ep).
Proof.
  unfold Spec.impPairs. rewrite list_elem_of_bind. split.
  - intros (ep & Hin & Hep). apply list_elem_of_fmap in Hin as (d & [= -> ->] & Hd).
    eauto.
  - intros (ep & Hep & <- & Hb). exists ep. split; [| done].
    apply list_elem_of_fmap. eauto.
Qed.

Lemma elem_of_targets pairs a b :
  b ∈ (filter (λ p, p.1 = a) pairs).*2 ↔ (a, b) ∈ pairs.
Proof.
  rewrite list_elem_of_fmap. split.
  - intros ([a' b'] & -> & Hin). apply list_elem_of_filter in Hin as [Ha Hin].
    simpl in *. by subst.
  - intros Hin. exists (a, b). split; [done |].
    by apply list_elem_of_filter.
Qed.

Lemma elem_of_sources pairs a b :
  a ∈ (filter (λ p, p.2 = b) pairs).*1 ↔ (a, b) ∈ pairs.
Proof.
  rewrite list_elem_of_fmap. split.
  - intros ([a' b'] & -> & Hin). apply list_elem_of_filter in Hin as [Ha Hin].
    simpl in *. by subst.
  - intros Hin. exists (a, b). split; [done |].
    by apply list_elem_of_filter.
Qed.

Lemma occurrences_targets pairs a b :
  Spec.occurrences b (filter (λ p, p.1 = a) pairs).*2 =
  Spec.declared (a, b) pairs.
Proof.
  unfold Spec.occurrences, Spec.declared.
  induction pairs as [|[a' b'] pairs IH]; [done |].
  rewrite (filter_cons (λ p, p.1 = a)), (filter_cons (λ q, q = (a, b))).
  cbn [fst]. destruct (decide (a' = a)) as [->|Ha].
  - rewrite fmap_cons, (filter_cons (λ y, y = b)). cbn [snd].
    destruct (decide (b' = b)) as [->|Hb].
    + rewrite decide_True by done. cbn [length]. by rewrite IH.
    + rewrite decide_False by congruence. done.
  - rewrite decide_False by congruence. done.
Qed.

Lemma occurrences_sources pairs a b :
  Spec.occurrences a (filter (λ p, p.2 = b) pairs).*1 =
  Spec.declared (a, b) pairs.
Proof.
  unfold Spec.occurrences, Spec.declared.
  induction pairs as [|[a' b'] pairs IH]; [done |].
  rewrite (filter_cons (λ p, p.2 = b)), (filter_cons (λ q, q = (a, b))).
  cbn [snd]. destruct (decide (b' = b)) as [->|Hb].
  - rewrite fmap_cons, (filter_cons (λ y, y = a)). cbn [fst].
    destruct (decide (a' = a)) as [->|Ha].
    + rewrite decide_True by done. cbn [length]. by rewrite IH.
    + rewrite decide_False by congruence. done.
  - rewrite decide_False by congruence. done.
Qed.

Lemma occurrences_app x (l1 l2 : list string) :
  Spec.occurrences x (l1 ++ l2) =
  (Spec.occurrences x l1 + Spec.occurrences x l2)%nat.
Proof. unfold Spec.occurrences. by rewrite filter_app, length_app. Qed.

Lemma occurrences_absent x (l : list string) :
  x ∉ l → Spec.occurrences x l = 0%nat.
Proof.
  unfold Spec.occurrences. induction l as [|y l IH]; [done |].
  rewrite not_elem_of_cons. intros [Hne Hl].
  rewrite filter_cons_False by congruence. by apply IH.
Qed.

Lemma elem_of_addUnique x (l ys : list string) :
  x ∈ Spec.addUnique l ys ↔ x ∈ l ∨ x ∈ ys.
Proof.
  unfold Spec.addUnique. revert l.
  induction ys as [|y ys IH]; intros l; simpl.
  - rewrite elem_of_nil. tauto.
  - rewrite IH, elem_of_cons. case_decide as Hy.
    + split; [tauto |]. intros [?|[->|?]]; tauto.
    + rewrite elem_of_app, list_elem_of_singleton. tauto.
Qed.

Lemma occurrences_addUnique x (l ys : list string) :
  Spec.occurrences x (Spec.addUnique l ys) =
  if decide (x ∈ l) then Spec.occurrences x l
  else if decide (x ∈ ys) then 1%nat else 0%nat.
Proof.
  unfold Spec.addUnique. revert l.
  induction ys as [|y ys IH]; intros l; simpl.
  - case_decide; [done |]. by apply occurrences_absent.
  - rewrite IH. destruct (decide (y ∈ l)) as [Hy|Hy].
    + destruct (decide (x ∈ l)) as [Hx|Hx]; [done |].
      assert (x ≠ y) by congruence.
      destruct (decide (x ∈ ys)) as [Hxs|Hxs].
      * rewrite decide_True by (by right). done.
      * rewrite decide_False; [done |]. rewrite not_elem_of_cons. tauto.
    + destruct (decide (x ∈ l)) as [Hx|Hx].
      * rewrite decide_True by (apply elem_of_app; tauto).
        rewrite occurrences_app.
        rewrite (occurrences_absent x [y]); [lia |].
        rewrite list_elem_of_singleton. congruence.
      * destruct (decide (x = y)) as [->|Hne].
        -- rewrite decide_True
             by (apply elem_of_app; right; apply list_elem_of_singleton; done).
           rewrite decide_True by left.
           rewrite occurrences_app, (occurrences_absent y l) by done.
           unfold Spec.occurrences. by rewrite filter_cons_True.
        -- rewrite decide_False.
           ++ destruct (decide (x ∈ ys)) as [Hxs|Hxs].
              ** rewrite decide_True by (by right). done.
              ** rewrite decide_False; [done |].
                 rewrite not_elem_of_cons. tauto.
           ++ rewrite elem_of_app, list_elem_of_singleton. tauto.
Qed.

Lemma depsOf_node (g : gmap string Graph.node) a b :
  b ∈ Spec.depsOf g a → ∃ n, g !! a = Some n ∧ b ∈ Graph.dependsOn n.
Proof.
  unfold Spec.depsOf. destruct (g !! a) as [n|]; simpl; [eauto |].
  intros H. by apply elem_of_nil in H.
Qed.

Lemma reqsOf_node (g : gmap string Graph.node) a b :
  b ∈ Spec.reqsOf g a → ∃ n, g !! a = Some n ∧ b ∈ Graph.requiredBy n.
Proof.
  unfold Spec.reqsOf. destruct (g !! a) as [n|]; simpl; [eauto |].
  intros H. by apply elem_of_nil in H.
Qed.
End GraphEdges.


(** ** The breadth-first traversals *)

Section Traversal.
Import HealthConfig.
Variable graph : gmap string Graph.node.
Variable start : string.
Implicit Types (st : bfs) (x y : string) (ds : list string).

Lemma reqsOf_targets x y :
  Spec.requiredByEdge graph x y → y ∈ Spec.targets graph.
Proof.
  unfold Spec.requiredByEdge. intros Hy.
  apply reqsOf_node in Hy as (n & Hn & Hy).
  unfold Spec.targets. apply elem_of_list_to_set, list_elem_of_bind.
  exists (x, n). split; [done |]. by apply elem_of_map_to_list.
Qed.

(** The inner [for] loop over the dependents of the current node. *)
Lemma visit_all st ds :
  ∃ new,
    queue (foldl visit st ds) = queue st ++ new
    ∧ impacted (foldl visit st ds) = impacted st ++ new
    ∧ visited (foldl visit st ds) = visited st ∪ list_to_set ds
    ∧ NoDup new
    ∧ (∀ x, x ∈ new ↔ x ∈ ds ∧ x ∉ visited st).
Proof.
  revert st. induction ds as [|d ds IH]; intros st.
  - exists []. simpl. rewrite !app_nil_r. split; [done |]. split; [done |].
    split; [set_solver |]. split; [constructor |].
    intros x. rewrite elem_of_nil. tauto.
  - cbn [foldl]. unfold visit at 2 4 6.
    destruct (decide (d ∈ visited st)) as [Hd|Hd].
    + destruct (IH st) as (new & Hq & Hi & Hv & Hnd & Hnew).
      exists new. split; [done |]. split; [done |]. split; [| split; [done |]].
      * rewrite Hv. set_solver.
      * intros x. rewrite Hnew, elem_of_cons. split; [tauto |].
        intros [[->|?] ?]; tauto.
    + destruct (IH (mkBfs (queue st ++ [d]) ({[d]} ∪ visited st)
                          (impacted st ++ [d])))
        as (new & Hq & Hi & Hv & Hnd & Hnew). simpl in *.
      exists (d :: new). rewrite Hq, Hi, Hv, <- !app_assoc. simpl.
      split; [done |]. split; [done |]. split; [set_solver |]. split.
      * constructor; [| done]. rewrite Hnew. set_solver.
      * intros x. rewrite elem_of_cons, Hnew, elem_of_cons.
        rewrite not_elem_of_union, not_elem_of_singleton.
        destruct (decide (x = d)) as [->|Hne]; [tauto |]. tauto.
Qed.

Lemma initial_inv :
  Spec.bfsInv graph start (mkBfs [start] {[start]} []).
Proof.
  unfold Spec.bfsInv. simpl.
  split; [set_solver |]. split.
  { intros x Hx. apply elem_of_singleton in Hx. by subst. }
  split; [set_solver |]. split.
  { intros x y Hx Hq. apply elem_of_singleton in Hx. subst.
    exfalso. apply Hq. left. }
  split; [constructor |]. split; [| set_solver].
  intros x. rewrite elem_of_nil, elem_of_singleton. tauto.
Qed.

Lemma step_inv st st' :
  Spec.bfsInv graph start st → bfsStep graph st = Some st' →
  Spec.bfsInv graph start st'
  ∧ (Spec.bfsMeasure graph start st' < Spec.bfsMeasure graph start st)%nat.
Proof.
  intros (Hstart & Hreach & Hqueue & Hclosed & Hnd & Himp & Hsub).
  unfold bfsStep. destruct (queue st) as [|current rest] eqn:Hq; [done |].
  assert (Hcur : current ∈ visited st) by (apply Hqueue; left).
  assert (Hsize : (size (visited st)
                   ≤ size ({[start]} ∪ Spec.targets graph))%nat)
    by by apply subseteq_size.
  destruct (graph !! current) as [node|] eqn:Hnode; intros [= <-].
  - destruct (visit_all (mkBfs rest (visited st) (impacted st))
                (Graph.requiredBy node))
      as (new & Hq' & Hi' & Hv' & Hnew_nd & Hnew). simpl in *.
    assert (Hedge : ∀ y, y ∈ Graph.requiredBy node ↔
                         Spec.requiredByEdge graph current y).
    { intros y. unfold Spec.requiredByEdge, Spec.reqsOf. by rewrite Hnode. }
    assert (Hsub' : visited st ∪ list_to_set (Graph.requiredBy node)
                    ⊆ {[start]} ∪ Spec.targets graph).
    { apply union_subseteq. split; [done |]. intros y Hy.
      apply elem_of_list_to_set, Hedge, reqsOf_targets in Hy. set_solver. }
    split.
    + unfold Spec.bfsInv. rewrite Hq', Hi', Hv'.
      split; [set_solver |]. split.
      { intros x [Hx|Hx]%elem_of_union; [by apply Hreach |].
        apply elem_of_list_to_set, Hedge in Hx.
        eapply rtc_r; [apply Hreach, Hcur | done]. }
      split.
      { intros x [Hx|Hx]%elem_of_app.
        - apply elem_of_union_l, Hqueue. by right.
        - apply elem_of_union_r, elem_of_list_to_set. by apply Hnew. }
      split.
      { intros x y [Hx|Hx]%elem_of_union Hnq Hxy.
        - destruct (decide (x = current)) as [->|Hne].
          + apply elem_of_union_r, elem_of_list_to_set. by apply Hedge.
          + apply elem_of_union_l. apply (Hclosed x y); [done | | done].
            rewrite not_elem_of_cons. split; [done |].
            intros Hin. apply Hnq, elem_of_app. by left.
        - destruct (decide (x ∈ visited st)) as [Hv|Hv].
          + destruct (decide (x = current)) as [->|Hne].
            * apply elem_of_union_r, elem_of_list_to_set. by apply Hedge.
            * apply elem_of_union_l. apply (Hclosed x y); [done | | done].
              rewrite not_elem_of_cons. split; [done |].
              intros Hin. apply Hnq, elem_of_app. by left.
          + exfalso. apply Hnq, elem_of_app. right. apply Hnew.
            split; [| done]. by apply elem_of_list_to_set in Hx. }
      split.
      { apply NoDup_app. split; [done |]. split; [| done].
        intros x Hx Hx'. apply Himp in Hx as [Hx _].
        apply Hnew in Hx' as [_ Hx']. done. }
      split; [| done].
      intros x. rewrite elem_of_app, Himp, Hnew, elem_of_union,
        elem_of_list_to_set. split.
      * intros [[Hx Hne]|[Hx Hnv]]; [tauto |]. split; [tauto |].
        intros ->. done.
      * intros [[Hx|Hx] Hne]; [tauto |].
        destruct (decide (x ∈ visited st)); tauto.
    + unfold Spec.bfsMeasure. rewrite Hq', Hv', Hq. simpl.
      assert (Hset : visited st ∪ list_to_set (Graph.requiredBy node)
                     = visited st ∪ list_to_set new).
      { apply set_eq. intros x.
        rewrite !elem_of_union, !elem_of_list_to_set, Hnew.
        destruct (decide (x ∈ visited st)); tauto. }
      assert (Hsz : size (visited st ∪ list_to_set (Graph.requiredBy node))
                    = (size (visited st) + length new)%nat).
      { rewrite Hset, size_union.
        - by rewrite size_list_to_set.
        - intros x Hx Hx'. apply elem_of_list_to_set, Hnew in Hx'.
          by destruct Hx'. }
      assert (Hle := subseteq_size _ _ Hsub'). rewrite Hsz in Hle |- *.
      rewrite length_app. lia.
  - split.
    + unfold Spec.bfsInv. simpl.
      split; [done |]. split; [done |]. split.
      { intros x Hx. apply Hqueue. by right. }
      split; [| done].
      intros x y Hx Hnq Hxy. destruct (decide (x = current)) as [->|Hne].
      * unfold Spec.requiredByEdge, Spec.reqsOf in Hxy.
        rewrite Hnode in Hxy. by apply elem_of_nil in Hxy.
      * apply (Hclosed x y); [done | | done].
        rewrite not_elem_of_cons. done.
    + unfold Spec.bfsMeasure. rewrite Hq. simpl. lia.
Qed.

Lemma bfs_runs (fuel : nat) st :
  Spec.bfsInv graph start st →
  (Spec.bfsMeasure graph start st ≤ fuel)%nat →
  ∃ st', while (bfsStep graph) fuel st = Some st'
    ∧ Spec.bfsInv graph start st' ∧ queue st' = [].
Proof.
  revert st. induction fuel as [|fuel IH]; intros st Hinv Hfuel.
  - simpl. destruct (bfsStep graph st) as [st'|] eqn:Hstep.
    + destruct (step_inv st st' Hinv Hstep) as [_ Hlt]. lia.
    + exists st. split; [done |]. split; [done |].
      unfold bfsStep in Hstep. destruct (queue st); [done |].
      by destruct (graph !! s).
  - simpl. destruct (bfsStep graph st) as [st'|] eqn:Hstep.
    + destruct (step_inv st st' Hinv Hstep) as [Hinv' Hlt].
      apply IH; [done | lia].
    + exists st. split; [done |]. split; [done |].
      unfold bfsStep in Hstep. destruct (queue st); [done |].
      by destruct (graph !! s).
Qed.

Lemma finished_reaches st :
  Spec.bfsInv graph start st → queue st = [] →
  NoDup (impacted st)
  ∧ ∀ x, x ∈ impacted st ↔
         x ≠ start ∧ rtc (Spec.requiredByEdge graph) start x.
Proof.
  intros (Hstart & Hreach & Hqueue & Hclosed & Hnd & Himp & Hsub) Hq.
  split; [done |]. intros x. rewrite Himp. split.
  - intros [Hx Hne]. split; [done | by apply Hreach].
  - intros [Hne Hrtc]. split; [| done]. clear Hne. revert x Hrtc.
    apply (rtc_ind_r (λ z, z ∈ visited st) start); [done |].
    intros y z _ Hyz Hy. apply (Hclosed y z); [done | | done].
    rewrite Hq. apply not_elem_of_nil.
Qed.

Lemma initial_measure :
  (Spec.bfsMeasure graph start (mkBfs [start] {[start]} [])
   ≤ Spec.enoughFuel graph)%nat.
Proof.
  unfold Spec.bfsMeasure, Spec.enoughFuel. cbn [visited queue length].
  assert (size ({[start]} : gset string) = 1%nat) as Hone
    by apply size_singleton.
  assert (size ({[start]} ∪ Spec.targets graph)
          ≤ size ({[start]} : gset string) + size (Spec.targets graph))%nat
    as Hle.
  { rewrite size_union_alt. apply Nat.add_le_mono_l, subseteq_size.
    set_solver. }
  lia.
Qed.

Lemma while_more_fuel {S} (step : S → option S) (fuel fuel' : nat) s r :
  while step fuel s = Some r → (fuel ≤ fuel')%nat →
  while step fuel' s = Some r.
Proof.
  revert fuel' s. induction fuel as [|fuel IH]; intros fuel' s; simpl.
  - destruct (step s) eqn:Hs; [done |]. intros [= <-] _.
    destruct fuel'; simpl; by rewrite Hs.
  - destruct (step s) as [s'|] eqn:Hs.
    + intros Hrun Hle. destruct fuel' as [|fuel']; [lia |].
      simpl. rewrite Hs. apply IH; [done | lia].
    + intros [= <-] _. destruct fuel'; simpl; by rewrite Hs.
Qed.

(** [getBlastRadius] counts what [getImpactedServices] collects. *)
Lemma counting_visit st ds :
  foldl App.visit (Spec.counting st) ds = Spec.counting (foldl visit st ds).
Proof.
  revert st. induction ds as [|d ds IH]; intros st; [done |].
  cbn [foldl]. rewrite <- IH. f_equal.
  unfold App.visit, visit, Spec.counting. simpl.
  case_decide; [done |]. simpl. rewrite length_app. simpl.
  f_equal. lia.
Qed.

Lemma counting_step st :
  App.bfsStep graph (Spec.counting st) =
  Spec.counting <$> bfsStep graph st.
Proof.
  unfold App.bfsStep, bfsStep. simpl.
  destruct (queue st) as [|current rest]; [done |].
  destruct (graph !! current) as [node|]; [| done].
  simpl. f_equal.
  apply (counting_visit (mkBfs rest (visited st) (impacted st))).
Qed.

Lemma counting_while (fuel : nat) st :
  while (App.bfsStep graph) fuel (Spec.counting st) =
  Spec.counting <$> while (bfsStep graph) fuel st.
Proof.
  revert st. induction fuel as [|fuel IH]; intros st; simpl;
    rewrite counting_step; destruct (bfsStep graph st); simpl; done.
Qed.
End Traversal.

(** C5. For every graph, cyclic or not, and every start id, both
    traversals finish: given enough turns of the loop,
    [getImpactedServices] returns the ids that can be reached from the
    start id along [requiredBy] edges, the start id itself left out, each
    of them once, and [getBlastRadius] returns their number. *)
Theorem blast_radius_terminates (graph : gmap string Graph.node)
    (start : string) :
  ∃ reached : list string,
    NoDup reached
    ∧ (∀ x, x ∈ reached ↔
            x ≠ start ∧ rtc (Spec.requiredByEdge graph) start x)
    ∧ (∀ fuel : nat, (Spec.enoughFuel graph ≤ fuel)%nat →
         App.getBlastRadius fuel start graph = Some (length reached))
    ∧ (∀ (ENDPOINTS : list HealthConfig.endpoint) (fuel : nat),
         HealthConfig.getDependencyGraph ENDPOINTS = Js.Returned graph →
         (Spec.enoughFuel graph ≤ fuel)%nat →
         HealthConfig.getImpactedServices ENDPOINTS fuel start
         = Some (Js.Returned reached)).
Proof.
  destruct (bfs_runs graph start (Spec.enoughFuel graph)
              (HealthConfig.mkBfs [start] {[start]} [])
              (initial_inv graph start) (initial_measure graph start))
    as (st & Hrun & Hinv & Hq).
  destruct (finished_reaches graph start st Hinv Hq) as [Hnd Hreach].
  exists (HealthConfig.impacted st).
  split; [done |]. split; [done |]. split.
  - intros fuel Hfuel. unfold App.getBlastRadius.
    change (App.mkBfs [start] {[start]} 0%nat)
      with (Spec.counting (HealthConfig.mkBfs [start] {[start]} [])).
    rewrite counting_while.
    by rewrite (while_more_fuel _ _ fuel _ _ Hrun Hfuel).
  - intros ENDPOINTS fuel Hgraph Hfuel.
    unfold HealthConfig.getImpactedServices. rewrite Hgraph.
    by rewrite (while_more_fuel _ _ fuel _ _ Hrun Hfuel).
Qed.

(** The two-node cycle of the specification: A is required by B and B is
    required by A. *)
Example blast_radius_cycle :
  let graph : gmap string Graph.node :=
    <["A" := Graph.mkNode [] ["B"]]> (<["B" := Graph.mkNode [] ["A"]]> ∅) in
  App.getBlastRadius (Spec.enoughFuel graph) "A" graph = Some 1%nat.
Proof. vm_compute. reflexivity. Qed.

(** The two registries of the specification's examples. *)
Example dependsOn_example :
  let ep i deps imps :=
    HealthConfig.mkEndpoint i i "apis" None "" "http-get" 10000 true
      (Some deps) (Some imps) in
  (∃ g, HealthConfig.getDependencyGraph [ep "A" ["B"] []] = Js.Returned g
        ∧ g !! "A" = Some (Graph.mkNode ["B"] [])
        ∧ g !! "B" = Some (Graph.mkNode [] ["A"]))
  ∧ (∃ g, HealthConfig.getDependencyGraph
            [ep "X" [] ["Y"]; ep "Y" ["X"] []] = Js.Returned g
          ∧ g !! "X" = Some (Graph.mkNode [] ["Y"])
          ∧ g !! "Y" = Some (Graph.mkNode ["X"] [])).
Proof.
  intros ep. split; eexists; (split; [vm_compute; reflexivity |]);
    split; vm_compute; reflexivity.
Qed.

(** ** The dispatcher *)

Section Dispatcher.
Import Js Health.
Variable E : Env.
Implicit Types (ep : endpoint) (err : JsError).

Lemma runCheck_unknown ep :
  CHECK_FNS E (HealthConfig.checkType ep) = None →
  runCheck E ep =
  Returned (result ep "DOWN" 0 []
              (Some ("Unknown check type: " +:+ HealthConfig.checkType ep))).
Proof. intros Hfn. unfold runCheck. by rewrite Hfn. Qed.

Lemma runCheck_returned ep fn (v : checkResult) :
  CHECK_FNS E (HealthConfig.checkType ep) = Some fn →
  fn ep = Returned v → runCheck E ep = Returned v.
Proof. intros Hfn Hrun. unfold runCheck. by rewrite Hfn, Hrun. Qed.

Lemma runCheck_thrown ep fn err :
  CHECK_FNS E (HealthConfig.checkType ep) = Some fn →
  fn ep = Thrown err →
  runCheck E ep =
  Returned (result ep
              (if firewalled ep err then "DEGRADED" else "DOWN") 0 []
              (Some (if firewalled ep err
                     then "Unreachable (likely firewalled)"
                     else strOr (err_message err) (String_of_error err)))).
Proof. intros Hfn Hrun. unfold runCheck. by rewrite Hfn, Hrun. Qed.

Lemma runCheck_returns ep : ∃ r, runCheck E ep = Returned r.
Proof.
  destruct (CHECK_FNS E (HealthConfig.checkType ep)) as [fn|] eqn:Hfn.
  - destruct (fn ep) as [v|err] eqn:Hrun.
    + eexists. by eapply runCheck_returned.
    + eexists. by eapply runCheck_thrown.
  - eexists. by apply runCheck_unknown.
Qed.

Lemma firewalled_spec ep err :
  firewalled ep err = true ↔
  HealthConfig.category ep = "validators"
  ∧ (err_code err = Some "ECONNREFUSED" ∨ err_code err = Some "ECONNRESET"
     ∨ err_code err = Some "EHOSTUNREACH").
Proof.
  unfold firewalled, isFirewall.
  rewrite andb_true_iff, !orb_true_iff, !bool_decide_eq_true. tauto.
Qed.
End Dispatcher.


(** C2, as stated, fails for an error whose message is empty: the code
    falls back on the string form of the error.  Node reports a refused
    connection to a host with several addresses as an [AggregateError]
    with the code ECONNREFUSED and an empty message; for the API endpoint
    below the result is DOWN with the error text "AggregateError", which
    is not the error's message. *)
Lemma runCheck_firewall_counterexample :
  let err := Js.mkJsError "AggregateError" "" (Some "ECONNREFUSED") in
  let E := Spec.failing err in
  let ep := Spec.dashboardApiProd in
  Health.CHECK_FNS E (HealthConfig.checkType ep)
  = Some (Health.checkDeepHealth E)
  ∧ Health.checkDeepHealth E ep = Js.Thrown err
  ∧ Js.err_code err = Some "ECONNREFUSED"
  ∧ HealthConfig.category ep = "apis"
  ∧ ∃ r, Health.runCheck E ep = Js.Returned r
      ∧ Health.status r = "DOWN"
      ∧ Health.error r = Some "AggregateError"
      ∧ Health.error r ≠ Some (Js.err_message err).
Proof.
  intros err E ep.
  split; [reflexivity |]. split; [reflexivity |]. split; [reflexivity |].
  split; [reflexivity |].
  eexists. split; [reflexivity |]. split; [reflexivity |].
  split; [reflexivity |]. simpl. discriminate.
Qed.

(** C2, amended.  When the probe of an endpoint throws an error whose code
    is ECONNREFUSED, ECONNRESET or EHOSTUNREACH: for the category
    [validators], [runCheck] returns a result with status DEGRADED and the
    error text "Unreachable (likely firewalled)"; for any other category
    the status is DOWN and the error text is the error's message or, when
    the message is empty, the string form of the error ([null] when that is
    empty too). *)
Theorem runCheck_firewall_rule (E : Health.Env) (ep : HealthConfig.endpoint)
    (fn : HealthConfig.endpoint → Js.outcome Health.checkResult)
    (err : Js.JsError) :
  Health.CHECK_FNS E (HealthConfig.checkType ep) = Some fn →
  fn ep = Js.Thrown err →
  Js.err_code err = Some "ECONNREFUSED" ∨ Js.err_code err = Some "ECONNRESET"
  ∨ Js.err_code err = Some "EHOSTUNREACH" →
  ∃ r, Health.runCheck E ep = Js.Returned r
    ∧ (HealthConfig.category ep = "validators" →
       Health.status r = "DEGRADED"
       ∧ Health.error r = Some "Unreachable (likely firewalled)")
    ∧ (HealthConfig.category ep ≠ "validators" →
       Health.status r = "DOWN"
       ∧ Health.error r =
         if decide (Js.err_message err ≠ "") then Some (Js.err_message err)
         else if decide (Js.String_of_error err ≠ "")
              then Some (Js.String_of_error err)
              else None).
Proof.
  intros Hfn Hrun Hcode. eexists.
  split; [apply (runCheck_thrown E ep fn err Hfn Hrun) |]. split.
  - intros Hcat.
    assert (Hfw : Health.firewalled ep err = true)
      by (by apply firewalled_spec).
    rewrite Hfw. done.
  - intros Hcat.
    assert (Hfw : Health.firewalled ep err = false).
    { apply not_true_is_false. rewrite firewalled_spec. tauto. }
    rewrite Hfw. split; [done |]. simpl.
    unfold Health.strOr, Js.truthy_str.
    destruct (decide (Js.err_message err = "")) as [Hm|Hm].
    + rewrite decide_False by (intros H; by apply H).
      destruct (decide (Js.String_of_error err = "")) as [Hs|Hs].
      * rewrite decide_False by (intros H; by apply H).
        by rewrite bool_decide_true.
      * rewrite decide_True by done. by rewrite bool_decide_false.
    + rewrite decide_True by done. by rewrite bool_decide_false.
Qed.

Lemma runCheck_firewall_rule_witness :
  let err :=
    Js.mkJsError "Error" "connect ECONNREFUSED" (Some "ECONNREFUSED") in
  let E := Spec.failing err in
  (Health.CHECK_FNS E (HealthConfig.checkType Spec.validator1)
   = Some (Health.checkCosmosPeer E))
  ∧ Health.checkCosmosPeer E Spec.validator1 = Js.Thrown err
  ∧ (Js.err_code err = Some "ECONNREFUSED"
     ∨ Js.err_code err = Some "ECONNRESET"
     ∨ Js.err_code err = Some "EHOSTUNREACH")
  ∧ ∃ r, Health.runCheck E Spec.validator1 = Js.Returned r
      ∧ Health.status r = "DEGRADED"
      ∧ Health.error r = Some "Unreachable (likely firewalled)".
Proof.
  intros err E.
  assert (Hfn : Health.CHECK_FNS E (HealthConfig.checkType Spec.validator1)
                = Some (Health.checkCosmosPeer E)) by reflexivity.
  assert (Hrun : Health.checkCosmosPeer E Spec.validator1 = Js.Thrown err)
    by reflexivity.
  assert (Hcode : Js.err_code err = Some "ECONNREFUSED"
                  ∨ Js.err_code err = Some "ECONNRESET"
                  ∨ Js.err_code err = Some "EHOSTUNREACH") by (by left).
  split; [exact Hfn |]. split; [exact Hrun |]. split; [exact Hcode |].
  destruct (runCheck_firewall_rule E Spec.validator1 _ err Hfn Hrun Hcode)
    as (r & Hr & Hval & _).
  exists r. split; [exact Hr |]. apply Hval. reflexivity.
Defined.

(** ** Block age *)

Section BlockAge.
Import Js Health.
Variable E : Env.
Implicit Types (ep : endpoint) (d : Z).

Lemma Math_round_seconds d :
  Math_round (inject_Z d / 1000) = (d + 500) / 1000.
Proof.
  unfold Math_round, Qfloor, Qdiv, Qmult, Qplus, Qinv, inject_Z. simpl.
  transitivity ((2 * (d + 500)) / (2 * 1000)).
  - f_equal; lia.
  - apply Z.div_mul_cancel_l; lia.
Qed.

Lemma nearest_second d :
  -500 < 1000 * ((d + 500) / 1000) - d ≤ 500.
Proof.
  pose proof (Z.div_mod (d + 500) 1000).
  pose proof (Z.mod_pos_bound (d + 500) 1000). lia.
Qed.

Lemma exceedsHalt_spec d :
  exceedsHalt (Some (inject_Z d / 1000)%Q) = true ↔
  HealthConfig.CHAIN_HALT_THRESHOLD_SECONDS * 1000 < d.
Proof.
  unfold exceedsHalt, HealthConfig.CHAIN_HALT_THRESHOLD_SECONDS.
  destruct (Qlt_le_dec _ _) as [Hlt|Hle].
  - unfold Qlt, Qdiv, Qmult, Qinv, inject_Z in Hlt. simpl in Hlt.
    split; [lia | done].
  - unfold Qle, Qdiv, Qmult, Qinv, inject_Z in Hle. simpl in Hle.
    split; [done | lia].
Qed.

Lemma withPeerCount_other ep (details : jsobj jsval) k :
  k ≠ "peerCount" →
  obj_get k (withPeerCount E ep details) = obj_get k details.
Proof.
  intros Hk. unfold withPeerCount.
  destruct (httpRequest E _ _) as [netRes|]; simpl; [| done].
  case_decide; simpl; [| done].
  destruct (JSON_parse E _) as [netData|]; simpl; [| done].
  destruct (member netData "result") as [res|]; simpl; [| done].
  destruct (if truthy res then _ else _) as [peers|]; simpl; [| done].
  by rewrite obj_get_set_ne.
Qed.

Lemma withBondedValidators_other ep (details : jsobj jsval) k :
  k ≠ "bondedValidators" →
  obj_get k (withBondedValidators E ep details) = obj_get k details.
Proof.
  intros Hk. unfold withBondedValidators.
  destruct (httpRequest E _ _) as [valRes|]; simpl; [| done].
  case_decide; simpl; [| done].
  destruct (JSON_parse E _) as [valData|]; simpl; [| done].
  destruct (member valData "validators") as [validators|]; simpl; [| done].
  by rewrite obj_get_set_ne.
Qed.

Lemma checkCosmosRpc_age ep (res : httpResponse) (data info : jsval)
    (blockTime : Z) :
  httpRequest E (HealthConfig.url ep +:+ "/status") (HealthConfig.timeout ep)
  = Returned res →
  statusCode res = 200 →
  JSON_parse E (body res) = Returned data →
  syncInfoOf data = Returned info →
  truthy info = true →
  Date_getTime E (opt_member info "latest_block_time") = Some blockTime →
  ∃ r, checkCosmosRpc E ep = Returned r
    ∧ Spec.aged r (Date_now E (HealthConfig.id ep) AtBlockAge - blockTime).
Proof.
  intros Hhttp Hcode Hparse Hinfo Htruthy Htime.
  unfold checkCosmosRpc. rewrite Hhttp. simpl.
  rewrite decide_False by (rewrite Hcode; intros H; by apply H).
  rewrite Hparse. simpl. rewrite Hinfo. simpl. rewrite Htruthy, Htime.
  cbn -[exceedsHalt haltMessage Math_round]. rewrite Math_round_seconds.
  set (age := Date_now E (HealthConfig.id ep) AtBlockAge - blockTime).
  destruct (exceedsHalt (Some (inject_Z age / 1000)%Q)) eqn:Hhalt.
  - eexists. split; [reflexivity |]. split; [done |]. intros _.
    split; [done |]. simpl. unfold haltMessage.
    by rewrite Math_round_seconds.
  - assert (Hnot : ¬ HealthConfig.CHAIN_HALT_THRESHOLD_SECONDS * 1000 < age).
    { rewrite <- exceedsHalt_spec. by rewrite Hhalt. }
    destruct (truthy (opt_member info "catching_up")).
    + eexists. split; [reflexivity |]. split; [done | done].
    + eexists. split; [reflexivity |]. split; [| done]. simpl.
      by rewrite withPeerCount_other.
Qed.

Lemma checkCosmosRest_age ep (res : httpResponse) (data info : jsval)
    (blockTime : Z) :
  httpRequest E
    (HealthConfig.url ep +:+ "/cosmos/base/tendermint/v1beta1/blocks/latest")
    (HealthConfig.timeout ep)
  = Returned res →
  statusCode res = 200 →
  JSON_parse E (body res) = Returned data →
  headerOf data = Returned info →
  truthy info = true →
  Date_getTime E (opt_member info "time") = Some blockTime →
  ∃ r, checkCosmosRest E ep = Returned r
    ∧ Spec.aged r (Date_now E (HealthConfig.id ep) AtBlockAge - blockTime).
Proof.
  intros Hhttp Hcode Hparse Hinfo Htruthy Htime.
  unfold checkCosmosRest. rewrite Hhttp. simpl.
  rewrite decide_False by (rewrite Hcode; intros H; by apply H).
  rewrite Hparse. simpl. rewrite Hinfo. simpl. rewrite Htruthy, Htime.
  cbn -[exceedsHalt haltMessage Math_round]. rewrite Math_round_seconds.
  set (age := Date_now E (HealthConfig.id ep) AtBlockAge - blockTime).
  destruct (exceedsHalt (Some (inject_Z age / 1000)%Q)) eqn:Hhalt.
  - eexists. split; [reflexivity |]. split; [done |]. intros _.
    split; [done |]. simpl. unfold haltMessage.
    by rewrite Math_round_seconds.
  - assert (Hnot : ¬ HealthConfig.CHAIN_HALT_THRESHOLD_SECONDS * 1000 < age).
    { rewrite <- exceedsHalt_spec. by rewrite Hhalt. }
    eexists. split; [reflexivity |]. split; [| done]. simpl.
    by rewrite withBondedValidators_other.
Qed.
End BlockAge.



(** The same block, 120 seconds old, seen through the REST probe. *)
Example cosmos_rest_example :
  let E := Spec.answering 1767607320000 1767607200000 in
  ∃ r, Health.runCheck E Spec.mainnetCosmosRest = Js.Returned r
    ∧ Health.status r = "DEGRADED"
    ∧ Health.error r = Some "Possible chain halt — last block 120s ago"
    ∧ Js.obj_get "blockAgeSec" (Health.details r)
      = Some (Js.VNum (inject_Z 120)).
Proof. intros E. eexists. repeat split; vm_compute; reflexivity. Qed.

(** A cycle over a validator, a disabled endpoint and an API while every
    connection is refused: the disabled endpoint is not checked, the
    validator is DEGRADED, the API is DOWN. *)
Example checkAll_example :
  let err :=
    Js.mkJsError "Error" "connect ECONNREFUSED" (Some "ECONNREFUSED") in
  let registry :=
    [Spec.validator1; Spec.mainnetEvmWs; Spec.dashboardApiProd] in
  ∃ r1 r2,
    Health.checkAll (Spec.failing err) registry None = Js.Returned [r1; r2]
    ∧ (Health.id r1, Health.status r1, Health.error r1)
      = ("validator-1", "DEGRADED", Some "Unreachable (likely firewalled)")
    ∧ (Health.id r2, Health.status r2, Health.error r2)
      = ("dashboard-api-prod", "DOWN", Some "connect ECONNREFUSED").
Proof.
  intros err registry. do 2 eexists.
  split; [vm_compute; reflexivity |]. split; reflexivity.
Qed.

(* ===================================================================== *)
(** * Part IV: further properties                                         *)
(* ===================================================================== *)

(** ** The cascade tree *)

Section Cascade.
Import Dashboard.
Variable graph : gmap string Graph.node.
Variable start : string.
Implicit Types (st : cascade) (x y : string) (ds : list string).

Lemma within_0 x : Terms.within graph start 0 x ↔ x = start.
Proof.
  unfold Terms.within. split; [| intros ->; constructor].
  by inversion 1.
Qed.

Lemma within_S x k :
  Terms.within graph start (S k) x ↔
  Terms.within graph start k x
  ∨ ∃ y, Terms.within graph start k y ∧ Spec.requiredByEdge graph y x.
Proof.
  unfold Terms.within. split.
  - intros H.
    apply (bsteps_ind_r
             (λ n z, match n with
                     | O => z = start
                     | S k => bsteps (Spec.requiredByEdge graph) k start z
                              ∨ ∃ y,
                                  bsteps (Spec.requiredByEdge graph) k start y
                                  ∧ Spec.requiredByEdge graph y z
                     end) start) in H; [done | |].
    + intros [|n]; [done |]. left. constructor.
    + intros n y z Hy Hyz _. right. by exists y.
  - intros [H|(y & Hy & Hyx)]; [by apply bsteps_S |].
    by eapply bsteps_r.
Qed.

Lemma within_weaken x k k' :
  (k ≤ k')%nat → Terms.within graph start k x → Terms.within graph start k' x.
Proof. intros Hle. by apply bsteps_weaken. Qed.

(** The inner [for] loop over the dependents of one id of the level. *)
Lemma cascade_visit_all (v : gset string) (nl ds : list string) :
  ∃ new,
    foldl visit (v, nl) ds = (v ∪ list_to_set ds, nl ++ new)
    ∧ NoDup new
    ∧ (∀ x, x ∈ new ↔ x ∈ ds ∧ x ∉ v).
Proof.
  revert v nl. induction ds as [|d ds IH]; intros v nl.
  - exists []. simpl. rewrite app_nil_r.
    split; [f_equal; set_solver |]. split; [constructor |].
    intros x. rewrite elem_of_nil. tauto.
  - cbn [foldl].
    assert (Hv : visit (v, nl) d =
                 if decide (d ∈ v) then (v, nl)
                 else ({[d]} ∪ v, nl ++ [d])) by done.
    rewrite Hv. clear Hv. destruct (decide (d ∈ v)) as [Hd|Hd].
    + destruct (IH v nl) as (new & Heq & Hnd & Hnew).
      exists new. rewrite Heq. split; [f_equal; set_solver |].
      split; [done |].
      intros x. rewrite Hnew, elem_of_cons. split; [tauto |].
      intros [[->|?] ?]; tauto.
    + destruct (IH ({[d]} ∪ v) (nl ++ [d])) as (new & Heq & Hnd & Hnew).
      exists (d :: new). rewrite Heq, <- app_assoc.
      split; [f_equal; set_solver |]. split.
      * constructor; [| done]. rewrite Hnew. set_solver.
      * intros x. rewrite elem_of_cons, Hnew, elem_of_cons.
        rewrite not_elem_of_union, not_elem_of_singleton.
        destruct (decide (x = d)) as [->|Hne]; tauto.
Qed.

(** The [for] loop over the level visits the dependents of all its ids,
    in order. *)
Lemma expand_all (v : gset string) (nl cur : list string) :
  foldl (expand graph) (v, nl) cur =
  foldl visit (v, nl) (cur ≫= Spec.reqsOf graph).
Proof.
  revert v nl. induction cur as [|c cur IH]; intros v nl; [done |].
  cbn [foldl]. rewrite bind_cons, foldl_app.
  assert (Hc : expand graph (v, nl) c =
               foldl visit (v, nl) (Spec.reqsOf graph c)).
  { unfold expand, Spec.reqsOf. by destruct (graph !! c). }
  rewrite Hc. destruct (foldl visit (v, nl) (Spec.reqsOf graph c)).
  apply IH.
Qed.

Lemma cascade_initial :
  Terms.cascadeInv graph start 0 (mkCascade [] {[start]} [start]).
Proof.
  unfold Terms.cascadeInv. cbn [levels visited currentLevel concat length].
  split. { intros x. rewrite within_0. set_solver. }
  split. { set_solver. }
  split. { intros x y Hx Hn. apply elem_of_singleton in Hx. subst.
           exfalso. apply Hn. left. }
  split. { intros j l Hl. by rewrite lookup_nil in Hl. }
  split; [constructor |].
  split. { intros x. rewrite elem_of_nil. set_solver. }
  split; [apply not_elem_of_nil |].
  split; [set_solver |]. split; [done |]. done.
Qed.

Lemma cascade_step k st st' :
  Terms.cascadeInv graph start k st → cascadeStep graph st = Some st' →
  Terms.cascadeInv graph start (S k) st'
  ∧ (Terms.cascadeMeasure graph start st'
     < Terms.cascadeMeasure graph start st)%nat.
Proof.
  intros (Hvis & Hcur & Hclosed & Hlev & Hnd & Hcat & Hstart & Hsub
          & Hlen & _).
  unfold cascadeStep.
  destruct (currentLevel st) as [|c cur] eqn:Hlevel; [done |].
  specialize (Hlen ltac:(done)).
  rewrite expand_all.
  remember ((c :: cur) ≫= Spec.reqsOf graph) as D eqn:HeqD.
  destruct (cascade_visit_all (visited st) [] D)
    as (next & Heq & Hnext_nd & Hnext).
  rewrite Heq. cbn [app]. intros [= <-].
  assert (HD : ∀ x, x ∈ D ↔
                    ∃ y, y ∈ c :: cur ∧ Spec.requiredByEdge graph y x).
  { intros x. rewrite HeqD, list_elem_of_bind.
    unfold Spec.requiredByEdge. naive_solver. }
  assert (Hvis' : ∀ x, x ∈ visited st ∪ list_to_set D ↔
                       Terms.within graph start (S k) x).
  { intros x. rewrite within_S, elem_of_union, elem_of_list_to_set, HD.
    split.
    - intros [Hx|(y & Hy & Hyx)]; [left; by apply Hvis |].
      right. exists y. split; [| done]. by apply Hvis, Hcur.
    - intros [Hx|(y & Hy & Hyx)]; [left; by apply Hvis |].
      apply Hvis in Hy. destruct (decide (y ∈ c :: cur)) as [Hin|Hin].
      + right. by exists y.
      + left. by apply (Hclosed y x). }
  assert (Hnew : ∀ x, x ∈ next ↔
                      Terms.within graph start (S k) x
                      ∧ ¬ Terms.within graph start k x).
  { intros x. rewrite Hnext, <- Hvis', <- Hvis, elem_of_union,
      elem_of_list_to_set. tauto. }
  assert (Hsplit : ∀ x, x ∈ visited st ∪ list_to_set D ↔
                        x ∈ visited st ∨ x ∈ next).
  { intros x. rewrite elem_of_union, elem_of_list_to_set, Hnext.
    destruct (decide (x ∈ visited st)); tauto. }
  assert (Hsub' : visited st ∪ list_to_set D
                  ⊆ {[start]} ∪ Spec.targets graph).
  { apply union_subseteq. split; [done |]. intros x Hx.
    apply elem_of_list_to_set, HD in Hx as (y & _ & Hyx).
    apply reqsOf_targets in Hyx. set_solver. }
  assert (Hsz : size (visited st ∪ list_to_set D)
                = (size (visited st) + length next)%nat).
  { assert (Hset : visited st ∪ list_to_set D
                   = visited st ∪ list_to_set next).
    { apply set_eq. intros x. rewrite Hsplit. set_solver. }
    rewrite Hset, size_union.
    - by rewrite size_list_to_set.
    - intros x Hx Hx'. apply elem_of_list_to_set, Hnext in Hx'.
      by destruct Hx'. }
  assert (Hle := subseteq_size _ _ Hsub'). rewrite Hsz in Hle.
  split.
  - unfold Terms.cascadeInv. cbn [levels visited currentLevel].
    split; [done |].
    split. { intros x Hx. apply Hsplit. by right. }
    split.
    { intros x y Hx Hnx Hxy. apply Hsplit in Hx as [Hx|Hx]; [| done].
      destruct (decide (x ∈ c :: cur)) as [Hin|Hin].
      - apply elem_of_union_r, elem_of_list_to_set, HD. by exists x.
      - apply elem_of_union_l. by apply (Hclosed x y). }
    assert (Hlevels :
      ∀ j l, (levels st ++ [next]) !! j = Some l → next ≠ [] →
             l ≠ [] ∧ ∀ x, x ∈ l ↔ Terms.within graph start (S j) x
                               ∧ ¬ Terms.within graph start j x).
    { intros j l Hl Hne. apply lookup_app_Some in Hl as [Hl|[Hj Hl]].
      - by apply Hlev.
      - apply list_lookup_singleton_Some in Hl as [Hj' <-].
        assert (j = k) as -> by lia. done. }
    destruct next as [|n next].
    + split; [done |]. split; [done |]. split; [| split; [done |]].
      * intros x. rewrite Hsplit, Hcat, elem_of_nil. tauto.
      * split; [done |]. split; [done |]. intros _ x Hx.
        rewrite Hlen in Hx |- *. apply Hvis. apply Hvis' in Hx.
        apply Hsplit in Hx as [Hx|Hx]; [done |]. by apply elem_of_nil in Hx.
    + split. { intros j l Hl. by apply Hlevels. }
      rewrite concat_app. cbn [concat]. rewrite app_nil_r.
      split.
      { apply NoDup_app. split; [done |]. split; [| done].
        intros x Hx Hx'. apply Hnext in Hx' as [_ Hx'].
        apply Hx', Hcat. by right. }
      split.
      { intros x. rewrite Hsplit, Hcat, elem_of_app. tauto. }
      split.
      { rewrite elem_of_app. intros [Hx|Hx]; [done |].
        apply Hnext in Hx as [_ Hx]. apply Hx, Hcat. by left. }
      split; [done |]. split; [| done].
      intros _. rewrite length_app. simpl. lia.
  - unfold Terms.cascadeMeasure. cbn [visited currentLevel].
    rewrite Hlevel, Hsz. destruct next; simpl in *; lia.
Qed.

Lemma cascade_runs (fuel k : nat) st :
  Terms.cascadeInv graph start k st →
  (Terms.cascadeMeasure graph start st ≤ fuel)%nat →
  ∃ k' st', while (cascadeStep graph) fuel st = Some st'
    ∧ Terms.cascadeInv graph start k' st' ∧ currentLevel st' = [].
Proof.
  revert k st. induction fuel as [|fuel IH]; intros k st Hinv Hfuel.
  - simpl. destruct (cascadeStep graph st) as [st'|] eqn:Hstep.
    + destruct (cascade_step k st st' Hinv Hstep) as [_ Hlt]. lia.
    + exists k, st. split; [done |]. split; [done |].
      unfold cascadeStep in Hstep. destruct (currentLevel st); [done |].
      by destruct (foldl _ _ _).
  - simpl. destruct (cascadeStep graph st) as [st'|] eqn:Hstep.
    + destruct (cascade_step k st st' Hinv Hstep) as [Hinv' Hlt].
      apply (IH (S k)); [done | lia].
    + exists k, st. split; [done |]. split; [done |].
      unfold cascadeStep in Hstep. destruct (currentLevel st); [done |].
      by destruct (foldl _ _ _).
Qed.

Lemma cascade_initial_measure :
  (Terms.cascadeMeasure graph start (mkCascade [] {[start]} [start])
   ≤ Spec.enoughFuel graph)%nat.
Proof.
  unfold Terms.cascadeMeasure, Spec.enoughFuel. cbn [visited currentLevel].
  assert (size ({[start]} : gset string) = 1%nat) as Hone
    by apply size_singleton.
  assert (size ({[start]} ∪ Spec.targets graph)
          ≤ size ({[start]} : gset string) + size (Spec.targets graph))%nat
    as Hle.
  { rewrite size_union_alt. apply Nat.add_le_mono_l, subseteq_size.
    set_solver. }
  lia.
Qed.

(** Beyond the last level nothing new is within reach. *)
Lemma cascade_saturated k st (d : nat) x :
  Terms.cascadeInv graph start k st → currentLevel st = [] →
  (length (levels st) ≤ d)%nat →
  Terms.within graph start (S d) x → Terms.within graph start d x.
Proof.
  intros (_ & _ & _ & _ & _ & _ & _ & _ & _ & Hsat) Hcur Hle.
  specialize (Hsat Hcur). revert x.
  induction Hle as [|d Hle IH]; [done |].
  intros x [Hx|(y & Hy & Hyx)]%within_S; [done |].
  apply within_S. right. exists y. split; [by apply IH | done].
Qed.

Lemma cascade_finished k st :
  Terms.cascadeInv graph start k st → currentLevel st = [] →
  (∀ l, l ∈ levels st → l ≠ [])
  ∧ NoDup (concat (levels st))
  ∧ (∀ (d : nat) x, (∃ l, levels st !! d = Some l ∧ x ∈ l) ↔
                    Terms.atDistance graph start (S d) x)
  ∧ (∀ x, x ∈ concat (levels st) ↔
          x ≠ start ∧ rtc (Spec.requiredByEdge graph) start x).
Proof.
  intros Hinv Hcur.
  assert (Hsat := λ d x, cascade_saturated k st d x Hinv Hcur).
  destruct Hinv as (Hvis & _ & Hclosed & Hlev & Hnd & Hcat & Hstart & _).
  split.
  { intros l [j Hl]%list_elem_of_lookup. by apply Hlev in Hl as [Hl _]. }
  split; [done |]. split.
  - intros d x. unfold Terms.atDistance. split.
    + intros (l & Hl & Hx). apply Hlev in Hl as [_ Hl].
      apply Hl in Hx as [Hx Hnx]. split; [done |].
      intros d' Hd' Hx'. apply Hnx. apply (within_weaken x d' d); [lia | done].
    + intros [Hx Hnx].
      destruct (decide (d < length (levels st))%nat) as [Hd|Hd].
      * apply lookup_lt_is_Some in Hd as [l Hl]. exists l. split; [done |].
        apply (Hlev d l Hl). split; [done |]. apply Hnx. lia.
      * exfalso. apply (Hnx d); [lia |]. apply Hsat; [lia | done].
  - intros x. split.
    + intros Hx. split; [by intros -> |].
      eapply rtc_bsteps_2, Hvis, Hcat. by right.
    + intros [Hne Hrtc].
      assert (Hx : x ∈ visited st).
      { revert x Hrtc Hne. 
        apply (rtc_ind_r (λ z, z ≠ start → z ∈ visited st) start).
        - intros _. apply Hcat. by left.
        - intros y z _ Hyz Hy _.
          assert (Hy' : y ∈ visited st).
          { destruct (decide (y = start)) as [->|Hy']; [| by apply Hy].
            apply Hcat. by left. }
          apply (Hclosed y z); [done | | done].
          rewrite Hcur. apply not_elem_of_nil. }
      apply Hcat in Hx as [Hx|Hx]; done.
Qed.
End Cascade.

(** X1. [buildCascadeTree] finishes on every graph, cyclic or not, and
    groups the affected ids by distance: level [d] (counting from 0)
    holds exactly the ids whose shortest chain of [requiredBy] edges from
    the start id has [d + 1] edges.  No level is empty and no id is
    listed twice, in one level or in two. *)
Theorem buildCascadeTree_levels (graph : gmap string Graph.node)
    (start : string) :
  ∃ levels : list (list string),
    (∀ fuel : nat, (Spec.enoughFuel graph ≤ fuel)%nat →
       Dashboard.buildCascadeTree fuel start graph = Some levels)
    ∧ (∀ l, l ∈ levels → l ≠ [])
    ∧ NoDup (concat levels)
    ∧ ∀ (d : nat) (x : string),
        (∃ l, levels !! d = Some l ∧ x ∈ l) ↔
        Terms.atDistance graph start (S d) x.
Proof.
  destruct (cascade_runs graph start (Spec.enoughFuel graph) 0
              (Dashboard.mkCascade [] {[start]} [start])
              (cascade_initial graph start)
              (cascade_initial_measure graph start))
    as (k & st & Hrun & Hinv & Hcur).
  destruct (cascade_finished graph start k st Hinv Hcur)
    as (Hne & Hnd & Hdist & _).
  exists (Dashboard.levels st). split; [| done].
  intros fuel Hfuel. unfold Dashboard.buildCascadeTree.
  by rewrite (while_more_fuel _ _ fuel _ _ Hrun Hfuel).
Qed.

(** X2. The cascade tree and the two traversals agree: the levels of
    [buildCascadeTree] taken together are the list that
    [getImpactedServices] returns, up to order, and there are as many ids
    in them as [getBlastRadius] counts. *)
Theorem cascade_is_blast_radius (graph : gmap string Graph.node)
    (start : string) :
  ∃ (levels : list (list string)) (impacted : list string),
    concat levels ≡ₚ impacted
    ∧ (∀ x, x ∈ concat levels ↔
            x ≠ start ∧ rtc (Spec.requiredByEdge graph) start x)
    ∧ ∀ fuel : nat, (Spec.enoughFuel graph ≤ fuel)%nat →
        Dashboard.buildCascadeTree fuel start graph = Some levels
        ∧ App.getBlastRadius fuel start graph
          = Some (length (concat levels))
        ∧ ∀ ENDPOINTS : list HealthConfig.endpoint,
            HealthConfig.getDependencyGraph ENDPOINTS = Js.Returned graph →
            HealthConfig.getImpactedServices ENDPOINTS fuel start
            = Some (Js.Returned impacted).
Proof.
  destruct (cascade_runs graph start (Spec.enoughFuel graph) 0
              (Dashboard.mkCascade [] {[start]} [start])
              (cascade_initial graph start)
              (cascade_initial_measure graph start))
    as (k & st & Hrun & Hinv & Hcur).
  destruct (cascade_finished graph start k st Hinv Hcur)
    as (_ & Hnd & _ & Hreach).
  destruct (bfs_runs graph start (Spec.enoughFuel graph)
              (HealthConfig.mkBfs [start] {[start]} [])
              (initial_inv graph start) (initial_measure graph start))
    as (bst & Hbrun & Hbinv & Hq).
  destruct (finished_reaches graph start bst Hbinv Hq) as [Hbnd Hbreach].
  assert (Hperm : concat (Dashboard.levels st) ≡ₚ HealthConfig.impacted bst).
  { apply NoDup_Permutation; [done | done |].
    intros x. by rewrite Hreach, Hbreach. }
  exists (Dashboard.levels st), (HealthConfig.impacted bst).
  split; [done |]. split; [done |].
  intros fuel Hfuel. split.
  { unfold Dashboard.buildCascadeTree.
    by rewrite (while_more_fuel _ _ fuel _ _ Hrun Hfuel). }
  split.
  - unfold App.getBlastRadius.
    change (App.mkBfs [start] {[start]} 0%nat)
      with (Spec.counting (HealthConfig.mkBfs [start] {[start]} [])).
    rewrite counting_while.
    rewrite (while_more_fuel _ _ fuel _ _ Hbrun Hfuel). simpl.
    by rewrite Hperm.
  - intros ENDPOINTS Hgraph.
    unfold HealthConfig.getImpactedServices. rewrite Hgraph.
    by rewrite (while_more_fuel _ _ fuel _ _ Hbrun Hfuel).
Qed.

(** A diamond with an edge back to the start: B and C are one step
    from A, D two steps, and A itself is not listed. *)
Example buildCascadeTree_example :
  let graph : gmap string Graph.node :=
    <["A" := Graph.mkNode [] ["B"; "C"]]>
      (<["B" := Graph.mkNode ["A"] ["D"; "A"]]>
         (<["C" := Graph.mkNode ["A"] ["D"]]> ∅)) in
  Dashboard.buildCascadeTree (Spec.enoughFuel graph) "A" graph
  = Some [["B"; "C"]; ["D"]].
Proof. vm_compute. reflexivity. Qed.

(** ** The history store, further *)

Section Store.
Import Js History.

Lemma chronological_last (snaps : list snapshot) latest x :
  Terms.chronological snaps → last snaps = Some latest → x ∈ snaps →
  t x ≤ t latest.
Proof.
  intros Hs [l' ->]%last_Some Hx.
  apply elem_of_app in Hx as [Hx|Hx].
  - unfold Terms.chronological in Hs.
    apply StronglySorted_app in Hs as (Hle & _ & _).
    apply Hle; [done | left].
  - apply list_elem_of_singleton in Hx. subst. lia.
Qed.

Lemma point_encode (results : list result) k :
  point k (mkSnapshot 0 (encode results)) =
  Terms.pointOf <$> last (filter (λ r, id r = k) results).
Proof.
  unfold point. cbn [ep]. rewrite encode_get.
  destruct (last (filter (λ r, id r = k) results)) as [r|]; [| done].
  simpl. f_equal. unfold Terms.pointOf, statusCode.
  repeat case_decide; try done; naive_solver.
Qed.

Lemma countPresent_length k (snaps : list snapshot) :
  (Spec.countPresent k snaps ≤ length snaps)%nat.
Proof. unfold Spec.countPresent. apply length_filter. Qed.

(** The integer that the uptime of [up] out of [total] is a hundredth
    of. *)
Lemma uptime_hundredths (total up : nat) :
  (0 < total)%nat → (up ≤ total)%nat →
  ∃ n : Z, uptimeValue total up = (inject_Z n / 100)%Q
    ∧ 0 ≤ n ≤ 10000
    ∧ (Z.of_nat total < 20000 →
       (n = 10000 ↔ up = total) ∧ (n = 0 ↔ up = 0%nat)).
Proof.
  intros Htotal Hup. rewrite uptimeValue_pos by done.
  set (a := 20000 * Z.of_nat up + Z.of_nat total).
  set (b := 2 * Z.of_nat total).
  exists (a / b). split; [done |].
  assert (Hb : 0 < b) by (unfold b; lia).
  assert (Hlo : b * (a / b) ≤ a) by (apply Z.mul_div_le; lia).
  assert (Hhi : a < b * (a / b) + b).
  { pose proof (Z.mul_succ_div_gt a b Hb). lia. }
  assert (H0 : 0 ≤ a / b) by (apply Z.div_pos; unfold a; lia).
  remember (a / b) as n eqn:Hn. clear Hn.
  assert (Hbn : b * n = 2 * (Z.of_nat total * n)) by (unfold b; lia).
  rewrite Hbn in Hlo, Hhi. unfold a, b in *. clear Hbn Hb.
  remember (Z.of_nat total) as T eqn:HT.
  remember (Z.of_nat up) as U eqn:HU.
  assert (HUT : 0 ≤ U ≤ T) by lia. assert (HT0 : 0 < T) by lia.
  assert (Hmax : n ≤ 10000).
  { destruct (Z_le_gt_dec n 10000) as [|Hgt]; [done |].
    assert (T * 10001 ≤ T * n) by (apply Z.mul_le_mono_nonneg_l; lia).
    lia. }
  split; [lia |]. intros Hsmall. split; split.
  - intros ->. lia.
  - intros Heq. assert (U = T) as -> by lia.
    destruct (Z_le_gt_dec 10000 n) as [|Hlt]; [lia |].
    assert (T * n ≤ T * 9999) by (apply Z.mul_le_mono_nonneg_l; lia).
    lia.
  - intros ->. lia.
  - intros Heq. assert (U = 0) as -> by lia.
    destruct (Z_le_gt_dec n 0) as [|Hgt]; [lia |].
    assert (T * 1 ≤ T * n) by (apply Z.mul_le_mono_nonneg_l; lia).
    lia.
Qed.

Lemma recordSnapshot_length now (h : history) (results : list result) :
  (1 ≤ length (snapshots (recordSnapshot now h results)) ≤ MAX_SNAPSHOTS)%nat.
Proof.
  rewrite recordSnapshot_snapshots, slice_last_length, length_app.
  unfold MAX_SNAPSHOTS. simpl. lia.
Qed.

Lemma recorded_keys now (h : history) (results : list result) k :
  (is_Some (obj_get k (getSparklines (recordSnapshot now h results)))
   ↔ ∃ r, r ∈ results ∧ id r = k)
  ∧ (is_Some (obj_get k (getUptimes (recordSnapshot now h results)))
     ↔ ∃ r, r ∈ results ∧ id r = k).
Proof.
  pose proof (recordSnapshot_last now h results) as Hlast.
  rewrite (getSparklines_get _ _ k Hlast), (getUptimes_get _ _ k Hlast).
  cbn [ep]. rewrite <- (encode_keys results k).
  case_decide; split; split; intros H'; try done; by destruct H'.
Qed.
End Store.

(** X3. Whatever the stored history holds, even more snapshots than the
    capacity, the history after [recordSnapshot] has between 1 and 120
    snapshots: the new one, last, preceded by the most recent earlier
    ones in their old order. *)
Theorem recordSnapshot_bounded (now : Z) (h : History.history)
    (results : list History.result) :
  let new := History.mkSnapshot now (History.encode results) in
  let stored := History.snapshots (History.recordSnapshot now h results) in
  (1 ≤ length stored ≤ History.MAX_SNAPSHOTS)%nat
  ∧ last stored = Some new
  ∧ stored `suffix_of` (History.snapshots h ++ [new])
  ∧ ((History.MAX_SNAPSHOTS ≤ length (History.snapshots h))%nat →
     length stored = History.MAX_SNAPSHOTS
     ∧ ∀ old, old ∈ stored → old = new ∨
         old ∈ drop (length (History.snapshots h) + 1 - History.MAX_SNAPSHOTS)
                    (History.snapshots h)).
Proof.
  intros new stored.
  assert (Hlast : last stored = Some new) by apply recordSnapshot_last.
  assert (Hstored : stored = History.slice_last History.MAX_SNAPSHOTS
                               (History.snapshots h ++ [new]))
    by apply recordSnapshot_snapshots.
  clearbody stored. subst stored.
  split.
  { rewrite slice_last_length, length_app. unfold History.MAX_SNAPSHOTS.
    simpl. lia. }
  split; [done |].
  split; [apply suffix_drop |].
  intros Hfull. split.
  { rewrite slice_last_length, length_app. simpl. lia. }
  intros old. unfold History.slice_last.
  rewrite length_app. cbn [length].
  rewrite drop_app_le by (unfold History.MAX_SNAPSHOTS in *; lia).
  rewrite elem_of_app, list_elem_of_singleton. tauto.
Qed.

(** X4. [recordSnapshot] keeps the snapshots in the order of their
    times, provided they were in that order and the clock has not gone
    back behind the latest of them. *)
Theorem recordSnapshot_chronological (now : Z) (h : History.history)
    (results : list History.result) :
  Terms.chronological (History.snapshots h) →
  (∀ latest, last (History.snapshots h) = Some latest →
             History.t latest ≤ now) →
  Terms.chronological
    (History.snapshots (History.recordSnapshot now h results))
  ∧ 0 ≤ Api.span (History.snapshots (History.recordSnapshot now h results)).
Proof.
  intros Hsorted Hnow.
  assert (Hall : Terms.chronological
                   (History.snapshots h
                    ++ [History.mkSnapshot now (History.encode results)])).
  { apply StronglySorted_app_2; [| done | repeat constructor].
    intros x1 x2 Hx1 ->%list_elem_of_singleton. cbn [History.t].
    destruct (last (History.snapshots h)) as [latest|] eqn:Hlast.
    - pose proof (chronological_last _ _ _ Hsorted Hlast Hx1).
      specialize (Hnow latest eq_refl). lia.
    - apply last_None in Hlast. rewrite Hlast in Hx1.
      by apply elem_of_nil in Hx1. }
  assert (Hstored : Terms.chronological
            (History.snapshots (History.recordSnapshot now h results))).
  { rewrite recordSnapshot_snapshots. unfold History.slice_last.
    rewrite <- (take_drop
                  (length (History.snapshots h
                           ++ [History.mkSnapshot now (History.encode results)])
                   - History.MAX_SNAPSHOTS)) in Hall.
    by apply StronglySorted_app_1_r in Hall. }
  split; [done |].
  unfold Api.span.
  destruct (History.snapshots (History.recordSnapshot now h results))
    as [|first rest] eqn:Hsnaps; [done |].
  cbn [head].
  destruct (last (first :: rest)) as [latest|] eqn:Hlast; [| done].
  case_decide; [| done].
  assert (History.t first ≤ History.t latest) as Hle.
  { apply (chronological_last (first :: rest)); [done | done | left]. }
  unfold Js.Math_round.
  assert (0 <= inject_Z (History.t latest - History.t first) / 60000
               + (1 # 2))%Q as Hq.
  { unfold Qle, Qdiv, Qmult, Qplus, Qinv, inject_Z. simpl. lia. }
  apply Qfloor_resp_le in Hq. simpl in Hq. exact Hq.
Qed.

Lemma recordSnapshot_chronological_witness :
  let h :=
    History.mkHistory [History.mkSnapshot 10 []; History.mkSnapshot 40 []] in
  Terms.chronological (History.snapshots h)
  ∧ (∀ latest, last (History.snapshots h) = Some latest →
               History.t latest ≤ 70)
  ∧ Terms.chronological (History.snapshots (History.recordSnapshot 70 h [])).
Proof.
  assert (H1 : Terms.chronological
                 [History.mkSnapshot 10 []; History.mkSnapshot 40 []]).
  { repeat constructor. simpl. lia. }
  assert (H2 : ∀ latest,
             last [History.mkSnapshot 10 []; History.mkSnapshot 40 []]
             = Some latest → History.t latest ≤ 70).
  { intros latest [= <-]. simpl. lia. }
  split; [exact H1 |]. split; [exact H2 |].
  exact (proj1 (recordSnapshot_chronological 70
                  (History.mkHistory
                     [History.mkSnapshot 10 []; History.mkSnapshot 40 []])
                  [] H1 H2)).
Defined.




(** ** The order of the incidents *)

Section IncidentOrder.
Import Js History.

Lemma StronglySorted_filter {A} (R : relation A) (P : A → Prop)
    `{!∀ x, Decision (P x)} (l : list A) :
  StronglySorted R l → StronglySorted R (filter P l).
Proof.
  induction 1 as [|x l Hl IH Hx]; [constructor |].
  rewrite filter_cons. case_decide; [| done].
  constructor; [done |].
  rewrite Forall_forall in Hx |- *.
  intros y [_ Hy]%list_elem_of_filter. by apply Hx.
Qed.

Lemma observations_times id (snaps : list snapshot) o :
  o ∈ Spec.observations id snaps → ∃ snap, snap ∈ snaps ∧ o.1 = t snap.
Proof.
  unfold Spec.observations. rewrite list_elem_of_omap.
  intros (snap & Hsnap & Ho). exists snap. split; [done |].
  destruct (obj_get id (ep snap)); simplify_eq/=. done.
Qed.

Lemma observations_sorted id (snaps : list snapshot) :
  Terms.strictlyChronological snaps →
  StronglySorted (λ a b : Z * Z, a.1 < b.1) (Spec.observations id snaps).
Proof.
  induction 1 as [|snap snaps Hs IH Hsnap]; [constructor |].
  rewrite observations_cons.
  destruct (obj_get id (ep snap)) as [e|]; [| done].
  constructor; [done |].
  rewrite Forall_forall in Hsnap. rewrite Forall_forall.
  intros o (snap' & Hin & ->)%observations_times. simpl. by apply Hsnap.
Qed.

Lemma observations_app id (snaps1 snaps2 : list snapshot) :
  Spec.observations id (snaps1 ++ snaps2) =
  Spec.observations id snaps1 ++ Spec.observations id snaps2.
Proof. unfold Spec.observations. apply omap_app. Qed.

Lemma transitions_times id prev (obs : list (Z * Z)) r :
  r ∈ Spec.transitions id prev obs → ∃ o, o ∈ obs ∧ at_ r = o.1.
Proof.
  revert prev. induction obs as [|[at' curr] obs IH]; intros prev; simpl.
  { by intros ?%elem_of_nil. }
  intros [Hr|Hr]%elem_of_app.
  - exists (at', curr). split; [left |].
    unfold Spec.transition in Hr. destruct prev as [p|].
    + case_decide; [| by apply elem_of_nil in Hr].
      by apply list_elem_of_singleton in Hr as ->.
    + by apply elem_of_nil in Hr.
  - apply IH in Hr as (o & Ho & Hat). exists o. split; [by right | done].
Qed.

Lemma transitions_sorted id prev (obs : list (Z * Z)) :
  StronglySorted (λ a b : Z * Z, a.1 < b.1) obs →
  StronglySorted (λ a b, at_ a < at_ b) (Spec.transitions id prev obs).
Proof.
  intros Hobs. revert prev.
  induction Hobs as [|[at' curr] obs Hs IH Ho]; intros prev; [constructor |].
  simpl. apply StronglySorted_app_2; [| | apply IH].
  - intros x1 x2 Hx1 (o & Hin & ->)%transitions_times.
    rewrite Forall_forall in Ho. specialize (Ho o Hin). simpl in Ho.
    unfold Spec.transition in Hx1. destruct prev as [p|].
    + case_decide; [| by apply elem_of_nil in Hx1].
      by apply list_elem_of_singleton in Hx1 as ->.
    + by apply elem_of_nil in Hx1.
  - unfold Spec.transition. destruct prev; [| constructor].
    case_decide; repeat constructor.
Qed.

Lemma transitions_app id prev (obs1 obs2 : list (Z * Z)) :
  Spec.transitions id prev (obs1 ++ obs2) =
  Spec.transitions id prev obs1 ++
  Spec.transitions id
    (match Terms.lastCode obs1 with Some c => Some c | None => prev end) obs2.
Proof.
  revert prev. induction obs1 as [|[at' curr] obs1 IH]; intros prev; [done |].
  rewrite <- app_comm_cons. cbn [Spec.transitions].
  rewrite IH, <- app_assoc. do 3 f_equal.
  unfold Terms.lastCode. rewrite last_cons.
  by destruct (last obs1).
Qed.

Lemma increasing_rev (l : list incident) :
  StronglySorted (λ a b, at_ a < at_ b) l →
  StronglySorted Spec.newerFirst (reverse l).
Proof.
  induction 1 as [|x l Hl IH Hx]; [constructor |].
  rewrite reverse_cons. apply StronglySorted_app_2; [| done |].
  - intros x1 x2 Hx1 ->%list_elem_of_singleton.
    rewrite elem_of_reverse in Hx1.
    rewrite Forall_forall in Hx. specialize (Hx x1 Hx1).
    unfold Spec.newerFirst. lia.
  - repeat constructor.
Qed.

Lemma increasing_same_time (l : list incident) x1 x2 :
  StronglySorted (λ a b, at_ a < at_ b) l →
  x1 ∈ l → x2 ∈ l → at_ x1 = at_ x2 → x1 = x2.
Proof.
  induction 1 as [|x l Hl IH Hx]; [by intros ?%elem_of_nil |].
  rewrite Forall_forall in Hx.
  intros [->|H1]%elem_of_cons [->|H2]%elem_of_cons Heq;
    [done | | | by apply IH].
  - specialize (Hx x2 H2). lia.
  - specialize (Hx x1 H1). lia.
Qed.

Lemma getIncidents_sorted (h : history) :
  StronglySorted Spec.newerFirst (getIncidents h).
Proof.
  unfold getIncidents. destruct (snapshots h) as [|first [|second rest]];
    [constructor | constructor |]. apply sortNewestFirst_sorted.
Qed.

Lemma getIncidents_exact (h : history) id :
  Terms.strictlyChronological (snapshots h) →
  Spec.about id (getIncidents h) =
  reverse (Spec.expectedIncidents id (snapshots h)).
Proof.
  intros Hs.
  assert (Hinc : StronglySorted (λ a b, at_ a < at_ b)
                   (Spec.expectedIncidents id (snapshots h))).
  { apply transitions_sorted. by apply observations_sorted. }
  symmetry. apply (StronglySorted_unique_strong Spec.newerFirst).
  - intros x1 x2 Hx1 Hx2 H12 H21.
    rewrite elem_of_reverse in Hx1. rewrite getIncidents_about in Hx2.
    apply (increasing_same_time _ _ _ Hinc Hx1 Hx2).
    unfold Spec.newerFirst in *. lia.
  - by apply increasing_rev.
  - apply StronglySorted_filter, getIncidents_sorted.
  - rewrite reverse_Permutation. symmetry. apply getIncidents_about.
Qed.

Lemma transitions_chain id (prev : option Z) (obs : list (Z * Z)) :
  (∀ a l' p, Spec.transitions id prev obs = a :: l' → prev = Some p →
             fromStatus a = statusName p)
  ∧ ∀ l1 a b l2, Spec.transitions id prev obs = l1 ++ a :: b :: l2 →
                 toStatus a = fromStatus b.
Proof.
  revert prev. induction obs as [|[at' curr] obs IH]; intros prev.
  { split; [done |]. intros [|? ?] ? ? ?; done. }
  destruct (IH (Some curr)) as [IHhead IHchain].
  cbn [Spec.transitions]. unfold Spec.transition.
  destruct prev as [p|]; [destruct (decide (p ≠ curr)) as [Hne|Heq] |].
  - split.
    + intros a l' p' [= <- _] [= <-]. done.
    + intros [|x l1] a b l2; cbn [app].
      * intros [= <- Hrest]. cbn [toStatus]. symmetry.
        by apply (IHhead b l2 curr).
      * intros [= _ Hrest]. by apply (IHchain l1 a b l2).
  - assert (p = curr) as -> by (by destruct (decide (p = curr))).
    split; [| done]. intros a l' p' Hrun [= <-]. by apply (IHhead a l').
  - split; [done | done].
Qed.

Lemma strictly_snoc (snaps : list snapshot) (new : snapshot) :
  Terms.strictlyChronological snaps →
  (∀ latest, last snaps = Some latest → t latest < t new) →
  Terms.strictlyChronological (snaps ++ [new]).
Proof.
  intros Hs Hnew. apply StronglySorted_app_2; [| done | repeat constructor].
  intros x1 x2 Hx1 ->%list_elem_of_singleton.
  destruct (last snaps) as [latest|] eqn:Hlast.
  - specialize (Hnew latest eq_refl).
    apply last_Some in Hlast as [l' ->].
    apply StronglySorted_app in Hs as (Hlt & _ & _).
    apply elem_of_app in Hx1 as [Hx1|Hx1].
    + specialize (Hlt x1 latest Hx1 ltac:(left)). simpl in Hlt. lia.
    + by apply list_elem_of_singleton in Hx1 as ->.
  - apply last_None in Hlast. subst. by apply elem_of_nil in Hx1.
Qed.
End IncidentOrder.





(** ** The registry lookups and the app groups *)

Section Lookups.
Import Js HealthConfig.

Lemma truthy_str_Some (o : option string) :
  truthy_str o = true ↔ ∃ s, o = Some s ∧ s ≠ "".
Proof.
  destruct o as [s|]; simpl.
  - rewrite negb_true_iff, bool_decide_eq_false. naive_solver.
  - naive_solver.
Qed.

Lemma truthy_str_false (o : option string) s :
  truthy_str o = false → o = Some s → s = "".
Proof.
  intros Hf ->. simpl in Hf. apply negb_false_iff, bool_decide_eq_true in Hf.
  done.
Qed.

Lemma getEndpoints_filter (ENDPOINTS : list endpoint) (opts : filterOpts) e :
  e ∈ getEndpoints ENDPOINTS opts ↔ e ∈ ENDPOINTS ∧ Terms.selected opts e.
Proof.
  unfold getEndpoints, Terms.selected.
  set (s1 := match enabledOnly opts with
             | Some false => ENDPOINTS
             | _ => filter (λ e, enabled e = true) ENDPOINTS
             end).
  assert (H1 : e ∈ s1 ↔
               e ∈ ENDPOINTS
               ∧ (enabledOnly opts ≠ Some false → enabled e = true)).
  { unfold s1. destruct (enabledOnly opts) as [[|]|];
      rewrite ?list_elem_of_filter; naive_solver. }
  set (s2 := if truthy_str (optCategory opts)
             then filter (λ e, Some (category e) = optCategory opts) s1
             else s1).
  assert (H2 : e ∈ s2 ↔
               e ∈ s1
               ∧ (∀ c, optCategory opts = Some c → c ≠ "" → category e = c)).
  { unfold s2. destruct (truthy_str (optCategory opts)) eqn:Hcat.
    - apply truthy_str_Some in Hcat as (c & Hc & Hc').
      rewrite list_elem_of_filter, Hc. split.
      + intros [[= ->] ?]. split; [done |]. by intros c' [= <-] _.
      + intros [? H]. split; [| done]. f_equal. by apply H.
    - split; [| tauto]. intros ?. split; [done |].
      intros c Hc Hne. by apply (truthy_str_false _ _ Hcat) in Hc. }
  assert (H3 : e ∈ (if truthy_str (optEnvironment opts)
                    then filter (λ e, environment e = optEnvironment opts) s2
                    else s2) ↔
               e ∈ s2
               ∧ (∀ v, optEnvironment opts = Some v → v ≠ "" →
                       environment e = Some v)).
  { destruct (truthy_str (optEnvironment opts)) eqn:Henv.
    - apply truthy_str_Some in Henv as (v & Hv & Hv').
      rewrite list_elem_of_filter, Hv. split.
      + intros [-> ?]. split; [done |]. by intros v' [= <-] _.
      + intros [? H]. split; [| done]. by apply H.
    - split; [| tauto]. intros ?. split; [done |].
      intros v Hv Hne. by apply (truthy_str_false _ _ Henv) in Hv. }
  rewrite H3, H2, H1. tauto.
Qed.

Lemma getEndpoints_sublist (ENDPOINTS : list endpoint) (opts : filterOpts) :
  getEndpoints ENDPOINTS opts `sublist_of` ENDPOINTS.
Proof.
  unfold getEndpoints.
  repeat first [case_match | etrans; [apply sublist_filter |] | done].
Qed.
End Lookups.

(** X9. [getEndpoints] returns, in registry order, the endpoints that
    pass every filter given: enabled unless [enabledOnly] is [false],
    of the category and of the environment asked for.  A filter that is
    the empty string is no filter.  An endpoint that declares no
    environment is left out by every environment filter, also by the
    one for "prod", which is the environment its results report. *)
Theorem getEndpoints_selects (ENDPOINTS : list HealthConfig.endpoint)
    (opts : HealthConfig.filterOpts) :
  HealthConfig.getEndpoints ENDPOINTS opts `sublist_of` ENDPOINTS
  ∧ (∀ e, e ∈ HealthConfig.getEndpoints ENDPOINTS opts ↔
          e ∈ ENDPOINTS ∧ Terms.selected opts e)
  ∧ HealthConfig.getEndpoints ENDPOINTS
      (HealthConfig.mkOpts (HealthConfig.enabledOnly opts) (Some "") (Some ""))
    = HealthConfig.getEndpoints ENDPOINTS
        (HealthConfig.mkOpts (HealthConfig.enabledOnly opts) None None)
  ∧ ∀ e, HealthConfig.environment e = None →
      (Js.truthy_str (HealthConfig.optEnvironment opts) = true →
       e ∉ HealthConfig.getEndpoints ENDPOINTS opts)
      ∧ ∀ status ms details error,
          Health.environment (Health.result e status ms details error)
          = "prod".
Proof.
  split; [apply getEndpoints_sublist |].
  split; [apply getEndpoints_filter |].
  split; [done |].
  intros e Hnone. split.
  - intros (v & Hv & Hne)%truthy_str_Some
      [_ (_ & _ & Hsel)]%getEndpoints_filter.
    specialize (Hsel v Hv Hne). congruence.
  - intros status ms details error. unfold Health.result.
    cbn [Health.environment]. by rewrite Hnone.
Qed.

Section AppGroups.
Import Js Groups.

Lemma claimed_from (groups : list appGroup) (acc : gset string) x :
  x ∈ foldl (λ claimed g,
               if decide (id g = "external") then claimed
               else foldl (λ claimed e, {[e]} ∪ claimed) claimed (endpoints g))
            acc groups
  ↔ x ∈ acc ∨ Terms.claimedBy groups x.
Proof.
  revert acc. induction groups as [|g groups IH]; intros acc.
  { unfold Terms.claimedBy. set_solver. }
  cbn [foldl]. rewrite IH.
  assert (Hinner : ∀ (es : list string) (a : gset string),
            x ∈ foldl (λ claimed e, {[e]} ∪ claimed) a es ↔ x ∈ a ∨ x ∈ es).
  { induction es as [|e es IHes]; intros a; [set_solver |].
    cbn [foldl]. rewrite IHes. set_solver. }
  unfold Terms.claimedBy. case_decide as Hg.
  - split.
    + intros [?|(g' & Hin & Hne & Hx)]; [by left |].
      right. exists g'. split; [by right | done].
    + intros [?|(g' & Hin & Hne & Hx)]; [by left |].
      apply elem_of_cons in Hin as [->|Hin]; [done |].
      right. by exists g'.
  - rewrite Hinner. split.
    + intros [[?|Hx]|(g' & Hin & Hne & Hx)]; [by left | |].
      * right. exists g. split; [left | done].
      * right. exists g'. split; [by right | done].
    + intros [?|(g' & Hin & Hne & Hx)]; [by left; left |].
      apply elem_of_cons in Hin as [->|Hin]; [by left; right |].
      right. by exists g'.
Qed.

Lemma claimed_spec (groups : list appGroup) x :
  x ∈ claimed groups ↔ Terms.claimedBy groups x.
Proof. unfold claimed. rewrite claimed_from. set_solver. Qed.

Lemma pushExternal_found x (l1 l2 : list appGroup) g :
  Forall (λ g', id g' ≠ "external") l1 → id g = "external" →
  pushExternal x (l1 ++ g :: l2) =
  Returned (l1 ++ mkGroup (id g) (name g) (endpoints g ++ [x]) :: l2).
Proof.
  intros Hl1 Hg. induction Hl1 as [|g' l1 Hg' _ IH]; simpl.
  - by rewrite decide_True.
  - rewrite decide_False by done. by rewrite IH.
Qed.

Lemma pushExternal_missing x (groups : list appGroup) :
  Forall (λ g', id g' ≠ "external") groups →
  pushExternal x groups = Thrown (HealthConfig.undefinedNode "endpoints").
Proof.
  induction 1 as [|g' l1 Hg' _ IH]; simpl; [done |].
  rewrite decide_False by done. by rewrite IH.
Qed.

Lemma find_external (groups : list appGroup) :
  Forall (λ g', id g' ≠ "external") groups
  ∨ ∃ l1 g l2, groups = l1 ++ g :: l2
      ∧ Forall (λ g', id g' ≠ "external") l1 ∧ id g = "external".
Proof.
  induction groups as [|g groups [IH|(l1 & g' & l2 & -> & Hl1 & Hg')]].
  - left. constructor.
  - destruct (decide (id g = "external")) as [Hg|Hg].
    + right. exists [], g, groups. by repeat split.
    + left. by constructor.
  - destruct (decide (id g = "external")) as [Hg|Hg].
    + right. exists [], g, (l1 ++ g' :: l2). by repeat split.
    + right. exists (g :: l1), g', l2. repeat split; [| done]. by constructor.
Qed.

Lemma fill_loop (P : HealthConfig.endpoint → Prop) `{!∀ ep, Decision (P ep)}
    (eps : list HealthConfig.endpoint) (l1 l2 : list appGroup) g :
  Forall (λ g', id g' ≠ "external") l1 → id g = "external" →
  forEach (λ groups ep,
             if decide (P ep) then pushExternal (HealthConfig.id ep) groups
             else mret groups)
          (l1 ++ g :: l2) eps
  = Returned (l1 ++ mkGroup (id g) (name g)
                      (endpoints g ++ (HealthConfig.id <$> filter P eps))
                    :: l2).
Proof.
  intros Hl1. revert g. induction eps as [|ep eps IH]; intros g Hg.
  { simpl. rewrite app_nil_r. by destruct g. }
  cbn [forEach]. rewrite filter_cons. case_decide.
  - rewrite pushExternal_found by done. cbn [mbind outcome_bind].
    rewrite IH by done. cbn [id name endpoints].
    by rewrite <- app_assoc.
  - cbn [mret outcome_ret mbind outcome_bind]. by apply IH.
Qed.
End AppGroups.





(** ** The app cards *)

Section Cards.
Import Js Dashboard.

Lemma worst_flags (endpoints : list Health.checkResult)
    (hasDown hasDegraded : bool) :
  foldl (λ '(hasDown, hasDegraded) ep,
           if decide (Health.status ep = "DOWN") then (true, hasDegraded)
           else if decide (Health.status ep = "DEGRADED")
                then (hasDown, true)
                else (hasDown, hasDegraded))
        (hasDown, hasDegraded) endpoints
  = (hasDown
     || bool_decide (Exists (λ ep, Health.status ep = "DOWN") endpoints),
     hasDegraded
     || bool_decide (Exists (λ ep, Health.status ep = "DEGRADED") endpoints)).
Proof.
  revert hasDown hasDegraded.
  induction endpoints as [|ep eps IH]; intros hasDown hasDegraded.
  { cbn [foldl]. rewrite !bool_decide_eq_false_2, !orb_false_r; [done | |];
      by intros ?%Exists_nil. }
  cbn [foldl].
  destruct (decide (Health.status ep = "DOWN")) as [Hd|Hd].
  - rewrite IH. f_equal.
    + rewrite orb_true_l. symmetry. rewrite orb_true_iff. right.
      apply bool_decide_eq_true. by left.
    + f_equal. apply bool_decide_ext. rewrite Exists_cons, Hd. naive_solver.
  - destruct (decide (Health.status ep = "DEGRADED")) as [Hg|Hg];
      rewrite IH; f_equal.
    + f_equal. apply bool_decide_ext. rewrite Exists_cons. naive_solver.
    + rewrite orb_true_l. symmetry. rewrite orb_true_iff. right.
      apply bool_decide_eq_true. by left.
    + f_equal. apply bool_decide_ext. rewrite Exists_cons. naive_solver.
    + f_equal. apply bool_decide_ext. rewrite Exists_cons. naive_solver.
Qed.
End Cards.

(** X12. The status of an app card is the worst status among its
    endpoints: "down" exactly when some endpoint is DOWN, "degraded"
    exactly when none is DOWN and some is DEGRADED, and "up" otherwise,
    also for a card without endpoints; the order of the endpoints does
    not matter. *)
Theorem computeWorstStatus_worst (endpoints : list Health.checkResult) :
  let some st := ∃ ep, ep ∈ endpoints ∧ Health.status ep = st in
  (Dashboard.computeWorstStatus endpoints = "down" ↔ some "DOWN")
  ∧ (Dashboard.computeWorstStatus endpoints = "degraded" ↔
     ¬ some "DOWN" ∧ some "DEGRADED")
  ∧ (Dashboard.computeWorstStatus endpoints = "up" ↔
     ¬ some "DOWN" ∧ ¬ some "DEGRADED")
  ∧ ∀ endpoints', endpoints ≡ₚ endpoints' →
      Dashboard.computeWorstStatus endpoints'
      = Dashboard.computeWorstStatus endpoints.
Proof.
  intros some.
  assert (Hval : ∀ eps,
    Dashboard.computeWorstStatus eps =
    if bool_decide (Exists (λ ep, Health.status ep = "DOWN") eps) then "down"
    else if bool_decide (Exists (λ ep, Health.status ep = "DEGRADED") eps)
         then "degraded" else "up").
  { intros eps. unfold Dashboard.computeWorstStatus. by rewrite worst_flags. }
  assert (Hsome : ∀ st, Exists (λ ep, Health.status ep = st) endpoints
                        ↔ some st).
  { intros st. apply Exists_exists. }
  rewrite <- !Hsome.
  split; [| split; [| split]].
  - rewrite Hval. repeat case_bool_decide; naive_solver.
  - rewrite Hval. repeat case_bool_decide; naive_solver.
  - rewrite Hval. repeat case_bool_decide; naive_solver.
  - intros endpoints' Hperm. rewrite !Hval.
    rewrite (bool_decide_ext
               (Exists (λ ep, Health.status ep = "DOWN") endpoints')
               (Exists (λ ep, Health.status ep = "DOWN") endpoints))
      by (by rewrite Hperm).
    rewrite (bool_decide_ext
               (Exists (λ ep, Health.status ep = "DEGRADED") endpoints')
               (Exists (λ ep, Health.status ep = "DEGRADED") endpoints))
      by (by rewrite Hperm).
    done.
Qed.

Section GroupSparkline.
Import Js Dashboard.
Implicit Types (s : list (option Z)) (eps : list (list (option Z))).

Lemma Math_round_ratio (a : Z) (b : positive) :
  Math_round (inject_Z a / inject_Z (Z.pos b)) =
  (2 * a + Z.pos b) / (2 * Z.pos b).
Proof.
  unfold Math_round, Qfloor, Qdiv, Qmult, Qplus, Qinv, inject_Z. simpl.
  f_equal; lia.
Qed.

Lemma total_bounds (l : list Z) (lo hi : Z) :
  (∀ w, w ∈ l → lo ≤ w ≤ hi) →
  lo * Z.of_nat (length l) ≤ Terms.total l ≤ hi * Z.of_nat (length l).
Proof.
  induction l as [|w l IH]; intros Hl; [simpl; lia |].
  assert (lo ≤ w ≤ hi) by (apply Hl; left).
  assert (lo * Z.of_nat (length l) ≤ Terms.total l ≤ hi * Z.of_nat (length l))
    by (apply IH; intros w' Hw'; apply Hl; by right).
  cbn [length Terms.total foldr]. fold (Terms.total l). lia.
Qed.

(** The rounded mean of a list lies between its least and its greatest
    element. *)
Lemma round_mean_bounds (l : list Z) (lo hi : Z) :
  l ≠ [] → (∀ w, w ∈ l → lo ≤ w ≤ hi) →
  lo ≤ Math_round (inject_Z (Terms.total l)
                   / inject_Z (Z.of_nat (length l))) ≤ hi.
Proof.
  intros Hne Hl. pose proof (total_bounds l lo hi Hl) as Hsum.
  destruct l as [|w l]; [done |].
  remember (Terms.total (w :: l)) as sm eqn:Hsm. clear Hsm Hl Hne.
  cbn [length] in *.
  replace (Z.of_nat (S (length l)))
    with (Z.pos (Pos.of_succ_nat (length l))) in * by lia.
  rewrite Math_round_ratio.
  remember (Z.pos (Pos.of_succ_nat (length l))) as n eqn:Hn.
  assert (0 < n) by lia. clear Hn. split.
  - apply Z.div_le_lower_bound; lia.
  - apply Z.lt_succ_r, Z.div_lt_upper_bound; lia.
Qed.

Lemma sample_aligned (maxLen i : nat) s :
  (length s ≤ maxLen)%nat → (i < maxLen)%nat →
  sample maxLen i s =
  match Terms.aligned maxLen s i with
  | Some v => if decide (0 ≤ v) then Some v else None
  | None => None
  end.
Proof.
  intros Hlen Hi. unfold sample, Terms.aligned.
  destruct (decide (maxLen - length s ≤ i)%nat) as [Hle|Hgt].
  - rewrite decide_True by lia.
    replace (Z.to_nat (Z.of_nat i - (Z.of_nat maxLen - Z.of_nat (length s))))
      with (i - (maxLen - length s))%nat by lia.
    by destruct (s !! (i - (maxLen - length s))%nat) as [[v|]|].
  - rewrite decide_False by lia. done.
Qed.

Lemma combined_fold (maxLen i : nat) eps (sum : Z) (count : nat) :
  foldl (λ '(sum, count) s,
           match sample maxLen i s with
           | Some v => (sum + v, S count)
           | None => (sum, count)
           end)
        (sum, count) eps
  = (sum + Terms.total (omap (sample maxLen i) eps),
     (count + length (omap (sample maxLen i) eps))%nat).
Proof.
  revert sum count. induction eps as [|s eps IH]; intros sum count.
  { simpl. f_equal; lia. }
  cbn [foldl omap list_omap]. destruct (sample maxLen i s) as [v|].
  - rewrite IH. cbn [Terms.total foldr length].
    fold (Terms.total (omap (sample maxLen i) eps)).
    f_equal; lia.
  - apply IH.
Qed.

Lemma combinedAt_mean (maxLen i : nat) eps :
  combinedAt maxLen eps i =
  match omap (sample maxLen i) eps with
  | [] => None
  | v :: values =>
      Some (Math_round (inject_Z (Terms.total (v :: values))
                        / inject_Z (Z.of_nat (length (v :: values)))))
  end.
Proof.
  unfold combinedAt. rewrite combined_fold.
  destruct (omap (sample maxLen i) eps) as [|v values].
  { by rewrite decide_False by (simpl; lia). }
  rewrite decide_True by (simpl; lia). by rewrite Z.add_0_l.
Qed.

Lemma member_filter (endpoints : list Health.checkResult)
    (sparklines : jsobj (list (option Z))) s :
  s ∈ filter (λ s, (0 < length s)%nat)
        (omap (λ ep, obj_get (Health.id ep) sparklines) endpoints)
  ↔ Terms.memberSparkline endpoints sparklines s.
Proof.
  unfold Terms.memberSparkline.
  rewrite list_elem_of_filter, list_elem_of_omap.
  destruct s; simpl; split; intros [? ?]; split; try done; lia.
Qed.
End GroupSparkline.


(** One card of two endpoints, the second one checked only in the last
    two cycles and DOWN in the last. *)
Example computeGroupSparkline_example :
  let r i := Health.result
               (HealthConfig.mkEndpoint i i "apis" None "" "http-get" 10000
                  true None None) "UP" 0 [] None in
  Dashboard.computeGroupSparkline [r "a"; r "b"; r "c"]
    (Some [("a", [Some 10; Some 20; Some 31]); ("b", [Some 41; Some (-1)])])
  = Some [Some 10; Some 31; Some 31].
Proof. vm_compute. reflexivity. Qed.

(** ** The plain HTTP probes *)

Section PlainProbes.
Import Js Health Probes.
Variable E : Env.
Implicit Types (ep : endpoint) (res : httpResponse).

Lemma http_message_nonempty res : err_message (httpError res) ≠ "".
Proof. done. Qed.

(** What [runCheck] makes of the error that a probe throws for a status
    code. *)
Lemma runCheck_http_error (E' : Env) ep fn res :
  CHECK_FNS E' (HealthConfig.checkType ep) = Some fn →
  fn ep = Thrown (httpError res) →
  runCheck E' ep =
  Returned (result ep "DOWN" 0 []
              (Some ("HTTP " +:+ pretty (statusCode res)))).
Proof.
  intros Hfn Hrun. rewrite (runCheck_thrown E' ep fn _ Hfn Hrun).
  assert (Hfw : firewalled ep (httpError res) = false).
  { unfold firewalled, isFirewall. simpl. apply andb_false_r. }
  rewrite Hfw. done.
Qed.

Lemma table_http_get ep :
  HealthConfig.checkType ep = "http-get" →
  CHECK_FNS (withProbes E) (HealthConfig.checkType ep)
  = Some (checkHttpGet E).
Proof. by intros ->. Qed.

Lemma table_api_health ep :
  HealthConfig.checkType ep = "api-health" →
  CHECK_FNS (withProbes E) (HealthConfig.checkType ep)
  = Some (checkApiHealth E).
Proof. by intros ->. Qed.

Lemma table_http_reachable ep :
  HealthConfig.checkType ep = "http-reachable" →
  CHECK_FNS (withProbes E) (HealthConfig.checkType ep)
  = Some (checkHttpReachable E).
Proof. by intros ->. Qed.

Lemma table_cosmos_rpc (E' : Env) ep :
  HealthConfig.checkType ep = "cosmos-rpc" →
  CHECK_FNS E' (HealthConfig.checkType ep) = Some (checkCosmosRpc E').
Proof. by intros ->. Qed.

Lemma table_cosmos_rest (E' : Env) ep :
  HealthConfig.checkType ep = "cosmos-rest" →
  CHECK_FNS E' (HealthConfig.checkType ep) = Some (checkCosmosRest E').
Proof. by intros ->. Qed.

Lemma withHealthInfo_statusCode res :
  obj_get "statusCode" (withHealthInfo E res (statusDetails res))
  = Some (VNum (inject_Z (statusCode res))).
Proof.
  unfold withHealthInfo.
  destruct (JSON_parse E (body res)) as [data|]; [| done]. simpl.
  destruct (member data "status") as [status|]; [| done]. simpl.
  destruct (member data "version") as [version|]; [| done]. simpl.
  destruct (truthy version), (truthy status);
    rewrite ?obj_get_set_ne by done; done.
Qed.

Lemma checkHttpGet_run ep res :
  httpRequest E (HealthConfig.url ep) (HealthConfig.timeout ep)
  = Returned res →
  checkHttpGet E ep =
  if decide (200 ≤ statusCode res ∧ statusCode res < 400)
  then Returned (result ep "UP" (Terms.measured E ep) (statusDetails res) None)
  else Thrown (httpError res).
Proof. intros Hreq. unfold checkHttpGet. by rewrite Hreq. Qed.

Lemma checkApiHealth_run ep res :
  httpRequest E (HealthConfig.url ep) (HealthConfig.timeout ep)
  = Returned res →
  checkApiHealth E ep =
  if decide (200 ≤ statusCode res ∧ statusCode res < 400)
  then Returned (result ep "UP" (Terms.measured E ep)
                   (withHealthInfo E res (statusDetails res)) None)
  else Thrown (httpError res).
Proof. intros Hreq. unfold checkApiHealth. by rewrite Hreq. Qed.

Lemma checkHttpReachable_run ep res :
  httpRequest E (HealthConfig.url ep) (HealthConfig.timeout ep)
  = Returned res →
  checkHttpReachable E ep =
  if decide (statusCode res < 500)
  then Returned (result ep "UP" (Terms.measured E ep) (statusDetails res) None)
  else Thrown (httpError res).
Proof. intros Hreq. unfold checkHttpReachable. by rewrite Hreq. Qed.

Lemma checkCosmosRpc_rejects ep res :
  httpRequest E (HealthConfig.url ep +:+ "/status") (HealthConfig.timeout ep)
  = Returned res →
  statusCode res ≠ 200 → checkCosmosRpc E ep = Thrown (httpError res).
Proof.
  intros Hreq Hcode. unfold checkCosmosRpc. rewrite Hreq. simpl.
  by rewrite decide_True.
Qed.

Lemma checkCosmosRest_rejects ep res :
  httpRequest E
    (HealthConfig.url ep +:+ "/cosmos/base/tendermint/v1beta1/blocks/latest")
    (HealthConfig.timeout ep)
  = Returned res →
  statusCode res ≠ 200 → checkCosmosRest E ep = Thrown (httpError res).
Proof.
  intros Hreq Hcode. unfold checkCosmosRest. rewrite Hreq. simpl.
  by rewrite decide_True.
Qed.

Lemma rejected_plain (ct : string) (code : Z) :
  ct = "http-get" ∨ ct = "api-health" →
  Terms.rejected ct code ↔ ¬ (200 ≤ code ∧ code < 400).
Proof.
  intros [Hct|Hct]; subst ct; unfold Terms.rejected;
    rewrite decide_False by done;
    (rewrite decide_False by (by intros [?|?])); lia.
Qed.

Lemma rejected_reachable (code : Z) :
  Terms.rejected "http-reachable" code ↔ ¬ code < 500.
Proof. unfold Terms.rejected. rewrite decide_True by done. lia. Qed.

Lemma rejected_cosmos (ct : string) (code : Z) :
  ct = "cosmos-rpc" ∨ ct = "cosmos-rest" →
  Terms.rejected ct code ↔ code ≠ 200.
Proof.
  intros Hct. unfold Terms.rejected.
  rewrite decide_False by (by destruct Hct; subst ct).
  by rewrite decide_True.
Qed.
End PlainProbes.

(** X14. How the probes read the HTTP status of their first answer.
    [http-get] and [api-health] accept 200 to 399, [http-reachable]
    everything below 500 (so 401 and 403 count as reachable), the two
    Cosmos probes 200 only.  A status that is not accepted makes the
    result DOWN with the error text "HTTP <status>", no details and a
    response time of 0, for an endpoint of any category; on an accepted
    status the three plain probes report UP with the status code in the
    details and the measured response time. *)
Theorem http_status_handling (E : Health.Env) (ep : HealthConfig.endpoint)
    (res : Health.httpResponse) :
  HealthConfig.checkType ep
  ∈ ["http-get"; "api-health"; "http-reachable"; "cosmos-rpc"; "cosmos-rest"] →
  Health.httpRequest E (Terms.firstRequest ep) (HealthConfig.timeout ep)
  = Js.Returned res →
  ∃ r, Health.runCheck (Probes.withProbes E) ep = Js.Returned r
    ∧ (Terms.rejected (HealthConfig.checkType ep) (Health.statusCode res) →
       Health.status r = "DOWN"
       ∧ Health.error r = Some ("HTTP " +:+ pretty (Health.statusCode res))
       ∧ Health.responseTimeMs r = 0
       ∧ Health.details r = [])
    ∧ (¬ Terms.rejected (HealthConfig.checkType ep) (Health.statusCode res) →
       HealthConfig.checkType ep
       ∈ ["http-get"; "api-health"; "http-reachable"] →
       Health.status r = "UP"
       ∧ Health.error r = None
       ∧ Health.responseTimeMs r = Terms.measured E ep
       ∧ Js.obj_get "statusCode" (Health.details r)
         = Some (Js.VNum (inject_Z (Health.statusCode res)))).
Proof.
  intros Hct Hreq. unfold Terms.firstRequest in *.
  repeat (apply elem_of_cons in Hct as [Hct|Hct]);
    [| | | | | by apply elem_of_nil in Hct].
  - rewrite Hct in Hreq |- *. simpl in Hreq.
    pose proof (rejected_plain "http-get" (Health.statusCode res)
                  (or_introl eq_refl)) as Hrej.
    setoid_rewrite Hrej. clear Hrej.
    pose proof (checkHttpGet_run E ep res Hreq) as Hrun.
    pose proof (table_http_get E ep Hct) as Hfn.
    destruct (decide (200 ≤ Health.statusCode res
                      ∧ Health.statusCode res < 400)) as [Hok|Hbad].
    + eexists. split; [by apply (runCheck_returned _ ep _ _ Hfn) |].
      split; [by intros ? | done].
    + eexists. split.
      { by apply (runCheck_http_error _ ep _ res Hfn). }
      split; [done | by intros ?].
  - rewrite Hct in Hreq |- *. simpl in Hreq.
    pose proof (rejected_plain "api-health" (Health.statusCode res)
                  (or_intror eq_refl)) as Hrej.
    setoid_rewrite Hrej. clear Hrej.
    pose proof (checkApiHealth_run E ep res Hreq) as Hrun.
    pose proof (table_api_health E ep Hct) as Hfn.
    destruct (decide (200 ≤ Health.statusCode res
                      ∧ Health.statusCode res < 400)) as [Hok|Hbad].
    + eexists. split; [by apply (runCheck_returned _ ep _ _ Hfn) |].
      split; [by intros ? |]. intros _ _.
      split; [done |]. split; [done |]. split; [done |].
      apply withHealthInfo_statusCode.
    + eexists. split.
      { by apply (runCheck_http_error _ ep _ res Hfn). }
      split; [done | by intros ?].
  - rewrite Hct in Hreq |- *. simpl in Hreq.
    setoid_rewrite rejected_reachable.
    pose proof (checkHttpReachable_run E ep res Hreq) as Hrun.
    pose proof (table_http_reachable E ep Hct) as Hfn.
    destruct (decide (Health.statusCode res < 500)) as [Hok|Hbad].
    + eexists. split; [by apply (runCheck_returned _ ep _ _ Hfn) |].
      split; [by intros ? | done].
    + eexists. split.
      { by apply (runCheck_http_error _ ep _ res Hfn). }
      split; [done | by intros ?].
  - rewrite Hct in Hreq |- *. simpl in Hreq.
    pose proof (rejected_cosmos "cosmos-rpc" (Health.statusCode res)
                  (or_introl eq_refl)) as Hrej.
    setoid_rewrite Hrej. clear Hrej.
    destruct (decide (Health.statusCode res = 200)) as [Hok|Hbad].
    + destruct (runCheck_returns (Probes.withProbes E) ep) as [r Hr].
      exists r. split; [done |].
      split; [done |]. intros _ Hin.
      repeat (apply elem_of_cons in Hin as [Hin|Hin]); try done.
      by apply elem_of_nil in Hin.
    + eexists. split.
      { apply (runCheck_http_error _ ep
                 (Health.checkCosmosRpc (Probes.withProbes E)) res).
        - by apply table_cosmos_rpc.
        - exact (checkCosmosRpc_rejects (Probes.withProbes E) ep res
                   Hreq Hbad). }
      split; [done | done].
  - rewrite Hct in Hreq |- *. simpl in Hreq.
    pose proof (rejected_cosmos "cosmos-rest" (Health.statusCode res)
                  (or_intror eq_refl)) as Hrej.
    setoid_rewrite Hrej. clear Hrej.
    destruct (decide (Health.statusCode res = 200)) as [Hok|Hbad].
    + destruct (runCheck_returns (Probes.withProbes E) ep) as [r Hr].
      exists r. split; [done |].
      split; [done |]. intros _ Hin.
      repeat (apply elem_of_cons in Hin as [Hin|Hin]); try done.
      by apply elem_of_nil in Hin.
    + eexists. split.
      { apply (runCheck_http_error _ ep
                 (Health.checkCosmosRest (Probes.withProbes E)) res).
        - by apply table_cosmos_rest.
        - exact (checkCosmosRest_rejects (Probes.withProbes E) ep res
                   Hreq Hbad). }
      split; [done | done].
Qed.

Section BodyReaders.
Import Js Health Probes.
Variable E : Env.
Implicit Types (ep : endpoint) (res : httpResponse).

Lemma withHealthInfo_spec res :
  let details := withHealthInfo E res (statusDetails res) in
  (∀ k, k ∈ obj_keys details → k ∈ ["statusCode"; "healthStatus"; "version"])
  ∧ (∀ err, JSON_parse E (body res) = Thrown err →
            details = statusDetails res)
  ∧ ∀ data, JSON_parse E (body res) = Returned data →
      obj_get "healthStatus" details
      = (if truthy (opt_member data "status")
         then Some (opt_member data "status") else None)
      ∧ obj_get "version" details
        = (if truthy (opt_member data "version")
           then Some (opt_member data "version") else None).
Proof.
  intros details. unfold details, withHealthInfo, statusDetails.
  assert (Hbase : ∀ k, k ∈ obj_keys [("statusCode",
                                      VNum (inject_Z (statusCode res)))] →
                       k ∈ ["statusCode"; "healthStatus"; "version"]).
  { intros k ->%list_elem_of_singleton. left. }
  destruct (JSON_parse E (body res)) as [data|err]; simpl.
  2:{ split; [done | split; done]. }
  destruct data as [| | |b|q|str|arr|l]; simpl;
    try (split; [done | split; [done |]]; by intros ? [= <-]).
  split; [| split; [done |]].
  - destruct (truthy (default VUndefined (obj_get "version" l))),
      (truthy (default VUndefined (obj_get "status" l))); simpl;
      intros k Hk; repeat (apply elem_of_cons in Hk as [->|Hk]);
      try (by apply elem_of_nil in Hk); set_solver.
  - intros ? [= <-]. simpl.
    destruct (truthy (default VUndefined (obj_get "version" l))),
      (truthy (default VUndefined (obj_get "status" l))); done.
Qed.

Lemma exceedsHalt_halted ep (time : jsval) :
  exceedsHalt (blockAgeOf (Date_now E (HealthConfig.id ep) AtBlockAge)
                 (Date_getTime E time)) = true
  ↔ Terms.halted E ep time.
Proof.
  unfold Terms.halted.
  destruct (Date_getTime E time) as [blockTime|]; simpl.
  - change (exceedsHalt
              (Some (inject_Z (Date_now E (HealthConfig.id ep) AtBlockAge
                               - blockTime) / 1000)%Q) = true
            ↔ ∃ blockTime0, Some blockTime = Some blockTime0
                ∧ HealthConfig.CHAIN_HALT_THRESHOLD_SECONDS * 1000
                  < Date_now E (HealthConfig.id ep) AtBlockAge - blockTime0).
    rewrite exceedsHalt_spec. naive_solver.
  - split; [done |]. by intros (? & ? & _).
Qed.

Lemma haltMessage_nonempty (blockAge : option Q) :
  truthy_str (Some (haltMessage blockAge)) = true
  ∧ haltMessage blockAge ≠ "Node is catching up".
Proof. done. Qed.
End BodyReaders.

(** X15. [api-health] takes the status code for the verdict and the body
    for decoration only: with a status from 200 to 399 the result is UP
    whether the body is JSON or not.  The details hold the status code
    and, when the body parses to an object with a truthy [status] or
    [version], that value as [healthStatus] or [version]; nothing else,
    and only the status code when the body does not parse. *)
Theorem apiHealth_reads_body (E : Health.Env) (ep : HealthConfig.endpoint)
    (res : Health.httpResponse) :
  HealthConfig.checkType ep = "api-health" →
  Health.httpRequest E (HealthConfig.url ep) (HealthConfig.timeout ep)
  = Js.Returned res →
  200 ≤ Health.statusCode res < 400 →
  ∃ r, Health.runCheck (Probes.withProbes E) ep = Js.Returned r
    ∧ Health.status r = "UP"
    ∧ Js.obj_get "statusCode" (Health.details r)
      = Some (Js.VNum (inject_Z (Health.statusCode res)))
    ∧ (∀ k, k ∈ Js.obj_keys (Health.details r) →
            k ∈ ["statusCode"; "healthStatus"; "version"])
    ∧ (∀ err, Health.JSON_parse E (Health.body res) = Js.Thrown err →
              Health.details r = Probes.statusDetails res)
    ∧ ∀ data, Health.JSON_parse E (Health.body res) = Js.Returned data →
        Js.obj_get "healthStatus" (Health.details r)
        = (if Js.truthy (Js.opt_member data "status")
           then Some (Js.opt_member data "status") else None)
        ∧ Js.obj_get "version" (Health.details r)
          = (if Js.truthy (Js.opt_member data "version")
             then Some (Js.opt_member data "version") else None).
Proof.
  intros Hct Hreq Hcode.
  pose proof (checkApiHealth_run E ep res Hreq) as Hrun.
  rewrite decide_True in Hrun by lia.
  eexists. split.
  { apply (runCheck_returned _ ep _ _ (table_api_health E ep Hct) Hrun). }
  split; [done |]. split; [apply withHealthInfo_statusCode |].
  apply withHealthInfo_spec.
Qed.

Lemma apiHealth_reads_body_witness :
  let data := Js.VObj [("status", Js.VStr "ok"); ("uptime", Js.VStr "3d")] in
  let E := Terms.replying 200 "{...}" data in
  HealthConfig.checkType Terms.passportApi = "api-health"
  ∧ Health.httpRequest E (HealthConfig.url Terms.passportApi)
      (HealthConfig.timeout Terms.passportApi)
    = Js.Returned (Health.mkResponse 200 "{...}")
  ∧ 200 ≤ 200 < 400
  ∧ ∃ r, Health.runCheck (Probes.withProbes E) Terms.passportApi
         = Js.Returned r
      ∧ Health.status r = "UP"
      ∧ Js.obj_get "healthStatus" (Health.details r) = Some (Js.VStr "ok")
      ∧ Js.obj_get "version" (Health.details r) = None.
Proof.
  intros data E.
  assert (Hcode : 200 ≤ 200 < 400) by lia.
  split; [reflexivity |]. split; [reflexivity |]. split; [exact Hcode |].
  destruct (apiHealth_reads_body E Terms.passportApi
              (Health.mkResponse 200 "{...}") eq_refl eq_refl Hcode)
    as (r & Hr & Hup & _ & _ & _ & Hbody).
  exists r. split; [exact Hr |]. split; [exact Hup |].
  exact (Hbody data eq_refl).
Defined.

Lemma http_status_handling_witness :
  let E := Terms.replying 401 "" Js.VNull in
  HealthConfig.checkType Terms.web3auth
  ∈ ["http-get"; "api-health"; "http-reachable"; "cosmos-rpc"; "cosmos-rest"]
  ∧ Health.httpRequest E (Terms.firstRequest Terms.web3auth)
      (HealthConfig.timeout Terms.web3auth)
    = Js.Returned (Health.mkResponse 401 "")
  ∧ ∃ r, Health.runCheck (Probes.withProbes E) Terms.web3auth = Js.Returned r
      ∧ Health.status r = "UP"
      ∧ Health.responseTimeMs r = 42.
Proof.
  intros E.
  assert (Hct : HealthConfig.checkType Terms.web3auth
                ∈ ["http-get"; "api-health"; "http-reachable"; "cosmos-rpc";
                   "cosmos-rest"]).
  { do 2 right. left. }
  split; [exact Hct |]. split; [reflexivity |].
  destruct (http_status_handling E Terms.web3auth (Health.mkResponse 401 "")
              Hct eq_refl) as (r & Hr & _ & Hup).
  exists r. split; [exact Hr |].
  assert (Hok : ¬ Terms.rejected (HealthConfig.checkType Terms.web3auth)
                    (Health.statusCode (Health.mkResponse 401 ""))).
  { unfold Terms.rejected. simpl. lia. }
  assert (Hplain : HealthConfig.checkType Terms.web3auth
                   ∈ ["http-get"; "api-health"; "http-reachable"]).
  { do 2 right. left. }
  destruct (Hup Hok Hplain) as (Hs & _ & Hms & _).
  split; [exact Hs | exact Hms].
Defined.

(** ** The verdicts of the Cosmos probes *)

Section CosmosVerdicts.
Import Js Health.
Variable E : Env.
Implicit Types (ep : endpoint) (res : httpResponse).

Lemma result_fields ep st ms (d : jsobj jsval) (err : option string) :
  status (result ep st ms d err) = st
  ∧ responseTimeMs (result ep st ms d err) = ms
  ∧ details (result ep st ms d err) = d
  ∧ id (result ep st ms d err) = HealthConfig.id ep
  ∧ error (result ep st ms d err) = (if truthy_str err then err else None).
Proof. done. Qed.

Lemma checkCosmosRpc_verdict ep res (data info : jsval) :
  httpRequest E (HealthConfig.url ep +:+ "/status") (HealthConfig.timeout ep)
  = Returned res →
  statusCode res = 200 →
  JSON_parse E (body res) = Returned data →
  syncInfoOf data = Returned info →
  let halted := Terms.halted E ep (opt_member info "latest_block_time") in
  let catchingUp := truthy (opt_member info "catching_up") = true in
  ∃ r, checkCosmosRpc E ep = Returned r
    ∧ (status r = "UP" ∧ error r = None
       ∨ status r = "DEGRADED" ∧ is_Some (error r))
    ∧ id r = HealthConfig.id ep
    ∧ responseTimeMs r = Terms.measured E ep
    ∧ (status r = "DEGRADED" ↔ truthy info = true ∧ (halted ∨ catchingUp))
    ∧ (status r = "UP" ↔ ¬ (truthy info = true ∧ (halted ∨ catchingUp)))
    ∧ (error r = None ↔ status r = "UP")
    ∧ (error r = Some "Node is catching up" ↔
       truthy info = true ∧ ¬ halted ∧ catchingUp)
    ∧ (truthy info = false →
       ∀ k, k ≠ "peerCount" → obj_get k (details r) = None).
Proof.
  intros Hhttp Hcode Hparse Hinfo halted catchingUp.
  unfold checkCosmosRpc. rewrite Hhttp. simpl.
  rewrite decide_False by (rewrite Hcode; intros H; by apply H).
  rewrite Hparse. simpl. rewrite Hinfo. simpl.
  destruct (truthy info) eqn:Htruthy.
  - pose proof (exceedsHalt_halted E ep (opt_member info "latest_block_time"))
      as Hhalt. fold halted in Hhalt.
    cbn -[exceedsHalt haltMessage Math_round blockAgeOf].
    destruct (exceedsHalt _) eqn:Hex.
    + assert (Hh : halted) by (by apply Hhalt).
      eexists. split; [reflexivity |].
      pose proof (haltMessage_nonempty
                    (blockAgeOf (Date_now E (HealthConfig.id ep) AtBlockAge)
                       (Date_getTime E
                          (opt_member info "latest_block_time"))))
        as [Hne Hother].
      cbn [status error responseTimeMs details id result].
      rewrite Hne. split; [right; split; [done | by eexists] |].
      split; [done |]. split; [done |]. split; [tauto |].
      split; [split; [done | tauto] |]. split; [done |].
      split; [| done]. split; [| tauto]. intros Heq. congruence.
    + assert (Hh : ¬ halted) by (rewrite <- Hhalt; congruence).
      destruct (truthy (opt_member info "catching_up")) eqn:Hcatch.
      * eexists. split; [reflexivity |].
        cbn [status error responseTimeMs details id result truthy_str].
        split; [right; split; [done | by eexists] |].
        split; [done |]. split; [done |]. split; [unfold catchingUp; tauto |].
        split; [split; [done | unfold catchingUp; tauto] |].
        split; [done |]. split; [| done]. unfold catchingUp. tauto.
      * eexists. split; [reflexivity |].
        cbn [status error responseTimeMs details id result truthy_str].
        unfold catchingUp. split; [by left |].
        split; [done |]. split; [done |].
        split; [split; [done | intros [_ [?|?]]; done] |].
        split; [split; [intros _ [_ [?|?]]; done | done] |].
        split; [done |]. split; [| done].
        split; [done | intros (_ & _ & ?); done].
  - eexists. split; [reflexivity |].
    cbn [status error responseTimeMs details id result truthy_str].
    split; [by left |].
    split; [done |]. split; [done |].
    split; [split; [done | intros [? _]; done] |].
    split; [split; [intros _ [? _]; done | done] |].
    split; [done |]. split; [split; [done | intros [? _]; done] |].
    intros _ k Hk. by rewrite withPeerCount_other.
Qed.

Lemma checkCosmosRest_verdict ep res (data header : jsval) :
  httpRequest E
    (HealthConfig.url ep +:+ "/cosmos/base/tendermint/v1beta1/blocks/latest")
    (HealthConfig.timeout ep)
  = Returned res →
  statusCode res = 200 →
  JSON_parse E (body res) = Returned data →
  headerOf data = Returned header →
  let halted := Terms.halted E ep (opt_member header "time") in
  ∃ r, checkCosmosRest E ep = Returned r
    ∧ (status r = "UP" ∧ error r = None
       ∨ status r = "DEGRADED" ∧ is_Some (error r))
    ∧ id r = HealthConfig.id ep
    ∧ responseTimeMs r = Terms.measured E ep
    ∧ (status r = "DEGRADED" ↔ truthy header = true ∧ halted)
    ∧ (status r = "UP" ↔ ¬ (truthy header = true ∧ halted))
    ∧ (error r = None ↔ status r = "UP")
    ∧ (truthy header = true →
       obj_get "chainId" (details r) = Some (opt_member header "chain_id"))
    ∧ (truthy header = false →
       ∀ k, k ≠ "bondedValidators" → obj_get k (details r) = None).
Proof.
  intros Hhttp Hcode Hparse Hinfo halted.
  unfold checkCosmosRest. rewrite Hhttp. simpl.
  rewrite decide_False by (rewrite Hcode; intros H; by apply H).
  rewrite Hparse. simpl. rewrite Hinfo. simpl.
  destruct (truthy header) eqn:Htruthy.
  - pose proof (exceedsHalt_halted E ep (opt_member header "time")) as Hhalt.
    fold halted in Hhalt.
    cbn -[exceedsHalt haltMessage Math_round blockAgeOf].
    destruct (exceedsHalt _) eqn:Hex.
    + assert (Hh : halted) by (by apply Hhalt).
      eexists. split; [reflexivity |].
      pose proof (haltMessage_nonempty
                    (blockAgeOf (Date_now E (HealthConfig.id ep) AtBlockAge)
                       (Date_getTime E (opt_member header "time"))))
        as [Hne Hother].
      cbn [status error responseTimeMs details id result].
      rewrite Hne. split; [right; split; [done | by eexists] |].
      split; [done |]. split; [done |]. split; [tauto |].
      split; [split; [done | tauto] |]. split; [done |]. split; [| done].
      intros _. done.
    + assert (Hh : ¬ halted) by (rewrite <- Hhalt; congruence).
      eexists. split; [reflexivity |].
      cbn [status error responseTimeMs details id result truthy_str].
      split; [by left |].
      split; [done |]. split; [done |].
      split; [split; [done | intros [_ ?]; done] |].
      split; [split; [intros _ [_ ?]; done | done] |].
      split; [done |]. split; [| done].
      intros _. by rewrite withBondedValidators_other.
  - eexists. split; [reflexivity |].
    cbn [status error responseTimeMs details id result truthy_str].
    split; [by left |].
    split; [done |]. split; [done |].
    split; [split; [done | intros [? _]; done] |].
    split; [split; [intros _ [? _]; done | done] |].
    split; [done |]. split; [done |].
    intros _ k Hk. by rewrite withBondedValidators_other.
Qed.
End CosmosVerdicts.




(** ** The shape of a result *)

Section Shapes.
Import Js Health Probes.
Variable E : Env.
Implicit Types (ep : endpoint) (r : checkResult).

Lemma checkHttpGet_shape ep r :
  checkHttpGet E ep = Returned r →
  id r = HealthConfig.id ep ∧ Terms.wellFormed r.
Proof.
  unfold checkHttpGet.
  destruct (httpRequest E _ _) as [res|]; [| done]. simpl.
  case_decide; [| done]. intros [= <-]. split; [done |]. by left.
Qed.

Lemma checkApiHealth_shape ep r :
  checkApiHealth E ep = Returned r →
  id r = HealthConfig.id ep ∧ Terms.wellFormed r.
Proof.
  unfold checkApiHealth.
  destruct (httpRequest E _ _) as [res|]; [| done]. simpl.
  case_decide; [| done]. intros [= <-]. split; [done |]. by left.
Qed.

Lemma checkHttpReachable_shape ep r :
  checkHttpReachable E ep = Returned r →
  id r = HealthConfig.id ep ∧ Terms.wellFormed r.
Proof.
  unfold checkHttpReachable.
  destruct (httpRequest E _ _) as [res|]; [| done]. simpl.
  case_decide; [| done]. intros [= <-]. split; [done |]. by left.
Qed.

Lemma checkCosmosRpc_shape (E' : Env) ep r :
  checkCosmosRpc E' ep = Returned r →
  id r = HealthConfig.id ep ∧ Terms.wellFormed r.
Proof.
  intros Hrun.
  destruct (httpRequest E' (HealthConfig.url ep +:+ "/status")
              (HealthConfig.timeout ep)) as [res|] eqn:Hreq.
  2:{ unfold checkCosmosRpc in Hrun. by rewrite Hreq in Hrun. }
  destruct (decide (statusCode res = 200)) as [Hcode|Hcode].
  2:{ by rewrite (checkCosmosRpc_rejects E' ep res Hreq Hcode) in Hrun. }
  destruct (JSON_parse E' (body res)) as [data|] eqn:Hparse.
  2:{ unfold checkCosmosRpc in Hrun. rewrite Hreq in Hrun. simpl in Hrun.
      rewrite decide_False in Hrun by (intros H; by apply H).
      by rewrite Hparse in Hrun. }
  destruct (syncInfoOf data) as [info|] eqn:Hinfo.
  2:{ unfold checkCosmosRpc in Hrun. rewrite Hreq in Hrun. simpl in Hrun.
      rewrite decide_False in Hrun by (intros H; by apply H).
      rewrite Hparse in Hrun. simpl in Hrun. by rewrite Hinfo in Hrun. }
  destruct (checkCosmosRpc_verdict E' ep res data info Hreq Hcode Hparse Hinfo)
    as (r' & Hr' & Hshape & Hid & _).
  rewrite Hrun in Hr'. injection Hr' as <-. split; [done |].
  unfold Terms.wellFormed. tauto.
Qed.

Lemma checkCosmosRest_shape (E' : Env) ep r :
  checkCosmosRest E' ep = Returned r →
  id r = HealthConfig.id ep ∧ Terms.wellFormed r.
Proof.
  intros Hrun.
  destruct (httpRequest E'
              (HealthConfig.url ep
               +:+ "/cosmos/base/tendermint/v1beta1/blocks/latest")
              (HealthConfig.timeout ep)) as [res|] eqn:Hreq.
  2:{ unfold checkCosmosRest in Hrun. by rewrite Hreq in Hrun. }
  destruct (decide (statusCode res = 200)) as [Hcode|Hcode].
  2:{ by rewrite (checkCosmosRest_rejects E' ep res Hreq Hcode) in Hrun. }
  destruct (JSON_parse E' (body res)) as [data|] eqn:Hparse.
  2:{ unfold checkCosmosRest in Hrun. rewrite Hreq in Hrun. simpl in Hrun.
      rewrite decide_False in Hrun by (intros H; by apply H).
      by rewrite Hparse in Hrun. }
  destruct (headerOf data) as [header|] eqn:Hinfo.
  2:{ unfold checkCosmosRest in Hrun. rewrite Hreq in Hrun. simpl in Hrun.
      rewrite decide_False in Hrun by (intros H; by apply H).
      rewrite Hparse in Hrun. simpl in Hrun. by rewrite Hinfo in Hrun. }
  destruct (checkCosmosRest_verdict E' ep res data header
              Hreq Hcode Hparse Hinfo)
    as (r' & Hr' & Hshape & Hid & _).
  rewrite Hrun in Hr'. injection Hr' as <-. split; [done |].
  unfold Terms.wellFormed. tauto.
Qed.

(** What the [catch] of [runCheck] and the unknown-type branch
    return. *)
Lemma caught_shape ep (st : string) (msg : string) :
  (st = "DOWN" ∨ st = "DEGRADED" ∧ msg ≠ "") →
  Terms.wellFormed (result ep st 0 [] (Some msg)).
Proof.
  unfold Terms.wellFormed. intros [->|[-> Hmsg]]; [by right; right |].
  right. left. split; [done |]. simpl.
  rewrite bool_decide_eq_false_2 by done. by eexists.
Qed.

End Shapes.

(** ** The handler of [/api/health] *)

Section Handler.
Import Js Health.
Variable E : Env.
Variable ENDPOINTS : list endpoint.
Implicit Types (r : checkResult) (results : list checkResult).

Lemma checkAll_runs (opts : option HealthConfig.filterOpts) :
  ∃ results,
    checkAll E ENDPOINTS opts = Returned results
    ∧ Forall2 (λ ep r, runCheck E ep = Returned r)
        (HealthConfig.getEndpoints ENDPOINTS (withEnabledOnly opts)) results.
Proof.
  unfold checkAll. eexists. split; [reflexivity |].
  induction (HealthConfig.getEndpoints ENDPOINTS (withEnabledOnly opts))
    as [|ep eps IH]; [constructor |].
  rewrite fmap_cons. cbn [zip_with]. constructor; [| done].
  destruct (runCheck_returns E ep) as [r Hr]. by rewrite Hr.
Qed.

Lemma count_statuses results :
  (Api.countStatus "UP" results + Api.countStatus "DEGRADED" results
   + Api.countStatus "DOWN" results ≤ length results)%nat
  ∧ ((∀ r, r ∈ results →
           status r = "UP" ∨ status r = "DEGRADED" ∨ status r = "DOWN") →
     (Api.countStatus "UP" results + Api.countStatus "DEGRADED" results
      + Api.countStatus "DOWN" results = length results)%nat).
Proof.
  unfold Api.countStatus. induction results as [|r results [IHle IHeq]].
  { by split. }
  rewrite !filter_cons. split.
  - repeat case_decide; simpl; try lia; congruence.
  - intros Hall.
    assert (Hr : status r = "UP" ∨ status r = "DEGRADED" ∨ status r = "DOWN")
      by (apply Hall; left).
    assert (Hrest := IHeq (λ r' Hin, Hall r' (list_elem_of_further _ _ _ Hin))).
    destruct Hr as [Hr|[Hr|Hr]]; rewrite Hr;
      repeat (case_decide; try done); simpl; lia.
Qed.

Lemma getImpactedServices_total (graph : gmap string Graph.node)
    (fuel : nat) (k : string) :
  HealthConfig.getDependencyGraph ENDPOINTS = Returned graph →
  (Spec.enoughFuel graph ≤ fuel)%nat →
  HealthConfig.getImpactedServices ENDPOINTS fuel k
  = Some (Returned (Terms.impactedOf graph k))
  ∧ NoDup (Terms.impactedOf graph k)
  ∧ ∀ x, x ∈ Terms.impactedOf graph k ↔
         x ≠ k ∧ rtc (Spec.requiredByEdge graph) k x.
Proof.
  intros Hgraph Hfuel.
  destruct (bfs_runs graph k (Spec.enoughFuel graph)
              (HealthConfig.mkBfs [k] {[k]} [])
              (initial_inv graph k) (initial_measure graph k))
    as (st & Hrun & Hinv & Hq).
  destruct (finished_reaches graph k st Hinv Hq) as [Hnd Hreach].
  assert (Himp : Terms.impactedOf graph k = HealthConfig.impacted st).
  { unfold Terms.impactedOf. by rewrite Hrun. }
  rewrite Himp. split; [| done].
  unfold HealthConfig.getImpactedServices. rewrite Hgraph.
  by rewrite (while_more_fuel _ _ fuel _ _ Hrun Hfuel).
Qed.

Lemma impactLoop_runs (graph : gmap string Graph.node) (fuel : nat)
    (impactMap : jsobj (list Api.impactEntry)) results :
  HealthConfig.getDependencyGraph ENDPOINTS = Returned graph →
  (Spec.enoughFuel graph ≤ fuel)%nat →
  Api.impactLoop ENDPOINTS fuel impactMap results
  = Some (Returned (foldl (Terms.impactAdd ENDPOINTS graph) impactMap results)).
Proof.
  intros Hgraph Hfuel. revert impactMap.
  induction results as [|r results IH]; intros impactMap; [done |].
  cbn [Api.impactLoop foldl].
  assert (Hstep : Api.impactStep ENDPOINTS fuel impactMap r
                  = Some (Returned
                            (Terms.impactAdd ENDPOINTS graph impactMap r))).
  { unfold Api.impactStep, Terms.impactAdd, Terms.failing.
    destruct (getImpactedServices_total graph fuel (id r) Hgraph Hfuel)
      as [Hrun _].
    destruct (decide (status r = "DOWN" ∨ status r = "DEGRADED")) as [Hf|Hf].
    - rewrite Hrun. destruct (Terms.impactedOf graph (id r)) eqn:Himp.
      + rewrite decide_False by (intros [_ ?]; done). done.
      + rewrite decide_True by done. done.
    - rewrite decide_False by (intros [? _]; done). done. }
  rewrite Hstep. apply IH.
Qed.

Lemma impact_get (graph : gmap string Graph.node)
    (impactMap : jsobj (list Api.impactEntry)) results (k : string) :
  obj_get k (foldl (Terms.impactAdd ENDPOINTS graph) impactMap results) =
  if decide (Exists (λ r, id r = k ∧ Terms.failing r) results
             ∧ Terms.impactedOf graph k ≠ [])
  then Some (Api.named ENDPOINTS <$> Terms.impactedOf graph k)
  else obj_get k impactMap.
Proof.
  revert impactMap. induction results as [|r results IH]; intros impactMap.
  { cbn [foldl]. rewrite decide_False; [done |]. by intros [?%Exists_nil _]. }
  cbn [foldl]. rewrite IH. clear IH. unfold Terms.impactAdd at 1.
  destruct (decide (Exists (λ r, id r = k ∧ Terms.failing r) results
                    ∧ Terms.impactedOf graph k ≠ [])) as [[Hrest Hne]|Hrest].
  { rewrite decide_True; [done |]. split; [by right | done]. }
  destruct (decide (Terms.failing r ∧ Terms.impactedOf graph (id r) ≠ []))
    as [[Hf Hne]|Hr].
  - destruct (decide (id r = k)) as [<-|Hk].
    + rewrite obj_get_set_eq. rewrite decide_True; [done |].
      split; [by left | done].
    + rewrite obj_get_set_ne by done.
      rewrite decide_False; [done |].
      intros [[[? _]|?]%Exists_cons ?]; [done |]. by apply Hrest.
  - rewrite decide_False; [done |].
    intros [[[<- ?]|?]%Exists_cons ?]; [by apply Hr |]. by apply Hrest.
Qed.

Lemma handler_runs (graph : gmap string Graph.node) (fuel : nat)
    (env cat : option string) (now : Z) (stored : History.history) :
  HealthConfig.getDependencyGraph ENDPOINTS = Returned graph →
  (Spec.enoughFuel graph ≤ fuel)%nat →
  ∃ results,
    Forall2 (λ ep r, runCheck E ep = Returned r)
      (HealthConfig.getEndpoints ENDPOINTS
         (withEnabledOnly (Some (Api.queryOpts env cat)))) results
    ∧ Api.handler E ENDPOINTS fuel env cat now stored
      = Some (Returned
                (Api.mkSummary (length results)
                   (Api.countStatus "UP" results)
                   (Api.countStatus "DEGRADED" results)
                   (Api.countStatus "DOWN" results)
                   graph
                   (foldl (Terms.impactAdd ENDPOINTS graph) [] results)
                   results
                   (Api.view (History.recordSnapshot now stored
                                (toHistory <$> results))),
                 History.recordSnapshot now stored (toHistory <$> results))).
Proof.
  intros Hgraph Hfuel.
  destruct (checkAll_runs (Some (Api.queryOpts env cat)))
    as (results & Hall & Hruns).
  exists results. split; [done |].
  unfold Api.handler. rewrite Hall.
  rewrite (impactLoop_runs graph fuel [] results Hgraph Hfuel).
  by rewrite Hgraph.
Qed.
End Handler.





(** The handler on a registry of three endpoints, every request being
    answered with status 503: the node and the explorer in front of it
    are DOWN, the disabled endpoint is not checked, and the impact map
    names the explorer under the node. *)
Example handler_example :
  let registry :=
    [Spec.mainnetCosmosRpc; Terms.explorerMainnet; Terms.passportApi] in
  let E := Probes.withProbes (Terms.replying 503 "" Js.VNull) in
  ∃ sm saved,
    Api.handler E registry 10 None None 1767607210000 (History.mkHistory [])
    = Some (Js.Returned (sm, saved))
    ∧ (Api.total sm, Api.up sm, Api.degraded sm, Api.down sm)
      = (2, 0, 0, 2)%nat
    ∧ (λ r, (Health.id r, Health.status r, Health.error r)) <$> Api.results sm
      = [("mainnet-cosmos-rpc", "DOWN", Some "HTTP 503");
         ("explorer-mainnet", "DOWN", Some "HTTP 503")]
    ∧ Api.impactMap sm
      = [("mainnet-cosmos-rpc",
          [Api.mkImpact "explorer-mainnet" "Explorer (Mainnet)"])]
    ∧ Api.sparklines (Api.history sm)
      = [("mainnet-cosmos-rpc", [Some (-1)]);
         ("explorer-mainnet", [Some (-1)])]
    ∧ Api.dataPoints (Api.history sm) = 1%nat.
Proof. eexists _, _. split; [vm_compute; reflexivity |]. done. Qed.

(** ** Status codes and status names *)

Section Codes.
Import Js History.

Lemma encode_codes (results : list result) k e :
  obj_get k (encode results) = Some e → s e ∈ [0; 1; 2].
Proof.
  rewrite encode_get.
  destruct (last (filter (λ r, id r = k) results)) as [r|]; [| done].
  intros [= <-]. unfold Spec.entryOf, statusCode. cbn [s].
  repeat case_decide; set_solver.
Qed.

Lemma recordSnapshot_wellCoded now (h : history) (results : list result) :
  Terms.wellCoded (snapshots h) →
  Terms.wellCoded (snapshots (recordSnapshot now h results)).
Proof.
  intros Hh snap k e Hsnap Hget. rewrite recordSnapshot_snapshots in Hsnap.
  unfold slice_last in Hsnap. apply subseteq_drop in Hsnap.
  apply elem_of_app in Hsnap as [Hsnap|Hsnap]; [by eapply Hh |].
  apply list_elem_of_singleton in Hsnap. subst snap.
  by apply (encode_codes results k).
Qed.

Lemma statusName_code (c : Z) :
  c ∈ [0; 1; 2] → statusName c ∈ ["DOWN"; "UP"; "DEGRADED"].
Proof.
  intros Hc. repeat (apply elem_of_cons in Hc as [->|Hc]);
    [| | | by apply elem_of_nil in Hc]; unfold statusName; simpl; set_solver.
Qed.

Lemma statusName_inj (c1 c2 : Z) :
  c1 ∈ [0; 1; 2] → c2 ∈ [0; 1; 2] → statusName c1 = statusName c2 → c1 = c2.
Proof.
  intros H1 H2.
  repeat (apply elem_of_cons in H1 as [->|H1]);
    [| | | by apply elem_of_nil in H1];
    repeat (apply elem_of_cons in H2 as [->|H2]);
    try (by apply elem_of_nil in H2); done.
Qed.

Lemma observations_codes id (snaps : list snapshot) o :
  Terms.wellCoded snaps → o ∈ Spec.observations id snaps →
  o.2 ∈ [0; 1; 2] ∧ ∃ snap, snap ∈ snaps ∧ o.1 = t snap.
Proof.
  intros Hcoded Ho. unfold Spec.observations in Ho.
  apply list_elem_of_omap in Ho as (snap & Hsnap & Ho).
  destruct (obj_get id (ep snap)) as [e|] eqn:Hget; simplify_eq/=.
  split; [by eapply Hcoded | by exists snap].
Qed.

Lemma transitions_named id (prev : option Z) (obs : list (Z * Z)) inc :
  (∀ p, prev = Some p → p ∈ [0; 1; 2]) →
  (∀ o, o ∈ obs → o.2 ∈ [0; 1; 2]) →
  inc ∈ Spec.transitions id prev obs →
  inc_id inc = id
  ∧ fromStatus inc ∈ ["DOWN"; "UP"; "DEGRADED"]
  ∧ toStatus inc ∈ ["DOWN"; "UP"; "DEGRADED"]
  ∧ fromStatus inc ≠ toStatus inc
  ∧ ∃ o, o ∈ obs ∧ at_ inc = o.1.
Proof.
  revert prev. induction obs as [|[at' curr] obs IH]; intros prev Hprev Hobs.
  { by intros ?%elem_of_nil. }
  cbn [Spec.transitions].
  assert (Hcurr : curr ∈ [0; 1; 2]) by (apply (Hobs (at', curr)); left).
  intros [Hinc|Hinc]%elem_of_app.
  - unfold Spec.transition in Hinc. destruct prev as [p|].
    2:{ by apply elem_of_nil in Hinc. }
    case_decide as Hne; [| by apply elem_of_nil in Hinc].
    apply list_elem_of_singleton in Hinc. subst inc. cbn.
    assert (Hp : p ∈ [0; 1; 2]) by by apply Hprev.
    split; [done |]. split; [by apply statusName_code |].
    split; [by apply statusName_code |]. split.
    + intros Heq. by apply Hne, statusName_inj.
    + exists (at', curr). split; [left | done].
  - apply IH in Hinc as (? & ? & ? & ? & o & Ho & Hat).
    + repeat (split; [done |]). exists o. split; [by right | done].
    + by intros p [= <-].
    + intros o Ho. apply Hobs. by right.
Qed.
End Codes.



(** ** Bounds of the traversals *)

Section Leaf.
Import HealthConfig.
Variable graph : gmap string Graph.node.
Variable start : string.

Lemma bfsStep_leaf :
  Spec.reqsOf graph start = [] →
  bfsStep graph (mkBfs [start] {[start]} [])
  = Some (mkBfs [] {[start]} []).
Proof.
  unfold Spec.reqsOf, bfsStep. cbn [queue visited impacted].
  destruct (graph !! start) as [node|]; [| done]. simpl. by intros ->.
Qed.

Lemma impacted_bound (fuel : nat) st :
  while (bfsStep graph) fuel (mkBfs [start] {[start]} []) = Some st →
  (length (impacted st) ≤ size (Spec.targets graph))%nat.
Proof.
  intros Hrun.
  destruct (bfs_runs graph start (Spec.enoughFuel graph)
              (mkBfs [start] {[start]} [])
              (initial_inv graph start) (initial_measure graph start))
    as (st' & Hrun' & Hinv & Hq).
  assert (st = st') as <-.
  { destruct (decide (fuel ≤ Spec.enoughFuel graph)%nat) as [Hle|Hgt].
    - rewrite (while_more_fuel _ _ _ _ _ Hrun Hle) in Hrun'. congruence.
    - rewrite (while_more_fuel _ _ fuel _ _ Hrun' ltac:(lia)) in Hrun.
      congruence. }
  destruct (finished_reaches graph start st Hinv Hq) as [Hnd Hreach].
  rewrite <- (size_list_to_set (C := gset string) (impacted st)) by done.
  apply subseteq_size. intros x Hx.
  apply elem_of_list_to_set, Hreach in Hx as [Hne Hrtc].
  apply rtc_inv_r in Hrtc as [->|(y & _ & Hyx)]; [done |].
  by apply (reqsOf_targets graph y).
Qed.
End Leaf.

(** X22. Bounds of the traversals.  Whenever [getBlastRadius] finishes,
    its count is at most the number of ids that the [requiredBy] lists
    of the graph mention.  From a start id without a node in the graph,
    or with a node that nothing depends on, one turn of the loop is
    enough: the blast radius is 0, the cascade tree has no level and
    [getImpactedServices] returns the empty list. *)
Theorem traversal_bounds (graph : gmap string Graph.node) (start : string) :
  (∀ fuel n, App.getBlastRadius fuel start graph = Some n →
             (n ≤ size (Spec.targets graph))%nat)
  ∧ (Spec.reqsOf graph start = [] →
     ∀ fuel, (1 ≤ fuel)%nat →
       App.getBlastRadius fuel start graph = Some 0%nat
       ∧ Dashboard.buildCascadeTree fuel start graph = Some []
       ∧ ∀ ENDPOINTS,
           HealthConfig.getDependencyGraph ENDPOINTS = Js.Returned graph →
           HealthConfig.getImpactedServices ENDPOINTS fuel start
           = Some (Js.Returned [])).
Proof.
  split.
  - intros fuel n. unfold App.getBlastRadius.
    change (App.mkBfs [start] {[start]} 0%nat)
      with (Spec.counting (HealthConfig.mkBfs [start] {[start]} [])).
    rewrite counting_while.
    destruct (while (HealthConfig.bfsStep graph) fuel
                (HealthConfig.mkBfs [start] {[start]} [])) as [st|] eqn:Hrun;
      [| done].
    intros [= <-]. by apply (impacted_bound graph start fuel).
  - intros Hleaf fuel Hfuel. destruct fuel as [|fuel]; [lia |].
    pose proof (bfsStep_leaf graph start Hleaf) as Hstep.
    assert (Hwhile : while (HealthConfig.bfsStep graph) (S fuel)
                       (HealthConfig.mkBfs [start] {[start]} [])
                     = Some (HealthConfig.mkBfs [] {[start]} [])).
    { cbn [while]. rewrite Hstep. by destruct fuel. }
    split; [| split].
    + unfold App.getBlastRadius.
      change (App.mkBfs [start] {[start]} 0%nat)
        with (Spec.counting (HealthConfig.mkBfs [start] {[start]} [])).
      by rewrite counting_while, Hwhile.
    + unfold Dashboard.buildCascadeTree.
      assert (Hcasc : Dashboard.cascadeStep graph
                        (Dashboard.mkCascade [] {[start]} [start])
                      = Some (Dashboard.mkCascade [] {[start]} [])).
      { unfold Dashboard.cascadeStep, Dashboard.expand.
        cbn [Dashboard.currentLevel Dashboard.visited Dashboard.levels foldl].
        unfold Spec.reqsOf in Hleaf.
        destruct (graph !! start) as [node|]; [| done].
        simpl in Hleaf. by rewrite Hleaf. }
      cbn [while]. rewrite Hcasc. by destruct fuel.
    + intros ENDPOINTS Hgraph. unfold HealthConfig.getImpactedServices.
      by rewrite Hgraph, Hwhile.
Qed.

(** ** Impacted services, in terms of the registry *)

Section Declared.
Import Js HealthConfig.
Variable ENDPOINTS : list endpoint.
Variable graph : gmap string Graph.node.
Hypothesis Hgraph : getDependencyGraph ENDPOINTS = Returned graph.

Lemma edge_declared (a b : string) :
  Spec.requiredByEdge graph a b ↔ Terms.affects ENDPOINTS a b.
Proof.
  destruct (getDependencyGraph_lists ENDPOINTS) as (g & Hg & _ & _ & Hreqs).
  rewrite Hgraph in Hg. injection Hg as <-.
  unfold Spec.requiredByEdge, Terms.affects.
  rewrite Hreqs, elem_of_addUnique, elem_of_sources, elem_of_targets.
  rewrite elem_of_depPairs, elem_of_impPairs. naive_solver.
Qed.

Lemma size_list_to_set_le (l : list string) :
  (size (list_to_set l : gset string) ≤ length l)%nat.
Proof.
  induction l as [|x l IH]; [done |].
  cbn [list_to_set length]. rewrite size_union_alt, size_singleton.
  assert (size (list_to_set l ∖ {[x]} : gset string)
          ≤ size (list_to_set l : gset string))%nat
    by (apply subseteq_size; set_solver).
  lia.
Qed.

Lemma registryFuel_enough :
  (Spec.enoughFuel graph ≤ Terms.registryFuel ENDPOINTS)%nat.
Proof.
  unfold Spec.enoughFuel, Terms.registryFuel.
  assert (Hsub : Spec.targets graph
                 ⊆ list_to_set ((Spec.depPairs ENDPOINTS).*1
                                ++ (Spec.impPairs ENDPOINTS).*2)).
  { intros x Hx. unfold Spec.targets in Hx.
    apply elem_of_list_to_set, list_elem_of_bind in Hx
      as ([k n] & Hx & Hkn).
    apply elem_of_map_to_list in Hkn. simpl in Hx.
    assert (Hedge : Spec.requiredByEdge graph k x).
    { unfold Spec.requiredByEdge, Spec.reqsOf. by rewrite Hkn. }
    apply edge_declared in Hedge.
    apply elem_of_list_to_set, elem_of_app.
    destruct Hedge as [(ep & Hep & Hid & Hdep)|(ep & Hep & Hid & Himp)].
    - left. apply list_elem_of_fmap. exists (x, k). split; [done |].
      apply elem_of_depPairs. by exists ep.
    - right. apply list_elem_of_fmap. exists (k, x). split; [done |].
      apply elem_of_impPairs. by exists ep. }
  apply subseteq_size in Hsub.
  pose proof (size_list_to_set_le ((Spec.depPairs ENDPOINTS).*1
                                   ++ (Spec.impPairs ENDPOINTS).*2)) as Hle.
  rewrite length_app, !length_fmap in Hle. lia.
Qed.
End Declared.


(** In the registry of the example a failure of the node reaches the
    explorer, which depends on it, and nothing else. *)
Example getImpactedServices_example :
  let registry :=
    [Spec.mainnetCosmosRpc; Terms.explorerMainnet; Terms.passportApi] in
  HealthConfig.getImpactedServices registry (Terms.registryFuel registry)
    "mainnet-cosmos-rpc"
  = Some (Js.Returned ["explorer-mainnet"]).
Proof. vm_compute. reflexivity. Qed.

